(** * Resumable batch processing: partition-extensions.js and drive-upload.js

    A shallow embedding of the two resumable scripts of the repository:
    - [Partition]: csv-json/partition-extensions.js (worker threads that
      copy every JSON file to the bin named by the first two characters of
      its extension id, with a checkpoint in partition_progress.json);
    - [Upload]: csv-json/drive-upload.js (batched uploads whose shared
      progress object is guarded by a boolean-flag mutex, with a checkpoint
      in upload-progress.json).

    Strings are sequences of 8-bit code units ([string]); a JavaScript array
    is a [list]; the object [binSizes], used as a dictionary, is a
    [gmap string nat].  The file system, the worker threads and the upload
    service are the environment: they appear as oracles in records. *)

From Stdlib Require Import ZArith Ascii String List Lia Bool.
From stdpp Require Import base gmap list strings.

Open Scope string_scope.
Open Scope list_scope.

(** ** Node's [path] module on POSIX, as far as the scripts use it *)
Module NodePath.

Definition CHAR_FORWARD_SLASH : ascii := "/"%char.
Definition CHAR_DOT : ascii := "."%char.

(** [s.slice(a, b)] for [0 <= a]; an empty string when [b <= a]. *)
Definition slice (s : string) (a b : Z) : string :=
  String.substring (Z.to_nat a) (Z.to_nat (b - a)) s.

(** The characters of [s] with their indices, last character first: the
    order in which the loops [for (i = s.length - 1; i >= 0; --i)] visit
    them. *)
Definition indexed_from_end (s : string) : list (Z * ascii) :=
  let cs := list_ascii_of_string s in
  List.rev (List.combine (List.map Z.of_nat (List.seq 0 (List.length cs))) cs).

(** State of the loop of [path.extname]. *)
Record ExtState := mkExt {
  startDot : Z; startPart : Z; ext_end : Z;
  ext_matchedSlash : bool; preDotState : Z }.

Fixpoint extname_loop (cs : list (Z * ascii)) (st : ExtState) : ExtState :=
  match cs with
  | [] => st
  | (i, code) :: rest =>
    if Ascii.eqb code CHAR_FORWARD_SLASH then
      if negb (ext_matchedSlash st)
      then mkExt (startDot st) (i + 1) (ext_end st) (ext_matchedSlash st) (preDotState st)
      else extname_loop rest st
    else
      let st1 :=
        if (ext_end st =? -1)%Z
        then mkExt (startDot st) (startPart st) (i + 1) false (preDotState st)
        else st in
      let st2 :=
        if Ascii.eqb code CHAR_DOT then
          if (startDot st1 =? -1)%Z
          then mkExt i (startPart st1) (ext_end st1) (ext_matchedSlash st1) (preDotState st1)
          else if negb (preDotState st1 =? 1)%Z
          then mkExt (startDot st1) (startPart st1) (ext_end st1) (ext_matchedSlash st1) 1
          else st1
        else if negb (startDot st1 =? -1)%Z
          then mkExt (startDot st1) (startPart st1) (ext_end st1) (ext_matchedSlash st1) (-1)
          else st1 in
      extname_loop rest st2
  end.

(** [path.extname(p)] *)
Definition extname (p : string) : string :=
  let st := extname_loop (indexed_from_end p) (mkExt (-1) 0 (-1) true 0) in
  if ((startDot st =? -1) || (ext_end st =? -1) || (preDotState st =? 0)
      || ((preDotState st =? 1) && (startDot st =? ext_end st - 1)
          && (startDot st =? startPart st + 1)))%Z
  then ""
  else slice p (startDot st) (ext_end st).

(** State of the loop of [path.basename(p, suffix)]. *)
Record BaseState := mkBase {
  b_start : Z; b_end : Z; b_matchedSlash : bool;
  extIdx : Z; firstNonSlashEnd : Z }.

Definition charCodeAt (s : string) (i : Z) : option ascii :=
  String.get (Z.to_nat i) s.

Fixpoint basename_suffix_loop (suffix : string) (cs : list (Z * ascii))
    (st : BaseState) : BaseState :=
  match cs with
  | [] => st
  | (i, code) :: rest =>
    if Ascii.eqb code CHAR_FORWARD_SLASH then
      if negb (b_matchedSlash st)
      then mkBase (i + 1) (b_end st) (b_matchedSlash st) (extIdx st) (firstNonSlashEnd st)
      else basename_suffix_loop suffix rest st
    else
      let st1 :=
        if (firstNonSlashEnd st =? -1)%Z
        then mkBase (b_start st) (b_end st) false (extIdx st) (i + 1)
        else st in
      let st2 :=
        if (0 <=? extIdx st1)%Z then
          if bool_decide (Some code = charCodeAt suffix (extIdx st1)) then
            if (extIdx st1 - 1 =? -1)%Z
            then mkBase (b_start st1) i (b_matchedSlash st1) (-1) (firstNonSlashEnd st1)
            else mkBase (b_start st1) (b_end st1) (b_matchedSlash st1)
                        (extIdx st1 - 1) (firstNonSlashEnd st1)
          else mkBase (b_start st1) (firstNonSlashEnd st1) (b_matchedSlash st1)
                      (-1) (firstNonSlashEnd st1)
        else st1 in
      basename_suffix_loop suffix rest st2
  end.

Fixpoint basename_plain_loop (cs : list (Z * ascii)) (st : BaseState) : BaseState :=
  match cs with
  | [] => st
  | (i, code) :: rest =>
    if Ascii.eqb code CHAR_FORWARD_SLASH then
      if negb (b_matchedSlash st)
      then mkBase (i + 1) (b_end st) (b_matchedSlash st) (extIdx st) (firstNonSlashEnd st)
      else basename_plain_loop rest st
    else if (b_end st =? -1)%Z
      then basename_plain_loop rest
             (mkBase (b_start st) (i + 1) false (extIdx st) (firstNonSlashEnd st))
      else basename_plain_loop rest st
  end.

(** [path.basename(p, suffix)] *)
Definition basename (p suffix : string) : string :=
  let n := Z.of_nat (String.length p) in
  let k := Z.of_nat (String.length suffix) in
  if ((0 <? k) && (k <=? n))%Z then
    if String.eqb suffix p then ""
    else
      let st := basename_suffix_loop suffix (indexed_from_end p)
                  (mkBase 0 (-1) true (k - 1) (-1)) in
      let e := if (b_start st =? b_end st)%Z then firstNonSlashEnd st
               else if (b_end st =? -1)%Z then n else b_end st in
      slice p (b_start st) e
  else
    let st := basename_plain_loop (indexed_from_end p) (mkBase 0 (-1) true (-1) (-1)) in
    if (b_end st =? -1)%Z then "" else slice p (b_start st) (b_end st).

(** [String.prototype.toLowerCase] on the letters A to Z. *)
Definition lower_char (c : ascii) : ascii :=
  let n := nat_of_ascii c in
  if ((65 <=? n) && (n <=? 90))%nat then ascii_of_nat (n + 32) else c.

Fixpoint toLowerCase (s : string) : string :=
  match s with
  | EmptyString => EmptyString
  | String c r => String (lower_char c) (toLowerCase r)
  end.

(** A relative path, normalised, is the list of its segments; the empty
    list is the path ["."].  [normalize_segments] is what [path.normalize]
    does to the segments of a relative path: empty and ["."] segments are
    dropped, [".."] removes the segment before it, or stays when there is
    none to remove. *)
Definition path := list string.

Definition push_segment (acc : path) (seg : string) : path :=
  if String.eqb seg "" then acc
  else if String.eqb seg "." then acc
  else if String.eqb seg ".." then
    match List.rev acc with
    | [] => [".."]
    | last :: before =>
      if String.eqb last ".." then acc ++ [".."] else List.rev before
    end
  else acc ++ [seg].

Definition normalize_segments (segs : list string) : path :=
  List.fold_left push_segment segs [].

(** [path.join(dir, name)] for a normalised [dir] and a [name] without a
    separator (a directory entry, or a piece of one). *)
Definition join (dir : path) (name : string) : path :=
  normalize_segments (dir ++ [name]).

(** [path.dirname] of a normalised relative path. *)
Definition dirname (p : path) : path := List.removelast p.

End NodePath.

(** ** JSON values, as [JSON.parse] returns them *)
Module Json.

#[local] Set Warnings "-register-all".

Inductive json :=
| JNull
| JBool (b : bool)
| JNum (n : Z)
| JStr (s : string)
| JArr (items : list json)
| JObj (fields : list (string * json)).

(** Reading a property of an object: [None] is [undefined]. *)
Fixpoint getField (k : string) (fields : list (string * json)) : option json :=
  match fields with
  | [] => None
  | (k', v) :: rest => if String.eqb k k' then Some v else getField k rest
  end.

Fixpoint removeField (k : string) (fields : list (string * json)) : list (string * json) :=
  match fields with
  | [] => []
  | (k', v) :: rest =>
    if String.eqb k k' then removeField k rest else (k', v) :: removeField k rest
  end.

(** Assigning a property: an existing key keeps its place, a new one is
    appended. *)
Fixpoint setField (k : string) (v : json) (fields : list (string * json))
    : list (string * json) :=
  match fields with
  | [] => [(k, v)]
  | (k', v') :: rest =>
    if String.eqb k k' then (k, v) :: rest else (k', v') :: setField k v rest
  end.

(** The elements of an array when all of them are strings. *)
Fixpoint strings (items : list json) : option (list string) :=
  match items with
  | [] => Some []
  | JStr s :: rest => option_map (cons s) (strings rest)
  | _ :: _ => None
  end.

(** JavaScript truthiness of a property value ([None] is [undefined]). *)
Definition truthy (v : option json) : bool :=
  match v with
  | None | Some JNull | Some (JBool false) | Some (JNum 0) | Some (JStr "") => false
  | Some _ => true
  end.

End Json.

(** ** The file system seen by the scripts *)
Module Fs.
Import NodePath.

(** The regular files and the directories that exist, by normalised
    relative path, and the failures of a copy that the paths do not explain
    (permissions, a full disk).  The working directory [[]] always exists. *)
Record FileSystem := mkFs {
  fs_files : list path;
  fs_dirs : list path;
  fs_copy_error : path -> path -> option string }.

Definition is_file (fs : FileSystem) (p : path) : bool := bool_decide (p ∈ fs_files fs).

Definition is_dir (fs : FileSystem) (p : path) : bool :=
  bool_decide (p = []) || bool_decide (p ∈ fs_dirs fs).

(** [fs.existsSync(p)] *)
Definition existsSync (fs : FileSystem) (p : path) : bool := is_file fs p || is_dir fs p.

(** [fs.copyFileSync(src, dst)]: [None] when the copy is made, [Some msg]
    when it throws.  The source must be a regular file and the directory of
    the destination must exist.  The destination is taken not to be a
    directory: the call fails on one, which the model does not tell. *)
Definition copyFileSync (fs : FileSystem) (src dst : path) : option string :=
  if negb (is_file fs src) then Some "ENOENT: no such file or directory, copyfile"
  else if negb (is_dir fs (dirname dst)) then Some "ENOENT: no such file or directory, copyfile"
  else fs_copy_error fs src dst.

(** [fs.mkdir(p)] of a directory that does not exist yet, inside a
    directory that exists and can be written: the model has no failure of
    [mkdir]. *)
Definition mkdir (fs : FileSystem) (p : path) : FileSystem :=
  mkFs (fs_files fs) (fs_dirs fs ++ [p]) (fs_copy_error fs).

(** [fs.readdir(dir)]: the names of the entries of [dir]. *)
Definition readdir (fs : FileSystem) (dir : path) : list string :=
  List.flat_map
    (fun p => match List.rev p with
              | name :: rdir => if bool_decide (List.rev rdir = dir) then [name] else []
              | [] => []
              end)
    (fs_files fs ++ fs_dirs fs).

(** A progress file as a script finds it at start: absent, present but not
    readable (the read throws), readable but not JSON ([JSON.parse]
    throws), or the JSON value it parses to. *)
Inductive CheckpointFile :=
| FileAbsent
| FileUnreadable (err : string)
| FileGarbled (err : string)
| FileJson (v : Json.json).

End Fs.

(** ** csv-json/partition-extensions.js *)
Module Partition.
Import NodePath Fs.

Definition sourceDir : path := normalize_segments ["."; "extension-dir"].
Definition targetBaseDir : path := normalize_segments ["."; "partitioned_extensions"].
Definition BATCH_SIZE : nat := 100.

(** *** createBinDirectories *)

Definition chars : list string :=
  ["a"; "b"; "c"; "d"; "e"; "f"; "g"; "h"; "i"; "j"; "k"; "l"; "m"; "n"; "o"; "p"].

(** The prefixes in the order of the two nested loops. *)
Definition binPrefixes : list string :=
  List.flat_map (fun firstChar => List.map (fun secondChar => firstChar +:+ secondChar) chars) chars.

Definition mkdir_if_missing (acc : FileSystem * nat) (p : path) : FileSystem * nat :=
  if negb (existsSync (fst acc) p) then (mkdir (fst acc) p, S (snd acc)) else acc.

(** The file system after [createBinDirectories], and the counter
    [created] of the bin directories it made. *)
Definition createBinDirectories (fs : FileSystem) : FileSystem * nat :=
  let fs1 := if negb (existsSync fs targetBaseDir) then mkdir fs targetBaseDir else fs in
  List.fold_left mkdir_if_missing (List.map (join targetBaseDir) binPrefixes) (fs1, 0).

(** *** workerProcess *)

(** One element of the array a worker posts back. *)
Record Result := mkResult {
  file : string;
  success : bool;
  bin : option string;
  error : option string }.

(** [extensionId.substring(0, 2)] of [path.basename(file, '.json')] *)
Definition extensionId (f : string) : string := basename f ".json".
Definition binOf (f : string) : string := String.substring 0 2 (extensionId f).

(** The body of [fileBatch.map(file => ...)], with its [try]/[catch]. *)
Definition processFile (fs : FileSystem) (f : string) : Result :=
  let bin := binOf f in
  let sourcePath := join sourceDir f in
  let targetDir := join targetBaseDir bin in
  let targetPath := join targetDir f in
  if negb (existsSync fs sourcePath)
  then mkResult f false None (Some "Source file does not exist")
  else match copyFileSync fs sourcePath targetPath with
       | None => mkResult f true (Some bin) None
       | Some msg => mkResult f false None (Some msg)
       end.

(** What a worker posts: the result array, or the error object of the
    outer [catch]. *)
Inductive Message :=
| MResults (results : list Result)
| MError (message stack : string).

Definition workerProcess (fs : FileSystem) (fileBatch : list string) : Message :=
  MResults (List.map (processFile fs) fileBatch).

(** *** Checkpoint file and ProgressTracker *)

(** The progress object in memory: the array [processedFiles] and its other
    properties ([binsCreated], [binSizesCalculated], [lastUpdate] and any
    further one a checkpoint brought), in insertion order. *)
Record Progress := mkProgress {
  processedFiles : list string;
  otherFields : list (string * Json.json) }.

(** [JSON.stringify(progress)] followed by [JSON.parse]: the value a later
    run reads back. *)
Definition toJson (p : Progress) : Json.json :=
  Json.JObj (("processedFiles", Json.JArr (List.map Json.JStr (processedFiles p)))
             :: otherFields p).

(** What [load] returns: the parsed value as it is, or the default state. *)
Inductive Loaded :=
| LoadedJson (v : Json.json)
| LoadedDefault (p : Progress).

Inductive LogLine :=
| LLoadError (msg : string)
| LSaveError
| LProgressSaved (count : nat)
| LWorkerError (msg : string)
| LItemError (f : string) (msg : string)
| LWorkerCrash (msg : string)
| LWorkerExit (code : Z)
| LBatchError
| LPartitionFailed (msg : string)
| LUncaught (msg : string).

Definition defaultProgress (now : Z) : Progress :=
  mkProgress []
    [("binsCreated", Json.JBool false);
     ("binSizesCalculated", Json.JBool false);
     ("lastUpdate", Json.JNum now)].

(** [ProgressTracker.load]: the value returned and what it prints with
    [console.error]. *)
Definition load (disk : CheckpointFile) (now : Z) : Loaded * list LogLine :=
  match disk with
  | FileAbsent => (LoadedDefault (defaultProgress now), [])
  | FileUnreadable err => (LoadedDefault (defaultProgress now), [LLoadError err])
  | FileGarbled err => (LoadedDefault (defaultProgress now), [LLoadError err])
  | FileJson v => (LoadedJson v, [])
  end.

(** How the rest of the script can use a loaded value.  [UArrayOfNames p]:
    an object whose [processedFiles] is an array of strings.
    [UNoProcessedFiles]: a value whose [processedFiles] is undefined or
    null, so that [progress.processedFiles.includes] throws a TypeError.
    [UNull]: the value null, where already [progress.lastUpdate] throws.
    [UOther]: any other shape; the model does not follow it. *)
Inductive Usable :=
| UArrayOfNames (p : Progress)
| UNoProcessedFiles
| UNull
| UOther.

Definition usable (l : Loaded) : Usable :=
  match l with
  | LoadedDefault p => UArrayOfNames p
  | LoadedJson Json.JNull => UNull
  | LoadedJson (Json.JObj fields) =>
    match Json.getField "processedFiles" fields with
    | None => UNoProcessedFiles
    | Some Json.JNull => UNoProcessedFiles
    | Some (Json.JArr items) =>
      match Json.strings items with
      | Some names => UArrayOfNames (mkProgress names (Json.removeField "processedFiles" fields))
      | None => UOther
      end
    | Some _ => UOther
    end
  | LoadedJson _ => UNoProcessedFiles
  end.

(** The state of the main thread: the progress object, the local counters
    of [partitionExtensionFiles], the checkpoint file, the number of writes
    attempted so far and the lines printed with [console.error] (and the
    "Progress saved" line). *)
Record State := mkState {
  progress : Progress;
  processed : nat;
  errors : nat;
  binSizes : gmap string nat;
  disk : CheckpointFile;
  writes : nat;
  console : list LogLine }.

(** The environment of a run: the file system, the number of CPU cores, how
    each worker ends (by the index [startIdx] of its batch), which writes of
    the checkpoint succeed and the clock. *)
Inductive Fate :=
| Completes
| Caught (message stack : string)
| Crashes (err : string)
| Exits (code : positive).

Record Env := mkEnv {
  env_fs : FileSystem;
  env_cpus : nat;
  env_fate : nat -> Fate;
  env_write_ok : nat -> bool;
  env_now : nat -> Z }.

Definition MAX_WORKERS (env : Env) : nat := Nat.max 1 (env_cpus env - 1).

(** [ProgressTracker.save]: stamps [lastUpdate], then writes; a failed
    write is printed and otherwise ignored.  Here the write is finished
    before anything else runs; module [EventLoop] has it finish later. *)
Definition save (env : Env) (st : State) : State :=
  let p := mkProgress (processedFiles (progress st))
             (Json.setField "lastUpdate" (Json.JNum (env_now env (writes st)))
                (otherFields (progress st))) in
  if env_write_ok env (writes st)
  then mkState p (processed st) (errors st) (binSizes st)
         (FileJson (toJson p)) (S (writes st)) (console st)
  else mkState p (processed st) (errors st) (binSizes st)
         (disk st) (S (writes st)) (console st ++ [LSaveError]).

(** [ProgressTracker.isFileProcessed] *)
Definition isFileProcessed (p : Progress) (filename : string) : bool :=
  bool_decide (filename ∈ processedFiles p).

Definition pushFile (st : State) (filename : string) : State :=
  mkState (mkProgress (processedFiles (progress st) ++ [filename]) (otherFields (progress st)))
    (processed st) (errors st) (binSizes st) (disk st) (writes st) (console st).

Definition logLine (st : State) (l : LogLine) : State :=
  mkState (progress st) (processed st) (errors st) (binSizes st) (disk st) (writes st)
    (console st ++ [l]).

(** [ProgressTracker.markFileProcessed], with the save finished at once. *)
Definition markFileProcessed (env : Env) (st : State) (filename : string) : State :=
  if negb (isFileProcessed (progress st) filename) then
    let st1 := pushFile st filename in
    if (List.length (processedFiles (progress st1)) mod 100 =? 0)%nat
    then let st2 := save env st1 in
         logLine st2 (LProgressSaved (List.length (processedFiles (progress st2))))
    else st1
  else st.

(** *** partitionExtensionFiles *)

(** What the main thread hears from one worker. *)
Inductive WorkerEvent :=
| EvMessage (m : Message)
| EvError (err : string)
| EvExit (code : Z).

(** [Completes]: the worker runs [workerProcess], posts the result array
    and exits with code 0.  [Caught]: its outer [catch] posts the error
    object.  [Crashes]: an uncaught error, then exit code 1.  [Exits]: an
    exit with a non-zero code and nothing else. *)
Definition workerEvents (env : Env) (startIdx : nat) (fileBatch : list string)
    : list WorkerEvent :=
  match env_fate env startIdx with
  | Completes => [EvMessage (workerProcess (env_fs env) fileBatch); EvExit 0]
  | Caught message stack => [EvMessage (MError message stack); EvExit 0]
  | Crashes err => [EvError err; EvExit 1]
  | Exits code => [EvExit (Z.pos code)]
  end.

(** The state of a worker's promise; the first [resolve] or [reject]
    settles it. *)
Inductive Settled := Pending | Resolved | Rejected.

Definition settle (s to : Settled) : Settled :=
  match s with Pending => to | _ => s end.

(** The steps of the main thread in the serial order of this section: a
    handler runs to its end, save included, before another starts. *)
Inductive Step :=
| StResult (r : Result)
| StWorkerError (batchLength : nat) (message : string)
| StCrash (batchLength : nat) (err : string)
| StExit (code : Z)
| StRoundSave
| StRoundError
| StFinalSave.

Definition addErrors (st : State) (n : nat) : State :=
  mkState (progress st) (processed st) (errors st + n) (binSizes st) (disk st) (writes st)
    (console st).

(** [binSizes[result.bin]++] after the initialisation to 0, and
    [processed++]. *)
Definition countSuccess (st : State) (b : string) : State :=
  mkState (progress st) (S (processed st)) (errors st)
    (<[b := S (default 0 (binSizes st !! b))]> (binSizes st))
    (disk st) (writes st) (console st).

(** One iteration of [for (const result of results)]. *)
Definition handleResult (env : Env) (st : State) (r : Result) : State :=
  if success r
  then markFileProcessed env (countSuccess st (default "undefined" (bin r))) (file r)
  else addErrors (logLine st (LItemError (file r) (default "undefined" (error r)))) 1.

Definition exec (env : Env) (st : State) (s : Step) : State :=
  match s with
  | StResult r => handleResult env st r
  | StWorkerError n message => addErrors (logLine st (LWorkerError message)) n
  | StCrash n err => addErrors (logLine st (LWorkerCrash err)) n
  | StExit code => if (code =? 0)%Z then st else logLine st (LWorkerExit code)
  | StRoundSave => save env st
  | StRoundError => logLine st LBatchError
  | StFinalSave => save env st
  end.

(** The handlers [worker.on('message' | 'error' | 'exit')] for a batch of
    [n] files: the steps they take and what they do to the promise. *)
Definition eventSteps (n : nat) (ev : WorkerEvent) : list Step * Settled :=
  match ev with
  | EvMessage (MError message _) => ([StWorkerError n message], Resolved)
  | EvMessage (MResults results) => (List.map StResult results, Resolved)
  | EvError err => ([StCrash n err], Rejected)
  | EvExit code => ([StExit code], if (code =? 0)%Z then Pending else Rejected)
  end.

Definition workerSteps (env : Env) (startIdx : nat) (fileBatch : list string)
    : list Step * Settled :=
  List.fold_left
    (fun acc ev =>
       let '(steps, to) := eventSteps (List.length fileBatch) ev in
       (fst acc ++ steps, settle (snd acc) to))
    (workerEvents env startIdx fileBatch) ([], Pending).

(** [filesToProcess.slice(startIdx, endIdx)] *)
Definition slice (l : list string) (startIdx endIdx : nat) : list string :=
  List.firstn (endIdx - startIdx) (List.skipn startIdx l).

(** The workers created in the round that starts at [i]: the values of [w]
    for which the loop condition holds (it is monotone in [w]) with the
    batch of each. *)
Definition roundBatches (env : Env) (filesToProcess : list string) (i : nat)
    : list (nat * list string) :=
  List.map
    (fun w =>
       let startIdx := i + w * BATCH_SIZE in
       let endIdx := Nat.min (startIdx + BATCH_SIZE) (List.length filesToProcess) in
       (startIdx, slice filesToProcess startIdx endIdx))
    (List.filter (fun w => (i + w * BATCH_SIZE <? List.length filesToProcess)%nat)
       (List.seq 0 (MAX_WORKERS env))).

(** [Promise.all] resolves when every promise of the round has. *)
Definition allResolved (outcomes : list Settled) : bool :=
  List.forallb (fun s => match s with Resolved => true | _ => false end) outcomes.

(** One round in the serial order: the handlers of its workers, worker
    after worker, then the save when [Promise.all] resolved and the [catch]
    otherwise.  This is the order of a run in which every worker has
    reported before the next does and before the main function goes on;
    module [EventLoop] has every order. *)
Definition roundSteps (env : Env) (filesToProcess : list string) (i : nat) : list Step :=
  let ws := List.map (fun b => workerSteps env (fst b) (snd b))
              (roundBatches env filesToProcess i) in
  List.concat (List.map fst ws)
  ++ [if allResolved (List.map snd ws) then StRoundSave else StRoundError].

(** The values of [i] in [for (i = 0; i < length; i += BATCH_SIZE * MAX_WORKERS)] *)
Definition roundStarts (env : Env) (n : nat) : list nat :=
  let stride := BATCH_SIZE * MAX_WORKERS env in
  List.map (fun k => k * stride) (List.seq 0 ((n + stride - 1) / stride)).

(** The rounds one after the other, then the final save. *)
Definition runSteps (env : Env) (filesToProcess : list string) : list Step :=
  List.flat_map (roundSteps env filesToProcess) (roundStarts env (List.length filesToProcess))
  ++ [StFinalSave].

Definition isJsonFile (f : string) : bool :=
  String.eqb (toLowerCase (extname f)) ".json".

Definition jsonFilesOf (env : Env) : list string :=
  List.filter isJsonFile (readdir (env_fs env) sourceDir).

Definition filesToProcessOf (env : Env) (p : Progress) : list string :=
  List.filter (fun f => negb (isFileProcessed p f)) (jsonFilesOf env).

(** The state in which the function starts: its local counters at zero. *)
Definition enter (p : Progress) (d : CheckpointFile) (w : nat) (c : list LogLine) : State :=
  mkState p 0 0 ∅ d w c.

(** [partitionExtensionFiles(progress)] on the main thread in the serial
    order, cut after at most [k] steps of its loop ([None]: not cut). *)
Definition partitionExtensionFilesUpTo (k : option nat) (env : Env) (st : State) : State :=
  if negb (existsSync (env_fs env) sourceDir)
  then logLine st (LPartitionFailed "Source directory does not exist!")
  else
    let filesToProcess := filesToProcessOf env (progress st) in
    if (List.length filesToProcess =? 0)%nat then st
    else
      let steps := runSteps env filesToProcess in
      List.fold_left (exec env)
        (match k with Some k => List.firstn k steps | None => steps end) st.

Definition partitionExtensionFiles (env : Env) (st : State) : State :=
  partitionExtensionFilesUpTo None env st.

(** [calculateBinSizes(progress)], as far as the progress object goes: the
    sizes it prints are left out. *)
Definition calculateBinSizes (env : Env) (st : State) : State :=
  if Json.truthy (Json.getField "binSizesCalculated" (otherFields (progress st)))
  then st
  else save env
         (mkState (mkProgress (processedFiles (progress st))
                     (Json.setField "binSizesCalculated" (Json.JBool true)
                        (otherFields (progress st))))
            (processed st) (errors st) (binSizes st) (disk st) (writes st) (console st)).

(** How [main] ends.  [Completed]: it ran to its last line.
    [PartitionFailed]: [partitionExtensionFiles] caught a TypeError before
    it processed any file.  [ExitCode1]: [main] caught an error and called
    [process.exit(1)]. *)
Inductive MainResult :=
| Completed (st : State)
| PartitionFailed (c : list LogLine)
| ExitCode1 (c : list LogLine)
| NotModelled.

(** The same environment with the file system [createBinDirectories]
    leaves, as [main] hands it to [partitionExtensionFiles]. *)
Definition withBins (env : Env) : Env :=
  mkEnv (fst (createBinDirectories (env_fs env))) (env_cpus env)
    (env_fate env) (env_write_ok env) (env_now env).

Definition main (env : Env) (disk0 : CheckpointFile) : MainResult :=
  let '(l, c) := load disk0 (env_now env 0) in
  match usable l with
  | UNull => ExitCode1 (c ++ [LUncaught "TypeError: Cannot read properties of null"])
  | UNoProcessedFiles =>
    PartitionFailed
      (c ++ [LPartitionFailed
               (if existsSync (fst (createBinDirectories (env_fs env))) sourceDir
                then "TypeError: Cannot read properties of undefined"
                else "Source directory does not exist!")])
  | UOther => NotModelled
  | UArrayOfNames p =>
    let env1 := withBins env in
    Completed (calculateBinSizes env1 (partitionExtensionFiles env1 (enter p disk0 0 c)))
  end.

(** *** Notions used to state the properties of a run *)

(** The completed set a run starts from when it finds checkpoint [d]. *)
Definition checkpointNames (d : CheckpointFile) : list string :=
  match usable (fst (load d 0)) with
  | UArrayOfNames p => processedFiles p
  | _ => []
  end.

(** The completions in memory that the checkpoint does not hold: the work
    a resumed run does again. *)
Definition lostWork (st : State) : list string :=
  List.filter (fun f => negb (bool_decide (f ∈ checkpointNames (disk st))))
    (processedFiles (progress st)).

(** The files whose results a list of steps handles. *)
Definition stepFiles (s : Step) : list string :=
  match s with StResult r => [file r] | _ => [] end.

Definition handledFiles (steps : list Step) : list string := List.flat_map stepFiles steps.

(** The items of the round that starts at [i]. *)
Definition roundItems (env : Env) (filesToProcess : list string) (i : nat) : list string :=
  slice filesToProcess i (i + BATCH_SIZE * MAX_WORKERS env).

(** Every worker of the run reports by message, so that its promise
    resolves. *)
Definition everyWorkerReports (env : Env) : Prop :=
  forall startIdx,
    match env_fate env startIdx with
    | Completes | Caught _ _ => True
    | Crashes _ | Exits _ => False
    end.

(** The directory [partitioned_extensions] holds no directory besides the
    bins of [createBinDirectories]. *)
Definition noForeignBins (fs : FileSystem) : Prop :=
  forall name, (targetBaseDir ++ [name]) ∈ fs_dirs fs -> name ∈ binPrefixes.


End Partition.

(** ** csv-json/drive-upload.js *)
Module Upload.
Import Fs.

Definition MAX_CONCURRENT_UPLOADS : nat := 30.

Inductive LogLine :=
| LLoadError (msg : string)
| LSaveError
| LFailed (relativePath : string)
| LTransferFailed.

(** The value of [completedFiles] after the loading block: an array of
    file names or, when the checkpoint holds something else that is truthy
    under [completedFiles], that value. *)
Inductive CompletedValue :=
| CNames (names : list string)
| CForeign (v : Json.json).

(** The loading block at the start of [uploadDirectoryWithTransferManager]:
    [progressData.completedFiles || []] inside [try], [[]] in [catch]. *)
Definition loadCompleted (disk : CheckpointFile) : CompletedValue * list LogLine :=
  match disk with
  | FileAbsent => (CNames [], [])
  | FileUnreadable err => (CNames [], [LLoadError err])
  | FileGarbled err => (CNames [], [LLoadError err])
  | FileJson Json.JNull => (CNames [], [LLoadError "TypeError: Cannot read properties of null"])
  | FileJson (Json.JObj fields) =>
    let v := Json.getField "completedFiles" fields in
    if Json.truthy v then
      match v with
      | Some (Json.JArr items) =>
        match Json.strings items with
        | Some names => (CNames names, [])
        | None => (CForeign (Json.JArr items), [])
        end
      | Some w => (CForeign w, [])
      | None => (CNames [], [])
      end
    else (CNames [], [])
  | FileJson _ => (CNames [], [])
  end.

(** The object [progress] shared by the uploads of a run. *)
Record Shared := mkShared {
  uploaded : nat;
  failed : nat;
  total : nat;
  completedFiles : list string;
  mutex : bool }.

(** The two update functions passed to [updateProgressAtomic]. *)
Inductive Update :=
| MarkCompleted (relativePath : string)
| CountFailure.

Definition applyUpdate (u : Update) (sh : Shared) : Shared :=
  match u with
  | MarkCompleted relativePath =>
    mkShared (S (uploaded sh)) (failed sh) (total sh)
      (if bool_decide (relativePath ∈ completedFiles sh) then completedFiles sh
       else completedFiles sh ++ [relativePath])
      (mutex sh)
  | CountFailure =>
    mkShared (uploaded sh) (S (failed sh)) (total sh) (completedFiles sh) (mutex sh)
  end.

Definition setMutex (b : bool) (sh : Shared) : Shared :=
  mkShared (uploaded sh) (failed sh) (total sh) (completedFiles sh) b.

(** Where a call of [updateProgressAtomic] stands between two turns of the
    event loop.  [AtLoop]: at the test of [while (progress.mutex)], at its
    first arrival or after a timer of 10 ms.  [InUpdate]: the flag is
    taken, the body of [updateFn] has run, and the call is suspended at
    [await updateFn()].  [Released]: the [finally] has cleared the flag. *)
Inductive Pc := AtLoop | InUpdate | Released.

Record Call := mkCall { update : Update; pc : Pc }.

(** One turn of the event loop given to call [i]: JavaScript runs it to
    its next [await] without interruption. *)
Definition turn (i : nat) (s : Shared * list Call) : Shared * list Call :=
  let '(sh, calls) := s in
  match calls !! i with
  | Some (mkCall u AtLoop) =>
    if mutex sh then (sh, calls)
    else (applyUpdate u (setMutex true sh), <[i := mkCall u InUpdate]> calls)
  | Some (mkCall u InUpdate) => (setMutex false sh, <[i := mkCall u Released]> calls)
  | Some (mkCall _ Released) => s
  | None => s
  end.

Definition runSchedule (schedule : list nat) (s : Shared * list Call) : Shared * list Call :=
  List.fold_left (fun s i => turn i s) schedule s.

(** The environment of a run: which files are read, parsed and uploaded
    without an error, and which writes of the progress file succeed. *)
Record Env := mkEnv {
  env_upload_ok : string -> bool;
  env_write_ok : nat -> bool }.

(** The call of [updateProgressAtomic] each file of a batch ends with. *)
Definition callsOf (env : Env) (batch : list string) : list Call :=
  List.map (fun relativePath =>
              mkCall (if env_upload_ok env relativePath
                      then MarkCompleted relativePath else CountFailure) AtLoop)
           batch.

(** The schedule in which the calls run one after the other. *)
Definition inOrder (n : nat) : list nat := List.flat_map (fun i => [i; i]) (List.seq 0 n).

Record State := mkState {
  shared : Shared;
  disk : CheckpointFile;
  writes : nat;
  console : list LogLine }.

(** [saveProgress(completedFiles)] *)
Definition saveProgress (env : Env) (st : State) : State :=
  if env_write_ok env (writes st)
  then mkState (shared st)
         (FileJson (Json.JObj [("completedFiles",
                                Json.JArr (List.map Json.JStr (completedFiles (shared st))))]))
         (S (writes st)) (console st)
  else mkState (shared st) (disk st) (S (writes st)) (console st ++ [LSaveError]).

(** The uploads of one batch, all started, then all settled, each call of
    [updateProgressAtomic] served in the order of the batch; module
    [UploadLoop] has them settle in any order. *)
Definition runBatch (env : Env) (st : State) (batch : list string) : State :=
  mkState
    (fst (runSchedule (inOrder (List.length batch)) (shared st, callsOf env batch)))
    (disk st) (writes st)
    (console st ++ List.map LFailed (List.filter (fun f => negb (env_upload_ok env f)) batch)).

(** [Promise.all(uploadPromises)] rejects when an upload does:
    [processAndUploadFile] throws the error again after counting it. *)
Definition batchRejects (env : Env) (batch : list string) : bool :=
  List.existsb (fun f => negb (env_upload_ok env f)) batch.

(** The batches [filesToUpload.slice(i, i + MAX_CONCURRENT_UPLOADS)] *)
Definition batchesOf (filesToUpload : list string) : list (list string) :=
  List.map
    (fun k => List.firstn MAX_CONCURRENT_UPLOADS
                (List.skipn (k * MAX_CONCURRENT_UPLOADS) filesToUpload))
    (List.seq 0 ((List.length filesToUpload + MAX_CONCURRENT_UPLOADS - 1)
                 / MAX_CONCURRENT_UPLOADS)).

(** The loop over the batches inside [try]: the state at the end, the
    batches whose uploads were started, and whether the loop ran to its
    end. *)
Fixpoint uploadLoop (env : Env) (batches : list (list string)) (st : State)
    (started : list (list string)) : State * list (list string) * bool :=
  match batches with
  | [] => (st, started, true)
  | batch :: rest =>
    let st1 := runBatch env st batch in
    if batchRejects env batch
    then (mkState (shared st1) (disk st1) (writes st1) (console st1 ++ [LTransferFailed]),
          started ++ [batch], false)
    else uploadLoop env rest (saveProgress env st1) (started ++ [batch])
  end.

Definition filesToUploadOf (allFiles completed : list string) : list string :=
  List.filter (fun relativePath => negb (bool_decide (relativePath ∈ completed))) allFiles.

(** [uploadDirectoryWithTransferManager], from the list of the files under
    the directory (as paths relative to it). *)
Definition uploadDirectoryWithTransferManager (env : Env) (allFiles : list string)
    (disk0 : CheckpointFile) : option (State * list (list string) * bool) :=
  match loadCompleted disk0 with
  | (CNames completed, c) =>
    let filesToUpload := filesToUploadOf allFiles completed in
    Some (uploadLoop env (batchesOf filesToUpload)
            (mkState (mkShared 0 0 (List.length filesToUpload) completed false) disk0 0 c)
            [])
  | (CForeign _, _) => None
  end.


(** *** Notions used to state the properties of the mutex *)

Definition isHolder (c : Call) : bool :=
  match pc c with InUpdate => true | _ => false end.

(** The calls whose update function has run. *)
Definition hasApplied (c : Call) : bool :=
  match pc c with AtLoop => false | _ => true end.

Definition isMarkCompleted (u : Update) : bool :=
  match u with MarkCompleted _ => true | CountFailure => false end.

Definition holders (calls : list Call) : list Call := List.filter isHolder calls.

Definition appliedCompleted (calls : list Call) : nat :=
  List.length (List.filter (fun c => hasApplied c && isMarkCompleted (update c)) calls).

Definition appliedFailures (calls : list Call) : nat :=
  List.length (List.filter (fun c => hasApplied c && negb (isMarkCompleted (update c))) calls).

(** The file of every applied [MarkCompleted] is in [completedFiles]. *)
Definition recorded (sh : Shared) (c : Call) : Prop :=
  match pc c, update c with
  | AtLoop, _ => True
  | _, CountFailure => True
  | _, MarkCompleted relativePath => relativePath ∈ completedFiles sh
  end.

Definition start (updates : list Update) : list Call :=
  List.map (fun u => mkCall u AtLoop) updates.


(** The completed set a run starts from when it finds checkpoint [d]. *)
Definition checkpointNames (d : CheckpointFile) : list string :=
  match fst (loadCompleted d) with
  | CNames names => names
  | CForeign _ => []
  end.

End Upload.

(** ** Facts about JSON values *)
Module JsonFacts.

Lemma strings_JStr (names : list string) :
  Json.strings (List.map Json.JStr names) = Some names.
Proof. induction names as [|n names IH]; simpl; [reflexivity|]. now rewrite IH. Qed.

End JsonFacts.

(** ** Properties of partition-extensions.js *)
Module PartitionProofs.
Import NodePath Fs Partition.

Lemma substring_0_2_prefix (s : string) : String.prefix (String.substring 0 2 s) s = true.
Proof.
  destruct s as [|a [|b r]]; simpl; try reflexivity.
  - destruct (ascii_dec a a); [reflexivity | congruence].
  - destruct (ascii_dec a a); [|congruence].
    destruct (ascii_dec b b); [|congruence].
    destruct r; reflexivity.
Qed.

Lemma substring_0_2_length (s : string) :
  String.length (String.substring 0 2 s) = Nat.min 2 (String.length s).
Proof. destruct s as [|a [|b r]]; simpl; try reflexivity. destruct r; reflexivity. Qed.

Lemma workerSteps_by_fate (env : Env) (startIdx : nat) (fileBatch : list string) :
  workerSteps env startIdx fileBatch =
  match env_fate env startIdx with
  | Completes =>
    (List.map StResult (List.map (processFile (env_fs env)) fileBatch) ++ [StExit 0], Resolved)
  | Caught message _ => ([StWorkerError (List.length fileBatch) message; StExit 0], Resolved)
  | Crashes err => ([StCrash (List.length fileBatch) err; StExit 1], Rejected)
  | Exits code => ([StExit (Z.pos code)], Rejected)
  end.
Proof.
  unfold workerSteps, workerEvents.
  destruct (env_fate env startIdx); reflexivity.
Qed.

Lemma file_processFile (fs : FileSystem) (f : string) : file (processFile fs f) = f.
Proof.
  unfold processFile.
  destruct (negb _); [reflexivity|]. destruct (copyFileSync _ _ _); reflexivity.
Qed.

Lemma bin_processFile (fs : FileSystem) (f : string) :
  bin (processFile fs f) = if success (processFile fs f) then Some (binOf f) else None.
Proof.
  unfold processFile.
  destruct (negb _); [reflexivity|]. destruct (copyFileSync _ _ _); reflexivity.
Qed.

(** A step that handles a result handles the one [processFile] computes
    for its file. *)
Definition stepFrom (fs : FileSystem) (s : Step) : Prop :=
  match s with
  | StResult r => r = processFile fs (file r)
  | _ => True
  end.

Lemma workerSteps_from (env : Env) (startIdx : nat) (fileBatch : list string) :
  Forall (stepFrom (env_fs env)) (fst (workerSteps env startIdx fileBatch)).
Proof.
  rewrite workerSteps_by_fate.
  destruct (env_fate env startIdx); simpl; repeat constructor.
  apply Forall_app. split; [|repeat constructor].
  rewrite List.map_map. apply Forall_forall. intros s Hs.
  apply list_elem_of_In, List.in_map_iff in Hs. destruct Hs as [f [<- _]].
  simpl. now rewrite file_processFile.
Qed.

Lemma roundSteps_from (env : Env) (files : list string) (i : nat) :
  Forall (stepFrom (env_fs env)) (roundSteps env files i).
Proof.
  unfold roundSteps. apply Forall_app. split.
  - apply Forall_concat. apply Forall_forall. intros l Hl.
    apply list_elem_of_In in Hl. rewrite List.map_map in Hl.
    apply List.in_map_iff in Hl. destruct Hl as [b [<- _]].
    apply workerSteps_from.
  - constructor; [|constructor]. destruct (allResolved _); exact I.
Qed.

Lemma runSteps_from (env : Env) (files : list string) :
  Forall (stepFrom (env_fs env)) (runSteps env files).
Proof.
  unfold runSteps. apply Forall_app. split; [|repeat constructor].
  apply Forall_forall. intros s Hs.
  apply list_elem_of_In, List.in_flat_map in Hs. destruct Hs as [i [_ Hs]].
  pose proof (roundSteps_from env files i) as H.
  rewrite Forall_forall in H. apply H. now apply list_elem_of_In.
Qed.

(** C7. The bin of an item is the prefix of at most two characters of its
    identifier, whatever the file system, the batch the file is in, the
    number of workers and the other files of the run: every result a run
    handles carries that label. *)
Theorem bin_label_is_id_prefix (env : Env) (filesToProcess : list string) (f : string) :
  binOf f = String.substring 0 2 (extensionId f)
  /\ String.prefix (binOf f) (extensionId f) = true
  /\ String.length (binOf f) = Nat.min 2 (String.length (extensionId f))
  /\ bin (processFile (env_fs env) f)
     = (if success (processFile (env_fs env) f) then Some (binOf f) else None)
  /\ Forall (fun s => match s with
                      | StResult r =>
                        bin r = if success r then Some (binOf (file r)) else None
                      | _ => True
                      end)
            (runSteps env filesToProcess).
Proof.
  split; [reflexivity|].
  split; [apply substring_0_2_prefix|].
  split; [apply substring_0_2_length|].
  split; [apply bin_processFile|].
  eapply Forall_impl; [apply runSteps_from|].
  intros [r| | | | | |] H; simpl in *; try exact I.
  pose proof (bin_processFile (env_fs env) (file r)) as Hb.
  rewrite <- H in Hb. exact Hb.
Qed.

(** *** Items whose bin was not created *)

Lemma join_plain (dir : path) (name : string) :
  name <> "" -> name <> "." -> name <> ".." ->
  join dir name = normalize_segments dir ++ [name].
Proof.
  intros H1 H2 H3. unfold join, normalize_segments.
  rewrite List.fold_left_app. simpl. unfold push_segment at 1.
  apply String.eqb_neq in H1, H2, H3. now rewrite H1, H2, H3.
Qed.

Lemma mkdir_fold_dirs (ps : list path) (acc : FileSystem * nat) (d : path) :
  d ∈ fs_dirs (fst (List.fold_left mkdir_if_missing ps acc)) ->
  d ∈ fs_dirs (fst acc) \/ d ∈ ps.
Proof.
  revert acc. induction ps as [|p ps IH]; intros acc H; simpl in *.
  - now left.
  - apply IH in H. destruct H as [H|H].
    + unfold mkdir_if_missing in H. destruct (negb _); simpl in H.
      * apply elem_of_app in H. destruct H as [H|H]; [now left|].
        apply list_elem_of_singleton in H. subst. right. left.
      * now left.
    + right. now right.
Qed.

Lemma createBinDirectories_dirs (fs : FileSystem) (d : path) :
  d ∈ fs_dirs (fst (createBinDirectories fs)) ->
  d ∈ fs_dirs fs \/ d = targetBaseDir
  \/ exists b, b ∈ binPrefixes /\ d = targetBaseDir ++ [b].
Proof.
  unfold createBinDirectories. intros H.
  apply mkdir_fold_dirs in H. destruct H as [H|H].
  - simpl in H. destruct (negb _); simpl in H; [|now left].
    apply elem_of_app in H. destruct H as [H|H]; [now left|].
    apply list_elem_of_singleton in H. right. now left.
  - right. right.
    assert (Hm : List.map (join targetBaseDir) binPrefixes
                 = List.map (fun b => targetBaseDir ++ [b]) binPrefixes)
      by (vm_compute; reflexivity).
    rewrite Hm in H. apply list_elem_of_In, List.in_map_iff in H.
    destruct H as [b [<- Hb]]. exists b. split; [now apply list_elem_of_In|reflexivity].
Qed.

Lemma jsonFile_plain_name (f : string) :
  isJsonFile f = true -> f <> "" /\ f <> "." /\ f <> "..".
Proof.
  intros H. repeat split; intros ->; vm_compute in H; discriminate.
Qed.

Lemma unknown_bin_not_copied (fs : FileSystem) (f : string) :
  noForeignBins fs -> isJsonFile f = true ->
  binOf f ∉ binPrefixes -> binOf f <> "" -> binOf f <> "." -> binOf f <> ".." ->
  success (processFile (fst (createBinDirectories fs)) f) = false.
Proof.
  intros Hfs Hjson Hbin H1 H2 H3.
  destruct (jsonFile_plain_name f Hjson) as (F1 & F2 & F3).
  unfold processFile.
  destruct (negb (existsSync _ _)); [reflexivity|].
  unfold copyFileSync.
  destruct (negb (is_file _ _)); [reflexivity|].
  assert (Hdir : dirname (join (join targetBaseDir (binOf f)) f) = targetBaseDir ++ [binOf f]).
  { rewrite (join_plain _ f F1 F2 F3).
    rewrite (join_plain _ (binOf f) H1 H2 H3).
    unfold dirname. rewrite List.removelast_last.
    change (normalize_segments targetBaseDir) with targetBaseDir.
    unfold normalize_segments. rewrite List.fold_left_app. simpl.
    unfold push_segment at 1.
    apply String.eqb_neq in H1, H2, H3. now rewrite H1, H2, H3. }
  rewrite Hdir.
  assert (Hno : is_dir (fst (createBinDirectories fs)) (targetBaseDir ++ [binOf f]) = false).
  { unfold is_dir. apply orb_false_iff. split.
    - apply bool_decide_eq_false. discriminate.
    - apply bool_decide_eq_false. intros Hin.
      apply createBinDirectories_dirs in Hin.
      destruct Hin as [Hin|[Hin|[b [Hb Hin]]]].
      + apply Hfs in Hin. contradiction.
      + discriminate.
      + apply List.app_inj_tail in Hin. destruct Hin as [_ Heq]. rewrite Heq in Hbin. contradiction. }
  rewrite Hno. reflexivity.
Qed.

(** *** What a step does to the completed set and to the checkpoint *)

(** The file a step appends to [processedFiles], if any. *)
Definition added (st : State) (s : Step) : list string :=
  match s with
  | StResult r =>
    if success r && negb (isFileProcessed (progress st) (file r)) then [file r] else []
  | _ => []
  end.

Lemma processedFiles_save (env : Env) (st : State) :
  processedFiles (progress (save env st)) = processedFiles (progress st).
Proof. unfold save. destruct (env_write_ok _ _); reflexivity. Qed.

Lemma processedFiles_markFileProcessed (env : Env) (st : State) (f : string) :
  processedFiles (progress (markFileProcessed env st f))
  = processedFiles (progress st) ++ (if isFileProcessed (progress st) f then [] else [f]).
Proof.
  unfold markFileProcessed.
  destruct (isFileProcessed (progress st) f); simpl; [now rewrite List.app_nil_r|].
  destruct (_ =? 0)%nat; simpl; [|reflexivity].
  now rewrite processedFiles_save.
Qed.

Lemma processedFiles_exec (env : Env) (st : State) (s : Step) :
  processedFiles (progress (exec env st s)) = processedFiles (progress st) ++ added st s.
Proof.
  destruct s as [r| | | c | | |]; simpl; rewrite ?List.app_nil_r, ?processedFiles_save;
    try reflexivity.
  - unfold handleResult. destruct (success r); simpl.
    + rewrite processedFiles_markFileProcessed. simpl.
      destruct (isFileProcessed (progress st) (file r)); reflexivity.
    + now rewrite List.app_nil_r.
  - destruct (c =? 0)%Z; reflexivity.
Qed.

Lemma processedFiles_run_prefix (env : Env) (steps : list Step) (st : State) :
  processedFiles (progress st) `prefix_of`
  processedFiles (progress (List.fold_left (exec env) steps st)).
Proof.
  revert st. induction steps as [|s steps IH]; intros st; simpl; [reflexivity|].
  etransitivity; [|apply IH]. rewrite processedFiles_exec. now apply prefix_app_r.
Qed.

Lemma checkpointNames_toJson (p : Progress) :
  checkpointNames (FileJson (toJson p)) = processedFiles p.
Proof. unfold checkpointNames. simpl. now rewrite JsonFacts.strings_JStr. Qed.

(** A resumed run starts from the names of the checkpoint. *)
Lemma resume_from_saved (p : Progress) (now : Z) :
  exists q, usable (fst (load (FileJson (toJson p)) now)) = UArrayOfNames q
            /\ processedFiles q = processedFiles p.
Proof. simpl. rewrite JsonFacts.strings_JStr. eexists. split; reflexivity. Qed.

Lemma checkpoint_save (env : Env) (st : State) :
  checkpointNames (disk (save env st))
  = if env_write_ok env (writes st) then processedFiles (progress st)
    else checkpointNames (disk st).
Proof.
  unfold save. destruct (env_write_ok _ _); simpl; [|reflexivity].
  now rewrite checkpointNames_toJson.
Qed.

(** A step leaves the checkpoint as it is or replaces it by the completed
    set in memory. *)
Lemma checkpoint_exec (env : Env) (st : State) (s : Step) :
  checkpointNames (disk (exec env st s)) = checkpointNames (disk st)
  \/ checkpointNames (disk (exec env st s)) = processedFiles (progress (exec env st s)).
Proof.
  assert (Hs : forall st', checkpointNames (disk (save env st')) = checkpointNames (disk st')
                  \/ checkpointNames (disk (save env st'))
                     = processedFiles (progress (save env st'))).
  { intros st'. rewrite checkpoint_save, processedFiles_save.
    destruct (env_write_ok _ _); auto. }
  destruct s as [r| | | c | | |]; simpl; auto.
  - unfold handleResult. destruct (success r); simpl; [|now left].
    unfold markFileProcessed. simpl.
    destruct (negb _); simpl; [|now left].
    destruct (_ =? 0)%nat; simpl; [|now left].
    match goal with |- context [save env ?x] => destruct (Hs x) as [H|H] end.
    + left. exact H.
    + right. exact H.
  - destruct (c =? 0)%Z; now left.
Qed.

(** The checkpoint never holds a name the memory does not. *)
Definition checkpointWithinMemory (st : State) : Prop :=
  checkpointNames (disk st) ⊆ processedFiles (progress st).

Lemma checkpointWithinMemory_exec (env : Env) (st : State) (s : Step) :
  checkpointWithinMemory st ->
  checkpointWithinMemory (exec env st s)
  /\ checkpointNames (disk st) ⊆ checkpointNames (disk (exec env st s)).
Proof.
  unfold checkpointWithinMemory. intros H.
  assert (Hm : processedFiles (progress st) ⊆ processedFiles (progress (exec env st s))).
  { rewrite processedFiles_exec. intros x Hx. apply elem_of_app. now left. }
  destruct (checkpoint_exec env st s) as [E|E]; rewrite E.
  - split; [|reflexivity]. etransitivity; eauto.
  - split; [reflexivity|]. etransitivity; eauto.
Qed.

Lemma checkpointWithinMemory_run (env : Env) (steps : list Step) (st : State) :
  checkpointWithinMemory st ->
  checkpointWithinMemory (List.fold_left (exec env) steps st)
  /\ checkpointNames (disk st) ⊆ checkpointNames (disk (List.fold_left (exec env) steps st)).
Proof.
  revert st. induction steps as [|s steps IH]; intros st H; simpl.
  - split; [exact H|reflexivity].
  - destruct (checkpointWithinMemory_exec env st s H) as [H1 H2].
    destruct (IH _ H1) as [H3 H4]. split; [exact H3|]. etransitivity; eauto.
Qed.

Lemma markFileProcessed_present (env : Env) (st : State) (f : string) :
  f ∈ processedFiles (progress st) -> markFileProcessed env st f = st.
Proof.
  intros H. unfold markFileProcessed, isFileProcessed.
  now rewrite bool_decide_eq_true_2.
Qed.

(** *** The checkpoint over a whole run *)

Lemma usable_names (d : CheckpointFile) (now : Z) (p : Progress) :
  usable (fst (load d now)) = UArrayOfNames p -> checkpointNames d = processedFiles p.
Proof.
  unfold checkpointNames. destruct d as [| | |v]; simpl.
  - intros [= <-]. reflexivity.
  - intros [= <-]. reflexivity.
  - intros [= <-]. reflexivity.
  - intros ->. reflexivity.
Qed.

Lemma checkpointWithinMemory_logLine (st : State) (l : LogLine) :
  checkpointWithinMemory st -> checkpointWithinMemory (logLine st l).
Proof. exact (fun H => H). Qed.

Lemma partitionExtensionFilesUpTo_checkpoint (k : option nat) (env : Env) (st : State) :
  checkpointWithinMemory st ->
  checkpointWithinMemory (partitionExtensionFilesUpTo k env st)
  /\ checkpointNames (disk st) ⊆ checkpointNames (disk (partitionExtensionFilesUpTo k env st))
  /\ processedFiles (progress st) `prefix_of`
     processedFiles (progress (partitionExtensionFilesUpTo k env st)).
Proof.
  intros H. unfold partitionExtensionFilesUpTo.
  destruct (negb _); [repeat split; [exact H|reflexivity|reflexivity]|].
  destruct (_ =? 0)%nat; [repeat split; [exact H|reflexivity|reflexivity]|].
  match goal with |- context [List.fold_left (exec env) ?steps st] =>
    destruct (checkpointWithinMemory_run env steps st H) as [H1 H2];
    pose proof (processedFiles_run_prefix env steps st) as H3
  end.
  repeat split; assumption.
Qed.

Lemma calculateBinSizes_checkpoint (env : Env) (st : State) :
  checkpointWithinMemory st ->
  checkpointWithinMemory (calculateBinSizes env st)
  /\ checkpointNames (disk st) ⊆ checkpointNames (disk (calculateBinSizes env st))
  /\ processedFiles (progress (calculateBinSizes env st)) = processedFiles (progress st).
Proof.
  intros H. unfold calculateBinSizes.
  destruct (Json.truthy _); [repeat split; [exact H|reflexivity]|].
  match goal with |- context [save env ?x] => set (st1 := x) end.
  assert (H1 : checkpointWithinMemory st1) by exact H.
  unfold checkpointWithinMemory in *.
  rewrite checkpoint_save, processedFiles_save.
  destruct (env_write_ok _ _); repeat split; auto.
Qed.

(** A run that completes starts from the names of the checkpoint it finds
    and leaves a checkpoint that holds them all. *)
Lemma main_checkpoint_grows (env : Env) (disk0 : CheckpointFile) :
  match main env disk0 with
  | Completed st =>
    checkpointNames disk0 ⊆ checkpointNames (disk st)
    /\ checkpointNames (disk st) ⊆ processedFiles (progress st)
    /\ checkpointNames disk0 `prefix_of` processedFiles (progress st)
  | _ => True
  end.
Proof.
  unfold main. destruct (load disk0 (env_now env 0)) as [l c] eqn:El.
  destruct (usable l) as [p| | |] eqn:Eu; try exact I.
  assert (Hn : checkpointNames disk0 = processedFiles p).
  { apply usable_names with (env_now env 0). now rewrite El. }
  assert (H0 : checkpointWithinMemory (enter p disk0 0 c)).
  { unfold checkpointWithinMemory. simpl. now rewrite Hn. }
  destruct (partitionExtensionFilesUpTo_checkpoint None (withBins env) _ H0) as (H1 & H2 & H3).
  destruct (calculateBinSizes_checkpoint (withBins env) _ H1) as (H4 & H5 & H6).
  unfold partitionExtensionFiles. repeat split.
  - etransitivity; [exact H2|exact H5].
  - exact H4.
  - rewrite H6, Hn. exact H3.
Qed.

(** *** Files that a run never adds *)

Lemma never_added (env : Env) (f : string) (steps : list Step) :
  forall st : State,
    Forall (stepFrom (env_fs env)) steps ->
    success (processFile (env_fs env) f) = false ->
    f ∉ processedFiles (progress st) ->
    f ∉ processedFiles (progress (List.fold_left (exec env) steps st)).
Proof.
  induction steps as [|s steps IH]; intros st Hs Hf Hn; simpl; [exact Hn|].
  inversion Hs as [|s' steps' H1 H2]; subst.
  apply IH; [exact H2|exact Hf|].
  rewrite processedFiles_exec. intros Hin. apply elem_of_app in Hin.
  destruct Hin as [Hin|Hin]; [contradiction|].
  destruct s as [r| | | | | |]; simpl in Hin; try (now apply elem_of_nil in Hin).
  destruct (success r) eqn:Er; simpl in Hin; [|now apply elem_of_nil in Hin].
  destruct (negb _); [|now apply elem_of_nil in Hin].
  apply list_elem_of_singleton in Hin. subst f.
  simpl in H1. rewrite <- H1 in Hf. congruence.
Qed.

Lemma never_added_run (k : option nat) (env : Env) (f : string) (st : State) :
  success (processFile (env_fs env) f) = false ->
  f ∉ processedFiles (progress st) ->
  f ∉ processedFiles (progress (partitionExtensionFilesUpTo k env st)).
Proof.
  intros Hf Hn. unfold partitionExtensionFilesUpTo.
  destruct (negb _); [exact Hn|].
  destruct (_ =? 0)%nat; [exact Hn|].
  apply never_added; [|exact Hf|exact Hn].
  pose proof (runSteps_from env (filesToProcessOf env (progress st))) as H.
  destruct k as [k|]; [|exact H].
  now apply Forall_take.
Qed.

Lemma handleResult_failure (env : Env) (st : State) (r : Result) :
  success r = false ->
  progress (handleResult env st r) = progress st
  /\ processed (handleResult env st r) = processed st
  /\ binSizes (handleResult env st r) = binSizes st
  /\ disk (handleResult env st r) = disk st
  /\ errors (handleResult env st r) = errors st + 1
  /\ console (handleResult env st r)
     = console st ++ [LItemError (file r) (default "undefined" (error r))].
Proof. intros H. unfold handleResult. rewrite H. simpl. repeat split. Qed.

(** C10, amended.  After [createBinDirectories] on a target directory that
    holds no other directory, a candidate file whose bin label is none of
    the 256 prefixes and is not empty, ["."] or [".."] gets a failed result:
    the worker still posts one result per file of its batch, the main
    thread adds one to [errors] and leaves the progress object as it is,
    and no run adds the file to the completed set. *)
Theorem unknown_bin_item_fails (env : Env) (st : State) (f : string) :
  noForeignBins (env_fs env) ->
  isJsonFile f = true ->
  binOf f ∉ binPrefixes -> binOf f <> "" -> binOf f <> "." -> binOf f <> ".." ->
  let env1 := withBins env in
  let r := processFile (env_fs env1) f in
  success r = false
  /\ (forall fileBatch,
         workerProcess (env_fs env1) fileBatch
         = MResults (List.map (processFile (env_fs env1)) fileBatch))
  /\ progress (handleResult env1 st r) = progress st
  /\ errors (handleResult env1 st r) = errors st + 1
  /\ (f ∉ processedFiles (progress st) ->
      forall k, f ∉ processedFiles (progress (partitionExtensionFilesUpTo k env1 st))).
Proof.
  intros Hfs Hjson Hbin H1 H2 H3 env1 r.
  assert (Hr : success r = false) by now apply unknown_bin_not_copied.
  destruct (handleResult_failure env1 st r Hr) as (P1 & _ & _ & _ & P5 & _).
  repeat split; auto.
  intros Hn k. now apply never_added_run.
Qed.

(** A file of the bin ["zz"], which is not created. *)
Lemma unknown_bin_item_fails_witness :
  let fs := mkFs [["extension-dir"; "zzab.json"]] [["extension-dir"]] (fun _ _ => None) in
  let env := mkEnv fs 3 (fun _ => Completes) (fun _ => true) (fun _ => 0%Z) in
  let st := enter (mkProgress [] []) FileAbsent 0 [] in
  (noForeignBins fs /\ isJsonFile "zzab.json" = true /\ binOf "zzab.json" = "zz"
   /\ binOf "zzab.json" ∉ binPrefixes)
  /\ success (processFile (env_fs (withBins env)) "zzab.json") = false
  /\ errors (handleResult (withBins env) st (processFile (env_fs (withBins env)) "zzab.json"))
     = 1.
Proof.
  intros fs env st.
  assert (Hfs : noForeignBins fs).
  { intros name Hin. apply list_elem_of_singleton in Hin. discriminate Hin. }
  assert (Hbin : binOf "zzab.json" ∉ binPrefixes).
  { apply (proj1 (bool_decide_eq_false _)). vm_compute. reflexivity. }
  pose proof (unknown_bin_item_fails env st "zzab.json" Hfs eq_refl Hbin
                ltac:(vm_compute; discriminate) ltac:(vm_compute; discriminate)
                ltac:(vm_compute; discriminate)) as H.
  split; [repeat split; [exact Hfs|exact Hbin]|].
  split; [exact (proj1 H)|exact (proj1 (proj2 (proj2 (proj2 H))))].
Defined.

(** C10 as stated fails for the file ["..json"]: its identifier ["."] is
    shorter than two characters and its label is none of the 256 prefixes,
    yet [path.join] resolves the target directory to
    [partitioned_extensions] itself, which exists, so the copy is made and
    the file enters the completed set. *)
Lemma dot_named_item_is_copied :
  let fs := mkFs [["extension-dir"; "..json"]] [["extension-dir"]] (fun _ _ => None) in
  let env := mkEnv fs 3 (fun _ => Completes) (fun _ => true) (fun _ => 0%Z) in
  noForeignBins fs
  /\ isJsonFile "..json" = true
  /\ extensionId "..json" = "."
  /\ String.length (extensionId "..json") < 2
  /\ (binOf "..json" ∉ binPrefixes)
  /\ join targetBaseDir (binOf "..json") = targetBaseDir
  /\ processFile (env_fs (withBins env)) "..json" = mkResult "..json" true (Some ".") None
  /\ match main env FileAbsent with
     | Completed st => processedFiles (progress st) = ["..json"] /\ errors st = 0
     | _ => False
     end.
Proof.
  intros fs env.
  split. { intros name Hin. apply list_elem_of_singleton in Hin. discriminate Hin. }
  split; [reflexivity|].
  split; [reflexivity|].
  split; [vm_compute; lia|].
  split. { apply (proj1 (bool_decide_eq_false _)). vm_compute. reflexivity. }
  split; [reflexivity|].
  split; [vm_compute; reflexivity|].
  vm_compute. split; reflexivity.
Qed.

(** *** The batches of a run cover the files to process, in order *)

Lemma chunks_concat (B : nat) (l : list string) (m : nat) :
  List.concat (List.map (fun j => take B (drop (j * B) l)) (List.seq 0 m)) = take (m * B) l.
Proof.
  induction m as [|m IH]; [reflexivity|].
  rewrite List.seq_S, List.map_app, List.concat_app, IH. simpl.
  rewrite List.app_nil_r. rewrite take_take_drop. f_equal. lia.
Qed.

Lemma slice_batch (l : list string) (a B : nat) :
  slice l a (Nat.min (a + B) (List.length l)) = take B (drop a l).
Proof.
  unfold slice. destruct (Nat.le_gt_cases (a + B) (List.length l)) as [H|H].
  - rewrite Nat.min_l by exact H. f_equal. lia.
  - rewrite Nat.min_r by lia.
    rewrite !take_ge; [reflexivity| |]; rewrite length_drop; lia.
Qed.

Lemma concat_map_filter {A : Type} (h : A -> list string) (P : A -> bool) (ws : list A) :
  (forall w, P w = false -> h w = []) ->
  List.concat (List.map h (List.filter P ws)) = List.concat (List.map h ws).
Proof.
  intros H. induction ws as [|w ws IH]; simpl; [reflexivity|].
  destruct (P w) eqn:E; simpl; rewrite IH; [reflexivity|].
  now rewrite (H w E).
Qed.

Lemma MAX_WORKERS_pos (env : Env) : 1 <= MAX_WORKERS env.
Proof. unfold MAX_WORKERS. lia. Qed.

Lemma roundBatches_concat (env : Env) (files : list string) (i : nat) :
  List.concat (List.map snd (roundBatches env files i)) = roundItems env files i.
Proof.
  unfold roundBatches, roundItems. rewrite List.map_map. simpl.
  rewrite (List.map_ext _ (fun w => take BATCH_SIZE (drop (i + w * BATCH_SIZE) files)))
    by (intros w; apply slice_batch).
  rewrite (concat_map_filter (fun w => take BATCH_SIZE (drop (i + w * BATCH_SIZE) files))).
  2:{ intros w Hw. apply Nat.ltb_ge in Hw. rewrite drop_ge by exact Hw. apply take_nil. }
  rewrite (List.map_ext _ (fun w => take BATCH_SIZE (drop (w * BATCH_SIZE) (drop i files))))
    by (intros w; now rewrite drop_drop).
  rewrite chunks_concat. unfold slice. f_equal. unfold BATCH_SIZE. lia.
Qed.

Lemma roundStarts_cover (env : Env) (n : nat) :
  n <= List.length (roundStarts env n) * (BATCH_SIZE * MAX_WORKERS env).
Proof.
  unfold roundStarts. rewrite length_map, length_seq.
  pose proof (MAX_WORKERS_pos env) as Hw.
  set (S := BATCH_SIZE * MAX_WORKERS env).
  assert (HS : 0 < S) by (unfold S, BATCH_SIZE; lia).
  pose proof (Nat.div_mod_eq (n + S - 1) S) as Hd.
  pose proof (Nat.mod_upper_bound (n + S - 1) S ltac:(lia)) as Hm.
  nia.
Qed.

Lemma rounds_concat (env : Env) (files : list string) :
  List.concat (List.map (roundItems env files) (roundStarts env (List.length files))) = files.
Proof.
  pose proof (roundStarts_cover env (List.length files)) as Hc.
  unfold roundStarts in *. rewrite length_map, length_seq in Hc.
  rewrite List.map_map.
  set (S := BATCH_SIZE * MAX_WORKERS env) in *.
  rewrite (List.map_ext _ (fun k => take S (drop (k * S) files))).
  2:{ intros k. unfold roundItems, slice. fold S. f_equal. lia. }
  rewrite chunks_concat. now apply take_ge.
Qed.

(** The files a worker's steps handle: its batch when it completes, none
    otherwise. *)
Lemma workerSteps_handled (env : Env) (startIdx : nat) (fileBatch : list string) :
  handledFiles (fst (workerSteps env startIdx fileBatch))
  = match env_fate env startIdx with Completes => fileBatch | _ => [] end.
Proof.
  rewrite workerSteps_by_fate. destruct (env_fate env startIdx); try reflexivity.
  simpl. unfold handledFiles. rewrite List.flat_map_app. simpl. rewrite List.app_nil_r.
  induction fileBatch as [|f fs IH]; simpl; [reflexivity|].
  now rewrite file_processFile, IH.
Qed.

Lemma handledFiles_app (a b : list Step) :
  handledFiles (a ++ b) = handledFiles a ++ handledFiles b.
Proof. apply List.flat_map_app. Qed.

Lemma handledFiles_concat (ls : list (list Step)) :
  handledFiles (List.concat ls) = List.concat (List.map handledFiles ls).
Proof.
  induction ls as [|l ls IH]; simpl; [reflexivity|].
  now rewrite handledFiles_app, IH.
Qed.

Lemma roundSteps_handled (env : Env) (files : list string) (i : nat) :
  handledFiles (roundSteps env files i)
  = List.concat
      (List.map (fun b => match env_fate env (fst b) with Completes => snd b | _ => [] end)
         (roundBatches env files i)).
Proof.
  unfold roundSteps. rewrite handledFiles_app, handledFiles_concat.
  replace (handledFiles [if allResolved _ then StRoundSave else StRoundError]) with (@nil string)
    by (destruct (allResolved _); reflexivity).
  rewrite List.app_nil_r, !List.map_map. f_equal.
  apply List.map_ext. intros b. apply workerSteps_handled.
Qed.

Lemma concat_sublist (g h : nat * list string -> list string) (bs : list (nat * list string)) :
  (forall b, g b `sublist_of` h b) ->
  List.concat (List.map g bs) `sublist_of` List.concat (List.map h bs).
Proof.
  intros H. induction bs as [|b bs IH]; simpl; [constructor|].
  now apply sublist_app.
Qed.

Lemma roundSteps_handled_sublist (env : Env) (files : list string) (i : nat) :
  handledFiles (roundSteps env files i) `sublist_of` roundItems env files i.
Proof.
  rewrite roundSteps_handled, <- roundBatches_concat.
  apply concat_sublist. intros b.
  destruct (env_fate env (fst b)); [reflexivity| | |]; apply sublist_nil_l.
Qed.

Lemma rounds_handled_sublist (env : Env) (files : list string) (rounds : list nat) :
  handledFiles (List.flat_map (roundSteps env files) rounds)
  `sublist_of` List.concat (List.map (roundItems env files) rounds).
Proof.
  induction rounds as [|i rounds IH]; simpl; [constructor|].
  rewrite handledFiles_app. apply sublist_app; [apply roundSteps_handled_sublist|exact IH].
Qed.

Lemma runSteps_handled_sublist (env : Env) (files : list string) :
  handledFiles (runSteps env files) `sublist_of` files.
Proof.
  unfold runSteps. rewrite handledFiles_app. simpl. rewrite List.app_nil_r.
  pose proof (rounds_handled_sublist env files (roundStarts env (List.length files))) as H.
  now rewrite rounds_concat in H.
Qed.

(** When every worker completes, the results handled are those of the files
    to process, each once and in order. *)
Lemma rounds_handled_all (env : Env) (files : list string) (rounds : list nat) :
  (forall startIdx, env_fate env startIdx = Completes) ->
  handledFiles (List.flat_map (roundSteps env files) rounds)
  = List.concat (List.map (roundItems env files) rounds).
Proof.
  intros Hc. induction rounds as [|i rounds IH]; simpl; [reflexivity|].
  rewrite handledFiles_app, IH. f_equal.
  rewrite roundSteps_handled, <- roundBatches_concat. f_equal.
  apply List.map_ext. intros b. now rewrite Hc.
Qed.

Lemma runSteps_handled_all (env : Env) (files : list string) :
  (forall startIdx, env_fate env startIdx = Completes) ->
  handledFiles (runSteps env files) = files.
Proof.
  intros Hc. unfold runSteps. rewrite handledFiles_app. simpl. rewrite List.app_nil_r.
  rewrite (rounds_handled_all env files _ Hc). apply rounds_concat.
Qed.

(** *** Work that the checkpoint lacks *)

Lemma lostWork_nil_iff (st : State) :
  lostWork st = [] <-> processedFiles (progress st) ⊆ checkpointNames (disk st).
Proof.
  unfold lostWork. split.
  - intros H x Hx. destruct (decide (x ∈ checkpointNames (disk st))) as [Hd|Hd]; [exact Hd|].
    assert (Hin : In x (List.filter
                         (fun f => negb (bool_decide (f ∈ checkpointNames (disk st))))
                         (processedFiles (progress st)))).
    { apply List.filter_In. split; [now apply list_elem_of_In|].
      now rewrite bool_decide_eq_false_2. }
    rewrite H in Hin. destruct Hin.
  - intros H. induction (processedFiles (progress st)) as [|x l IH]; [reflexivity|].
    simpl. rewrite bool_decide_eq_true_2 by (apply H; left). simpl.
    apply IH. intros y Hy. apply H. now right.
Qed.

Lemma roundItems_length (env : Env) (files : list string) (i : nat) :
  List.length (roundItems env files i) <= BATCH_SIZE * MAX_WORKERS env.
Proof. unfold roundItems, slice. rewrite length_take. lia. Qed.

End PartitionProofs.

(** ** Properties of drive-upload.js *)
Module UploadProofs.
Import Fs Upload.

Lemma count_insert (P : Call -> bool) (l : list Call) (i : nat) (x y : Call) :
  l !! i = Some x ->
  List.length (List.filter P (<[i := y]> l)) + (if P x then 1 else 0)
  = List.length (List.filter P l) + (if P y then 1 else 0).
Proof.
  revert i. induction l as [|a l IH]; intros i H; [discriminate|].
  destruct i as [|i]; simpl in *.
  - injection H as ->. destruct (P x), (P y); simpl; lia.
  - specialize (IH i H). destruct (P a); simpl; lia.
Qed.

Lemma map_update_insert (l : list Call) (i : nat) (u : Update) (p q : Pc) :
  l !! i = Some (mkCall u p) ->
  List.map update (<[i := mkCall u q]> l) = List.map update l.
Proof.
  revert i. induction l as [|a l IH]; intros i H; [discriminate|].
  destruct i as [|i]; simpl in *.
  - injection H as ->. reflexivity.
  - f_equal. now apply IH.
Qed.

(** The invariant of the flag: it is set exactly while one call is between
    its update and its release, and the counters are those of the updates
    applied so far. *)
Record Consistent (sh0 sh : Shared) (calls : list Call) : Prop := mkConsistent {
  c_holders : List.length (holders calls) = if mutex sh then 1 else 0;
  c_uploaded : uploaded sh = uploaded sh0 + appliedCompleted calls;
  c_failed : failed sh = failed sh0 + appliedFailures calls;
  c_total : total sh = total sh0;
  c_recorded : Forall (recorded sh) calls;
  c_grows : completedFiles sh0 `prefix_of` completedFiles sh }.

Lemma consistent_start (sh0 : Shared) (updates : list Update) :
  mutex sh0 = false -> Consistent sh0 sh0 (start updates).
Proof.
  intros Hm. unfold start.
  assert (Hh : forall P, (forall c, P c = true -> hasApplied c = true) ->
               List.filter P (List.map (fun u => mkCall u AtLoop) updates) = []).
  { intros P HP. induction updates as [|u us IH]; simpl; [reflexivity|].
    destruct (P (mkCall u AtLoop)) eqn:E; [|exact IH].
    apply HP in E. discriminate. }
  constructor.
  - rewrite Hm. unfold holders. rewrite Hh; [reflexivity|].
    intros [u []] E; unfold isHolder, hasApplied in *; simpl in *; congruence.
  - unfold appliedCompleted. rewrite Hh; [simpl; lia|].
    intros c Hc. now apply andb_true_iff in Hc.
  - unfold appliedFailures. rewrite Hh; [simpl; lia|].
    intros c Hc. now apply andb_true_iff in Hc.
  - reflexivity.
  - apply Forall_forall. intros c Hc.
    apply list_elem_of_In, List.in_map_iff in Hc. destruct Hc as [u [<- _]]. exact I.
  - reflexivity.
Qed.

Lemma completedFiles_applyUpdate (u : Update) (sh : Shared) :
  completedFiles sh `prefix_of` completedFiles (applyUpdate u sh).
Proof.
  destruct u as [f|]; simpl; [|reflexivity].
  destruct (bool_decide _); [reflexivity|]. now apply prefix_app_r.
Qed.

Lemma recorded_mono (sh sh' : Shared) (c : Call) :
  completedFiles sh `prefix_of` completedFiles sh' -> recorded sh c -> recorded sh' c.
Proof.
  intros [k Hk] H. unfold recorded in *.
  destruct (pc c), (update c); auto; rewrite Hk; apply elem_of_app; now left.
Qed.

Lemma consistent_turn (sh0 sh : Shared) (calls : list Call) (i : nat) :
  Consistent sh0 sh calls ->
  Consistent sh0 (fst (turn i (sh, calls))) (snd (turn i (sh, calls))).
Proof.
  intros [Hh Hu Hf Ht Hr Hg]. unfold turn.
  destruct (calls !! i) as [[u p]|] eqn:Hi; [|now constructor].
  destruct p.
  - destruct (mutex sh) eqn:Hm; [constructor; simpl; rewrite ?Hm; auto|].
    pose proof (count_insert isHolder calls i _ (mkCall u InUpdate) Hi) as C1.
    pose proof (count_insert (fun c => hasApplied c && isMarkCompleted (update c))
                  calls i _ (mkCall u InUpdate) Hi) as C2.
    pose proof (count_insert (fun c => hasApplied c && negb (isMarkCompleted (update c)))
                  calls i _ (mkCall u InUpdate) Hi) as C3.
    simpl in C1, C2, C3.
    assert (Hp : completedFiles sh `prefix_of`
                 completedFiles (applyUpdate u (setMutex true sh)))
      by apply (completedFiles_applyUpdate u (setMutex true sh)).
    constructor; simpl.
    + unfold holders in *. destruct u; simpl; clear - C1 Hh; lia.
    + unfold appliedCompleted in *. destruct u; simpl in *; clear - C2 Hu; lia.
    + unfold appliedFailures in *. destruct u; simpl in *; clear - C3 Hf; lia.
    + destruct u; simpl; exact Ht.
    + apply Forall_insert.
      * eapply Forall_impl; [exact Hr|]. intros c. now apply recorded_mono.
      * unfold recorded. simpl. destruct u as [f|]; [|exact I]. simpl.
        destruct (bool_decide (f ∈ completedFiles sh)) eqn:E.
        -- now apply bool_decide_eq_true in E.
        -- apply elem_of_app. right. apply list_elem_of_singleton. reflexivity.
    + etransitivity; [exact Hg|exact Hp].
  - pose proof (count_insert isHolder calls i _ (mkCall u Released) Hi) as C1.
    pose proof (count_insert (fun c => hasApplied c && isMarkCompleted (update c))
                  calls i _ (mkCall u Released) Hi) as C2.
    pose proof (count_insert (fun c => hasApplied c && negb (isMarkCompleted (update c)))
                  calls i _ (mkCall u Released) Hi) as C3.
    simpl in C1, C2, C3.
    constructor; simpl.
    + unfold holders in *. destruct (mutex sh); clear - C1 Hh; lia.
    + unfold appliedCompleted in *. clear - C2 Hu. destruct (isMarkCompleted u); simpl in *; lia.
    + unfold appliedFailures in *. clear - C3 Hf. destruct (isMarkCompleted u); simpl in *; lia.
    + exact Ht.
    + apply Forall_insert.
      * exact Hr.
      * rewrite Forall_forall in Hr.
        specialize (Hr _ (list_elem_of_lookup_2 _ _ _ Hi)).
        unfold recorded in *. simpl in *. exact Hr.
    + exact Hg.
  - now constructor.
Qed.

Lemma consistent_run (sh0 : Shared) (schedule : list nat) (sh : Shared) (calls : list Call) :
  Consistent sh0 sh calls ->
  Consistent sh0 (fst (runSchedule schedule (sh, calls)))
    (snd (runSchedule schedule (sh, calls))).
Proof.
  revert sh calls. induction schedule as [|i schedule IH]; intros sh calls H.
  - exact H.
  - change (runSchedule (i :: schedule) (sh, calls))
      with (runSchedule schedule (turn i (sh, calls))).
    pose proof (consistent_turn sh0 sh calls i H) as H1.
    destruct (turn i (sh, calls)) as [sh1 calls1]. now apply IH.
Qed.

Lemma updates_turn (i : nat) (sh : Shared) (calls : list Call) :
  List.map update (snd (turn i (sh, calls))) = List.map update calls.
Proof.
  unfold turn. destruct (calls !! i) as [[u p]|] eqn:Hi; [|reflexivity].
  destruct p; simpl.
  - destruct (mutex sh); simpl; [reflexivity|]. now apply map_update_insert with AtLoop.
  - now apply map_update_insert with InUpdate.
  - reflexivity.
Qed.

Lemma updates_run (schedule : list nat) (s : Shared * list Call) :
  List.map update (snd (runSchedule schedule s)) = List.map update (snd s).
Proof.
  revert s. induction schedule as [|i schedule IH]; intros [sh calls]; [reflexivity|].
  change (runSchedule (i :: schedule) (sh, calls))
    with (runSchedule schedule (turn i (sh, calls))).
  rewrite IH. apply updates_turn.
Qed.

(** Once every call has released the flag, the applied updates are all the
    updates. *)
Lemma applied_all (P : Update -> bool) (calls : list Call) :
  Forall (fun c => pc c = Released) calls ->
  List.length (List.filter (fun c => hasApplied c && P (update c)) calls)
  = List.length (List.filter P (List.map update calls)).
Proof.
  induction 1 as [|c calls Hc _ IH]; simpl; [reflexivity|].
  unfold hasApplied at 1. rewrite Hc. simpl.
  destruct (P (update c)); simpl; now rewrite IH.
Qed.

Lemma released_no_holder (calls : list Call) :
  Forall (fun c => pc c = Released) calls -> holders calls = [].
Proof.
  induction 1 as [|c calls Hc _ IH]; simpl; [reflexivity|].
  unfold isHolder at 1. now rewrite Hc.
Qed.

(** While the flag is set, a call at the test of the loop stays there. *)
Lemma waiting_turn (sh : Shared) (calls : list Call) (j : nat) (u : Update) :
  mutex sh = true -> calls !! j = Some (mkCall u AtLoop) ->
  turn j (sh, calls) = (sh, calls).
Proof. intros Hm Hj. unfold turn. now rewrite Hj, Hm. Qed.

Lemma holder_exists (calls : list Call) :
  holders calls <> [] -> exists j u, calls !! j = Some (mkCall u InUpdate).
Proof.
  induction calls as [|[u p] calls IH]; simpl; [congruence|].
  unfold isHolder at 1. simpl. destruct p.
  - intros H. destruct (IH H) as (j & v & Hj). now exists (S j), v.
  - intros _. now exists 0, u.
  - intros H. destruct (IH H) as (j & v & Hj). now exists (S j), v.
Qed.

Lemma no_holder_pc (calls : list Call) (c : Call) :
  holders calls = [] -> c ∈ calls -> pc c <> InUpdate.
Proof.
  intros Hh Hc Hp.
  assert (Hin : c ∈ holders calls).
  { unfold holders. apply list_elem_of_In, List.filter_In. split.
    - now apply list_elem_of_In.
    - unfold isHolder. now rewrite Hp. }
  rewrite Hh in Hin. now apply elem_of_nil in Hin.
Qed.

(** As long as a call has not released the flag, some call can move. *)
Lemma some_call_moves (sh0 sh : Shared) (calls : list Call) :
  Consistent sh0 sh calls ->
  (exists c, c ∈ calls /\ pc c <> Released) ->
  exists j, turn j (sh, calls) <> (sh, calls).
Proof.
  intros HC (c & Hc & Hp). pose proof (c_holders _ _ _ HC) as Hh.
  destruct (mutex sh) eqn:Hm.
  - destruct (holder_exists calls) as (j & u & Hj).
    { intros E. rewrite E in Hh. discriminate. }
    exists j. unfold turn. rewrite Hj. intros E.
    injection E as E _. apply (f_equal mutex) in E. simpl in E. congruence.
  - assert (Hnil : holders calls = []) by now apply length_zero_iff_nil.
    pose proof (no_holder_pc calls c Hnil Hc) as Hn.
    apply list_elem_of_lookup in Hc. destruct Hc as [j Hj].
    exists j. unfold turn. rewrite Hj, Hm. destruct c as [u []]; simpl in *; try congruence.
    intros E. injection E as E _. apply (f_equal mutex) in E.
    destruct u; simpl in E; congruence.
Qed.

Lemma turn_acquire (sh : Shared) (calls : list Call) (i : nat) (u : Update) :
  calls !! i = Some (mkCall u AtLoop) -> mutex sh = false ->
  turn i (sh, calls) = (applyUpdate u (setMutex true sh), <[i := mkCall u InUpdate]> calls).
Proof. intros Hi Hm. unfold turn. now rewrite Hi, Hm. Qed.

Lemma turn_release (sh : Shared) (calls : list Call) (i : nat) (u : Update) :
  calls !! i = Some (mkCall u InUpdate) ->
  turn i (sh, calls) = (setMutex false sh, <[i := mkCall u Released]> calls).
Proof. intros Hi. unfold turn. now rewrite Hi. Qed.

(** Calls served one after the other all come to their release. *)
Lemma inOrder_releases (pending : list Update) :
  forall (done : list Call) (sh : Shared),
    mutex sh = false ->
    Forall (fun c => pc c = Released) done ->
    Forall (fun c => pc c = Released)
      (snd (runSchedule
              (List.flat_map (fun i => [i; i])
                 (List.seq (List.length done) (List.length pending)))
              (sh, done ++ start pending))).
Proof.
  induction pending as [|u pending IH]; intros done sh Hm Hd.
  - simpl. now rewrite List.app_nil_r.
  - change (List.flat_map (fun i => [i; i])
              (List.seq (List.length done) (List.length (u :: pending))))
      with ([List.length done; List.length done]
            ++ List.flat_map (fun i => [i; i])
                 (List.seq (S (List.length done)) (List.length pending))).
    unfold runSchedule. rewrite List.fold_left_app.
    change (List.fold_left (fun s i => turn i s) [length done; length done]
              (sh, done ++ start (u :: pending)))
      with (turn (length done) (turn (length done)
              (sh, done ++ mkCall u AtLoop :: start pending))).
    fold (runSchedule (List.flat_map (fun i => [i; i])
                         (List.seq (S (List.length done)) (List.length pending)))).
    rewrite (turn_acquire sh _ _ u) by (try apply list_lookup_middle; auto).
    rewrite (turn_release _ _ _ u)
      by (apply list_lookup_insert_eq; rewrite length_app; simpl; lia).
    rewrite list_insert_insert_eq.
    replace (<[length done := mkCall u Released]> (done ++ mkCall u AtLoop :: start pending))
      with ((done ++ [mkCall u Released]) ++ start pending).
    2:{ rewrite insert_app_r_alt by lia. rewrite Nat.sub_diag. simpl.
        now rewrite <- List.app_assoc. }
    replace (S (length done)) with (length (done ++ [mkCall u Released]))
      by (rewrite length_app; simpl; lia).
    apply IH.
    + destruct u; reflexivity.
    + apply Forall_app. split; [exact Hd|]. now repeat constructor.
Qed.

(** C1. Under every interleaving of the calls of [updateProgressAtomic] on
    a progress object whose flag is clear, at most one call is between its
    update and its release and the flag is set exactly then; meanwhile a
    call at the test of the loop stays where it is; the counters are those
    of the initial object plus one per update applied, and the file of
    every applied completion is in [completedFiles], so that no update is
    lost or half applied; once all calls have released, the counters count
    every update; as long as a call has not released, some call can move,
    and serving the calls in order brings all of them to their release. *)
Theorem updateProgressAtomic_mutual_exclusion
    (sh0 : Shared) (updates : list Update) (schedule : list nat) :
  mutex sh0 = false ->
  let s := runSchedule schedule (sh0, start updates) in
  List.length (holders (snd s)) <= 1
  /\ (mutex (fst s) = true <-> List.length (holders (snd s)) = 1)
  /\ (forall j u, mutex (fst s) = true -> snd s !! j = Some (mkCall u AtLoop) ->
                  turn j s = s)
  /\ uploaded (fst s) = uploaded sh0 + appliedCompleted (snd s)
  /\ failed (fst s) = failed sh0 + appliedFailures (snd s)
  /\ Forall (recorded (fst s)) (snd s)
  /\ (Forall (fun c => pc c = Released) (snd s) ->
      mutex (fst s) = false
      /\ uploaded (fst s)
         = uploaded sh0 + List.length (List.filter isMarkCompleted updates)
      /\ failed (fst s)
         = failed sh0
           + List.length (List.filter (fun u => negb (isMarkCompleted u)) updates))
  /\ ((exists c, c ∈ snd s /\ pc c <> Released) -> exists j, turn j s <> s)
  /\ Forall (fun c => pc c = Released)
       (snd (runSchedule (inOrder (List.length updates)) (sh0, start updates))).
Proof.
  intros Hm s.
  pose proof (consistent_run sh0 schedule sh0 (start updates)
                (consistent_start sh0 updates Hm)) as HC.
  fold s in HC.
  assert (Hupd : List.map update (snd s) = updates).
  { unfold s. rewrite updates_run. simpl. unfold start. rewrite List.map_map. simpl.
    apply List.map_id. }
  destruct s as [sh calls] eqn:Es. simpl in *.
  pose proof (c_holders _ _ _ HC) as Hh.
  repeat split.
  - rewrite Hh. destruct (mutex sh); lia.
  - intros E. now rewrite Hh, E.
  - intros E. rewrite Hh in E. destruct (mutex sh); [reflexivity|discriminate].
  - intros j u E Hj. now apply waiting_turn with u.
  - apply (c_uploaded _ _ _ HC).
  - apply (c_failed _ _ _ HC).
  - apply (c_recorded _ _ _ HC).
  - rewrite (released_no_holder calls H) in Hh. simpl in Hh.
    destruct (mutex sh); [discriminate|reflexivity].
  - rewrite (c_uploaded _ _ _ HC). unfold appliedCompleted.
    now rewrite (applied_all isMarkCompleted calls H), Hupd.
  - rewrite (c_failed _ _ _ HC). unfold appliedFailures.
    now rewrite (applied_all (fun u => negb (isMarkCompleted u)) calls H), Hupd.
  - intros Hex. now apply some_call_moves with sh0.
  - apply (inOrder_releases updates [] sh0 Hm). constructor.
Qed.

(** Two uploads that finish and one that fails, the second acquiring the
    flag first. *)
Lemma updateProgressAtomic_mutual_exclusion_witness :
  let sh0 := mkShared 0 0 3 ["old.json"] false in
  let updates := [MarkCompleted "a.json"; CountFailure; MarkCompleted "b.json"] in
  let s := runSchedule [1; 0; 2; 1; 0; 0; 2; 2] (sh0, start updates) in
  mutex sh0 = false
  /\ List.length (holders (snd s)) <= 1
  /\ uploaded (fst s) = uploaded sh0 + appliedCompleted (snd s)
  /\ fst s = mkShared 2 1 3 ["old.json"; "a.json"; "b.json"] false.
Proof.
  intros sh0 updates s.
  pose proof (updateProgressAtomic_mutual_exclusion sh0 updates
                [1; 0; 2; 1; 0; 0; 2; 2] eq_refl) as H.
  split; [reflexivity|].
  split; [exact (proj1 H)|].
  split; [exact (proj1 (proj2 (proj2 (proj2 H))))|].
  vm_compute. reflexivity.
Defined.

(** *** The completed set and the checkpoint of drive-upload.js *)

Lemma completedFiles_turn (i : nat) (s : Shared * list Call) :
  completedFiles (fst s) `prefix_of` completedFiles (fst (turn i s)).
Proof.
  destruct s as [sh calls]. unfold turn.
  destruct (calls !! i) as [[u []]|]; simpl; try reflexivity.
  destruct (mutex sh); simpl; [reflexivity|].
  apply (completedFiles_applyUpdate u (setMutex true sh)).
Qed.

Lemma completedFiles_runSchedule (schedule : list nat) (s : Shared * list Call) :
  completedFiles (fst s) `prefix_of` completedFiles (fst (runSchedule schedule s)).
Proof.
  revert s. induction schedule as [|i schedule IH]; intros s; [reflexivity|].
  change (runSchedule (i :: schedule) s) with (runSchedule schedule (turn i s)).
  etransitivity; [apply completedFiles_turn|apply IH].
Qed.

Lemma applyUpdate_present (f : string) (sh : Shared) :
  f ∈ completedFiles sh ->
  completedFiles (applyUpdate (MarkCompleted f) sh) = completedFiles sh.
Proof. intros H. simpl. now rewrite bool_decide_eq_true_2. Qed.

Lemma checkpointNames_saved (names : list string) :
  checkpointNames
    (FileJson (Json.JObj [("completedFiles", Json.JArr (List.map Json.JStr names))]))
  = names.
Proof. unfold checkpointNames. simpl. now rewrite JsonFacts.strings_JStr. Qed.

Definition checkpointWithinMemory (st : State) : Prop :=
  checkpointNames (disk st) ⊆ completedFiles (shared st).

Lemma prefix_subseteq (l k : list string) : l `prefix_of` k -> l ⊆ k.
Proof. intros [m ->] x Hx. apply elem_of_app. now left. Qed.

Lemma saveProgress_checkpoint (env : Env) (st : State) :
  checkpointWithinMemory st ->
  checkpointWithinMemory (saveProgress env st)
  /\ checkpointNames (disk st) ⊆ checkpointNames (disk (saveProgress env st))
  /\ shared (saveProgress env st) = shared st.
Proof.
  unfold checkpointWithinMemory, saveProgress. intros H.
  destruct (env_write_ok _ _); simpl; [|auto].
  rewrite checkpointNames_saved. auto.
Qed.

Lemma runBatch_checkpoint (env : Env) (st : State) (batch : list string) :
  checkpointWithinMemory st ->
  checkpointWithinMemory (runBatch env st batch)
  /\ disk (runBatch env st batch) = disk st
  /\ completedFiles (shared st) `prefix_of` completedFiles (shared (runBatch env st batch)).
Proof.
  unfold checkpointWithinMemory. intros H.
  pose proof (completedFiles_runSchedule (inOrder (List.length batch))
                (shared st, callsOf env batch)) as Hp.
  simpl in *. repeat split; auto.
  etransitivity; [exact H|]. now apply prefix_subseteq.
Qed.

Lemma uploadLoop_checkpoint (env : Env) (batches : list (list string)) :
  forall (st : State) (started : list (list string)),
    checkpointWithinMemory st ->
    let st' := fst (fst (uploadLoop env batches st started)) in
    checkpointWithinMemory st'
    /\ checkpointNames (disk st) ⊆ checkpointNames (disk st')
    /\ completedFiles (shared st) `prefix_of` completedFiles (shared st').
Proof.
  induction batches as [|batch rest IH]; intros st started H.
  - simpl. repeat split; [exact H|reflexivity|reflexivity].
  - destruct (runBatch_checkpoint env st batch H) as (H1 & H2 & H3).
    cbn [uploadLoop]. destruct (batchRejects env batch).
    + unfold checkpointWithinMemory in *. cbn [fst disk shared].
      repeat split; [exact H1|now rewrite H2|exact H3].
    + destruct (saveProgress_checkpoint env _ H1) as (H4 & H5 & H6).
      destruct (IH (saveProgress env (runBatch env st batch)) (started ++ [batch]) H4)
        as (H7 & H8 & H9).
      repeat split; [exact H7| |].
      * etransitivity; [|exact H8]. rewrite <- H2. exact H5.
      * etransitivity; [exact H3|]. rewrite <- H6. exact H9.
Qed.

(** A run of the upload script starts from the names of the checkpoint and
    ends with a checkpoint that holds them all. *)
Lemma upload_run_checkpoint (env : Env) (allFiles : list string) (disk0 : CheckpointFile) :
  match uploadDirectoryWithTransferManager env allFiles disk0 with
  | Some (st, _, _) =>
    checkpointNames disk0 ⊆ checkpointNames (disk st)
    /\ checkpointNames (disk st) ⊆ completedFiles (shared st)
  | None => True
  end.
Proof.
  unfold uploadDirectoryWithTransferManager.
  destruct (loadCompleted disk0) as [[completed|v] c] eqn:El; [|exact I].
  set (st0 := mkState _ disk0 0 c).
  assert (H0 : checkpointWithinMemory st0).
  { unfold checkpointWithinMemory, checkpointNames. subst st0. simpl.
    rewrite El. reflexivity. }
  pose proof (uploadLoop_checkpoint env (batchesOf (filesToUploadOf allFiles completed))
                st0 [] H0) as H.
  destruct (uploadLoop _ _ _ _) as [[st started] fin]. simpl in H.
  destruct H as (H1 & H2 & _). split; [exact H2|exact H1].
Qed.

(** *** Failed uploads *)

(** The completions among the calls are of files whose upload succeeded. *)
Definition okCall (env : Env) (c : Call) : Prop :=
  match update c with
  | MarkCompleted f => env_upload_ok env f = true
  | CountFailure => True
  end.

Lemma okCall_callsOf (env : Env) (batch : list string) : Forall (okCall env) (callsOf env batch).
Proof.
  apply Forall_forall. intros c Hc.
  apply list_elem_of_In, List.in_map_iff in Hc. destruct Hc as [f [<- _]].
  unfold okCall. simpl. destruct (env_upload_ok env f) eqn:E; [exact E|exact I].
Qed.

Lemma turn_only_ok_added (env : Env) (i : nat) (sh : Shared) (calls : list Call) :
  Forall (okCall env) calls ->
  Forall (okCall env) (snd (turn i (sh, calls)))
  /\ forall x, x ∈ completedFiles (fst (turn i (sh, calls))) ->
               x ∈ completedFiles sh \/ env_upload_ok env x = true.
Proof.
  intros H. unfold turn.
  destruct (calls !! i) as [[u p]|] eqn:Hi; [|split; [exact H|now left]].
  assert (Hu : okCall env (mkCall u p)).
  { rewrite Forall_forall in H. apply H. eapply list_elem_of_lookup_2; eauto. }
  destruct p; simpl.
  - destruct (mutex sh); simpl; [split; [exact H|now left]|].
    split; [apply Forall_insert; [exact H|exact Hu]|].
    intros x Hx. destruct u as [f|]; simpl in Hx; [|now left].
    destruct (bool_decide _); [now left|].
    apply elem_of_app in Hx. destruct Hx as [Hx|Hx]; [now left|].
    apply list_elem_of_singleton in Hx. subst x. right. exact Hu.
  - split; [apply Forall_insert; [exact H|exact Hu]|]. now left.
  - split; [exact H|now left].
Qed.

Lemma run_only_ok_added (env : Env) (schedule : list nat) :
  forall (sh : Shared) (calls : list Call),
    Forall (okCall env) calls ->
    forall x, x ∈ completedFiles (fst (runSchedule schedule (sh, calls))) ->
              x ∈ completedFiles sh \/ env_upload_ok env x = true.
Proof.
  induction schedule as [|i schedule IH]; intros sh calls H x Hx; [now left|].
  change (runSchedule (i :: schedule) (sh, calls))
    with (runSchedule schedule (turn i (sh, calls))) in Hx.
  destruct (turn_only_ok_added env i sh calls H) as [H1 H2].
  destruct (turn i (sh, calls)) as [sh1 calls1]. simpl in *.
  destruct (IH sh1 calls1 H1 x Hx) as [Hy|Hy]; [now apply H2|now right].
Qed.

Lemma uploadLoop_failed_not_added (env : Env) (f : string) (batches : list (list string)) :
  forall (st : State) (started : list (list string)),
    env_upload_ok env f = false ->
    f ∉ completedFiles (shared st) ->
    f ∉ completedFiles (shared (fst (fst (uploadLoop env batches st started)))).
Proof.
  induction batches as [|batch rest IH]; intros st started Hf Hn; [exact Hn|].
  assert (H1 : f ∉ completedFiles (shared (runBatch env st batch))).
  { intros Hin. simpl in Hin.
    destruct (run_only_ok_added env _ _ _ (okCall_callsOf env batch) f Hin); congruence. }
  cbn [uploadLoop]. destruct (batchRejects env batch); [exact H1|].
  apply IH; [exact Hf|].
  unfold saveProgress. destruct (env_write_ok _ _); exact H1.
Qed.

Lemma batchesOf_concat (files : list string) : List.concat (batchesOf files) = files.
Proof.
  unfold batchesOf. rewrite PartitionProofs.chunks_concat. apply take_ge.
  unfold MAX_CONCURRENT_UPLOADS.
  pose proof (Nat.div_mod_eq (List.length files + 30 - 1) 30) as Hd.
  pose proof (Nat.mod_upper_bound (List.length files + 30 - 1) 30 ltac:(lia)) as Hm.
  lia.
Qed.

(** The batches whose uploads are started are the first batches of the
    list, each once. *)
Lemma uploadLoop_started (env : Env) (batches : list (list string)) :
  forall (st : State) (started : list (list string)),
    exists rest,
      started ++ batches = snd (fst (uploadLoop env batches st started)) ++ rest.
Proof.
  induction batches as [|batch more IH]; intros st started.
  - exists []. reflexivity.
  - cbn [uploadLoop]. destruct (batchRejects env batch).
    + exists more. simpl. now rewrite <- List.app_assoc.
    + destruct (IH (saveProgress env (runBatch env st batch)) (started ++ [batch]))
        as [rest Hr].
      exists rest. rewrite <- Hr. now rewrite <- List.app_assoc.
Qed.

(** *** A failed upload ends the run *)

(** The names of the examples: item00.json, item01.json, ... *)
Definition itemName (n : nat) : string :=
  "item" +:+ String (ascii_of_nat (48 + n / 10)) (String (ascii_of_nat (48 + n mod 10)) ".json").

(** An environment in which only the upload of [bad] fails. *)
Definition failing (bad : string) : Env :=
  mkEnv (fun f => negb (String.eqb f bad)) (fun _ => true).

(** C5 at a failing input.  Thirty-one files, no checkpoint, and the
    first file cannot be uploaded: the 29 other uploads of the first batch
    are counted, but [Promise.all] rejects, the loop is left through its
    [catch], the second batch (the thirty-first file) is never started and
    [saveProgress] is never called. *)
Theorem upload_failure_aborts_later_batches :
  let files := List.map itemName (List.seq 0 31) in
  match uploadDirectoryWithTransferManager (failing (itemName 0)) files FileAbsent with
  | Some (st, started, finished) =>
    finished = false
    /\ started = [take 30 files]
    /\ uploaded (shared st) = 29 /\ failed (shared st) = 1
    /\ completedFiles (shared st) = List.map itemName (List.seq 1 29)
    /\ bool_decide (itemName 30 ∈ completedFiles (shared st)) = false
    /\ disk st = FileAbsent
    /\ console st = [LFailed (itemName 0); LTransferFailed]
  | None => False
  end.
Proof. vm_compute. repeat split. Qed.

(** C6 at a failing input.  Two files, the first of which cannot be
    uploaded: the first run uploads the second file and leaves no
    checkpoint, so the second run, on the same files, uploads it again. *)
Theorem upload_second_run_repeats_work :
  let files := [itemName 0; itemName 1] in
  let env := failing (itemName 0) in
  match uploadDirectoryWithTransferManager env files FileAbsent with
  | Some (st1, _, finished1) =>
    finished1 = false
    /\ uploaded (shared st1) = 1
    /\ completedFiles (shared st1) = [itemName 1]
    /\ disk st1 = FileAbsent
    /\ match uploadDirectoryWithTransferManager env files (disk st1) with
       | Some (st2, started2, _) =>
         started2 = [files] /\ uploaded (shared st2) = 1
         /\ completedFiles (shared st2) = [itemName 1]
       | None => False
       end
  | None => False
  end.
Proof. vm_compute. repeat split. Qed.

End UploadProofs.

(** ** Properties of the engine, over both scripts *)
Module Engine.
Import Fs.

(** C2. The completed set only grows, in both scripts.  In
    partition-extensions.js every step of the main thread extends
    [processedFiles] at its end; marking a file that is present changes
    nothing; a run that completes leaves a checkpoint that holds every name
    of the checkpoint it found, and so does a run cut at any point.  In
    drive-upload.js every turn of every call extends [completedFiles] at
    its end, a completion of a file that is present leaves the array as it
    is, and a run leaves a checkpoint that holds every name of the one it
    found. *)
Theorem completed_set_is_monotone :
  (forall env st steps,
      Partition.processedFiles (Partition.progress st) `prefix_of`
      Partition.processedFiles
        (Partition.progress (List.fold_left (Partition.exec env) steps st)))
  /\ (forall env st f,
         f ∈ Partition.processedFiles (Partition.progress st) ->
         Partition.markFileProcessed env st f = st)
  /\ (forall env disk0,
         match Partition.main env disk0 with
         | Partition.Completed st =>
           Partition.checkpointNames disk0 ⊆ Partition.checkpointNames (Partition.disk st)
           /\ Partition.checkpointNames disk0 `prefix_of`
              Partition.processedFiles (Partition.progress st)
         | _ => True
         end)
  /\ (forall k env st,
         Partition.checkpointNames (Partition.disk st)
           ⊆ Partition.processedFiles (Partition.progress st) ->
         Partition.checkpointNames (Partition.disk st)
           ⊆ Partition.checkpointNames
               (Partition.disk (Partition.partitionExtensionFilesUpTo k env st)))
  /\ (forall schedule s,
         Upload.completedFiles (fst s) `prefix_of`
         Upload.completedFiles (fst (Upload.runSchedule schedule s)))
  /\ (forall f sh,
         f ∈ Upload.completedFiles sh ->
         Upload.completedFiles (Upload.applyUpdate (Upload.MarkCompleted f) sh)
         = Upload.completedFiles sh)
  /\ (forall env allFiles disk0,
         match Upload.uploadDirectoryWithTransferManager env allFiles disk0 with
         | Some (st, _, _) =>
           Upload.checkpointNames disk0 ⊆ Upload.checkpointNames (Upload.disk st)
           /\ Upload.checkpointNames (Upload.disk st)
                ⊆ Upload.completedFiles (Upload.shared st)
         | None => True
         end).
Proof.
  split; [intros; apply PartitionProofs.processedFiles_run_prefix|].
  split; [intros env st f; apply PartitionProofs.markFileProcessed_present|].
  split.
  { intros env disk0. pose proof (PartitionProofs.main_checkpoint_grows env disk0) as H.
    destruct (Partition.main env disk0); try exact I. tauto. }
  split.
  { intros k env st H.
    apply (PartitionProofs.partitionExtensionFilesUpTo_checkpoint k env st H). }
  split; [intros; apply UploadProofs.completedFiles_runSchedule|].
  split; [intros f sh; apply UploadProofs.applyUpdate_present|].
  intros env allFiles disk0. apply UploadProofs.upload_run_checkpoint.
Qed.

(** The environment of the examples: two source files, three cores, every
    worker completes, every write succeeds. *)
Definition exampleFs : FileSystem :=
  mkFs [["extension-dir"; "abcd.json"]; ["extension-dir"; "zz.json"]]
       [["extension-dir"]] (fun _ _ => None).

Definition exampleEnv : Partition.Env :=
  Partition.mkEnv exampleFs 3 (fun _ => Partition.Completes) (fun _ => true) (fun _ => 7%Z).

Lemma completed_set_is_monotone_witness :
  let st := Partition.enter (Partition.mkProgress ["abcd.json"] []) FileAbsent 0 [] in
  let sh := Upload.mkShared 1 0 2 ["a.json"] false in
  ("abcd.json" ∈ Partition.processedFiles (Partition.progress st)
   /\ Partition.markFileProcessed exampleEnv st "abcd.json" = st)
  /\ (Partition.checkpointNames (Partition.disk st)
        ⊆ Partition.processedFiles (Partition.progress st)
      /\ Partition.checkpointNames (Partition.disk st)
           ⊆ Partition.checkpointNames
               (Partition.disk (Partition.partitionExtensionFilesUpTo (Some 1) exampleEnv st)))
  /\ ("a.json" ∈ Upload.completedFiles sh
      /\ Upload.completedFiles (Upload.applyUpdate (Upload.MarkCompleted "a.json") sh)
         = Upload.completedFiles sh).
Proof.
  intros st sh.
  destruct completed_set_is_monotone as (_ & H2 & _ & H4 & _ & H6 & _).
  assert (Ha : "abcd.json" ∈ Partition.processedFiles (Partition.progress st))
    by (apply list_elem_of_In; simpl; auto).
  assert (Hb : Partition.checkpointNames (Partition.disk st)
                 ⊆ Partition.processedFiles (Partition.progress st))
    by (intros x Hx; vm_compute in Hx; inversion Hx).
  assert (Hc : "a.json" ∈ Upload.completedFiles sh)
    by (apply list_elem_of_In; simpl; auto).
  split; [split; [exact Ha|exact (H2 exampleEnv st "abcd.json" Ha)]|].
  split; [split; [exact Hb|exact (H4 (Some 1) exampleEnv st Hb)]|].
  split; [exact Hc|exact (H6 "a.json" sh Hc)].
Defined.

(** C4. A failed result only adds one to the failure counter: in
    partition-extensions.js the handler leaves the progress object, the
    success counter, the bin sizes and the checkpoint as they are, and a
    file whose result is a failure is in the completed set after no run,
    whole or cut, unless it was there before; so the next run finds it among
    the files to process.  A run handles at most one result per file to
    process, in order: it has no retry.  In drive-upload.js the failure
    update only adds one to [failed], a file whose upload fails is not added
    to [completedFiles], the next run finds it among the files to upload,
    and the batches of a run hold every file once. *)
Theorem failed_outcome_only_counts_failure :
  (forall env st r,
      Partition.success r = false ->
      Partition.progress (Partition.handleResult env st r) = Partition.progress st
      /\ Partition.processed (Partition.handleResult env st r) = Partition.processed st
      /\ Partition.binSizes (Partition.handleResult env st r) = Partition.binSizes st
      /\ Partition.disk (Partition.handleResult env st r) = Partition.disk st
      /\ Partition.errors (Partition.handleResult env st r) = Partition.errors st + 1)
  /\ (forall k env st f,
         Partition.success (Partition.processFile (Partition.env_fs env) f) = false ->
         f ∉ Partition.processedFiles (Partition.progress st) ->
         f ∉ Partition.processedFiles
               (Partition.progress (Partition.partitionExtensionFilesUpTo k env st)))
  /\ (forall env p f,
         f ∈ Partition.jsonFilesOf env -> f ∉ Partition.processedFiles p ->
         f ∈ Partition.filesToProcessOf env p)
  /\ (forall env files,
         Partition.handledFiles (Partition.runSteps env files) `sublist_of` files)
  /\ (forall sh,
         Upload.applyUpdate Upload.CountFailure sh
         = Upload.mkShared (Upload.uploaded sh) (S (Upload.failed sh)) (Upload.total sh)
             (Upload.completedFiles sh) (Upload.mutex sh))
  /\ (forall env f batches st started,
         Upload.env_upload_ok env f = false ->
         f ∉ Upload.completedFiles (Upload.shared st) ->
         f ∉ Upload.completedFiles
               (Upload.shared (fst (fst (Upload.uploadLoop env batches st started)))))
  /\ (forall allFiles completed f,
         f ∈ allFiles -> f ∉ completed -> f ∈ Upload.filesToUploadOf allFiles completed)
  /\ (forall files, List.concat (Upload.batchesOf files) = files).
Proof.
  split.
  { intros env st r H.
    destruct (PartitionProofs.handleResult_failure env st r H) as (H1 & H2 & H3 & H4 & H5 & _).
    auto. }
  split; [intros k env st f; apply PartitionProofs.never_added_run|].
  split.
  { intros env p f Hf Hn. unfold Partition.filesToProcessOf.
    apply list_elem_of_In, List.filter_In. split; [now apply list_elem_of_In|].
    unfold Partition.isFileProcessed. now rewrite bool_decide_eq_false_2. }
  split; [apply PartitionProofs.runSteps_handled_sublist|].
  split; [reflexivity|].
  split; [intros env f batches st started; apply UploadProofs.uploadLoop_failed_not_added|].
  split; [|apply UploadProofs.batchesOf_concat].
  intros allFiles completed f Hf Hn. unfold Upload.filesToUploadOf.
  apply list_elem_of_In, List.filter_In. split; [now apply list_elem_of_In|].
  now rewrite bool_decide_eq_false_2.
Qed.

(** The file zz.json of the example has no bin: its copy fails. *)
Lemma failed_outcome_only_counts_failure_witness :
  let env := Partition.withBins exampleEnv in
  let st := Partition.enter (Partition.mkProgress [] []) FileAbsent 0 [] in
  let r := Partition.processFile (Partition.env_fs env) "zz.json" in
  Partition.success r = false
  /\ Partition.errors (Partition.handleResult env st r) = 1
  /\ ("zz.json" ∉ Partition.processedFiles
                     (Partition.progress (Partition.partitionExtensionFilesUpTo None env st)))
  /\ ("zz.json" ∈ Partition.filesToProcessOf env
                     (Partition.progress (Partition.partitionExtensionFilesUpTo None env st))).
Proof.
  intros env st r.
  destruct failed_outcome_only_counts_failure as (H1 & H2 & H3 & _).
  assert (Hr : Partition.success r = false) by (vm_compute; reflexivity).
  assert (Hn : "zz.json" ∉ Partition.processedFiles (Partition.progress st))
    by (intros Hx; vm_compute in Hx; inversion Hx).
  assert (Hj : "zz.json" ∈ Partition.jsonFilesOf env)
    by (apply list_elem_of_In; vm_compute; auto).
  split; [exact Hr|].
  split; [exact (proj2 (proj2 (proj2 (proj2 (H1 env st r Hr)))))|].
  split; [exact (H2 None env st "zz.json" Hr Hn)|].
  exact (H3 env _ "zz.json" Hj (H2 None env st "zz.json" Hr Hn)).
Defined.

(** The example environment once the bins exist. *)
Definition exampleBinsEnv : Partition.Env := Partition.withBins exampleEnv.

(** The files of the next example: 250 names with bins among the 256. *)
Definition nameOf (n : nat) : string :=
  String (ascii_of_nat (97 + n / 16)) (String (ascii_of_nat (97 + n mod 16)) "x.json").

(** Three cores, hence two workers a round; the copy of the first file
    fails, and the second worker of the first round raises an error
    event. *)
Definition crashEnv : Partition.Env :=
  Partition.mkEnv
    (mkFs (List.map (fun n => ["extension-dir"; nameOf n]) (List.seq 0 250))
          [["extension-dir"]]
          (fun src _ => if bool_decide (src = ["extension-dir"; nameOf 0])
                        then Some "EACCES: permission denied" else None))
    3
    (fun startIdx => if (startIdx =? 100)%nat then Partition.Crashes "out of memory"
                     else Partition.Completes)
    (fun _ => true) (fun _ => 0%Z).

(** Both scripts start from the empty set when the checkpoint is absent,
    cannot be read or is not JSON, and print the error in the last two
    cases; drive-upload.js also does when the checkpoint is null or has no
    [completedFiles]. *)
Lemma load_fails_soft (now : Z) (err : string) (fields : list (string * Json.json)) :
  Partition.load FileAbsent now = (Partition.LoadedDefault (Partition.defaultProgress now), [])
  /\ Partition.load (FileUnreadable err) now
     = (Partition.LoadedDefault (Partition.defaultProgress now), [Partition.LLoadError err])
  /\ Partition.load (FileGarbled err) now
     = (Partition.LoadedDefault (Partition.defaultProgress now), [Partition.LLoadError err])
  /\ Partition.processedFiles (Partition.defaultProgress now) = []
  /\ Upload.loadCompleted FileAbsent = (Upload.CNames [], [])
  /\ Upload.loadCompleted (FileUnreadable err) = (Upload.CNames [], [Upload.LLoadError err])
  /\ Upload.loadCompleted (FileGarbled err) = (Upload.CNames [], [Upload.LLoadError err])
  /\ fst (Upload.loadCompleted (FileJson Json.JNull)) = Upload.CNames []
  /\ (Json.getField "completedFiles" fields = None ->
      Upload.loadCompleted (FileJson (Json.JObj fields)) = (Upload.CNames [], [])).
Proof.
  repeat split. intros H. simpl. now rewrite H.
Qed.

(** C9 at a failing input.  A checkpoint of partition-extensions.js that
    parses but has no [processedFiles]: [load] returns the parsed object as
    it is, without an empty [processedFiles], and prints nothing; the
    membership test of [partitionExtensionFiles] then throws a TypeError,
    which its [catch] prints, and no file is processed.  On the checkpoint
    [null], [main] ends the process with exit code 1.  drive-upload.js
    reads the same object as an empty set. *)
Theorem load_keeps_checkpoint_without_processedFiles (env : Partition.Env) (now : Z) :
  let v := Json.JObj [("binsCreated", Json.JBool true); ("lastUpdate", Json.JNum 5)] in
  Partition.load (FileJson v) now = (Partition.LoadedJson v, [])
  /\ Partition.usable (Partition.LoadedJson v) = Partition.UNoProcessedFiles
  /\ (exists msg,
         Partition.main env (FileJson v) = Partition.PartitionFailed [Partition.LPartitionFailed msg])
  /\ (exists c, Partition.main env (FileJson Json.JNull) = Partition.ExitCode1 c)
  /\ Upload.loadCompleted (FileJson v) = (Upload.CNames [], []).
Proof.
  intros v. split; [reflexivity|]. split; [reflexivity|].
  split; [eexists; reflexivity|]. split; [eexists; reflexivity|reflexivity].
Qed.

End Engine.

(** ** partition-extensions.js on the event loop

    The handlers of the workers of a round run on one thread, each to its
    next [await]; what one worker reports is handled between the steps of
    the others, a write of the checkpoint is finished by the file system
    some time after [writeFile] is called, and [Promise.all] is rejected as
    soon as one worker's promise is. *)
Module EventLoop.
Import NodePath Fs Partition.

(** A call of [writeFile(progressFilePath, JSON.stringify(progress))].
    [InFlight]: the call is made, with the text [JSON.stringify] gave at
    the call and the number of the write; the function that awaits it is
    suspended.  [Landed]: the file system has finished, with or without
    success, and the function has not resumed yet. *)
Inductive Write :=
| InFlight (content : Json.json) (n : nat)
| Landed (ok : bool).

(** [ProgressTracker.save] up to its [await]. *)
Definition saveStart (env : Env) (st : State) : State * Write :=
  let p := mkProgress (processedFiles (progress st))
             (Json.setField "lastUpdate" (Json.JNum (env_now env (writes st)))
                (otherFields (progress st))) in
  (mkState p (processed st) (errors st) (binSizes st) (disk st) (S (writes st)) (console st),
   InFlight (toJson p) (writes st)).

(** The file system finishes a write: the file holds the text, or the
    write fails and the file is as before.  A write is taken to replace
    the file as a whole. *)
Definition land (env : Env) (st : State) (w : Write) : State * Write :=
  match w with
  | InFlight content n =>
    if env_write_ok env n
    then (mkState (progress st) (processed st) (errors st) (binSizes st)
            (FileJson content) (writes st) (console st),
          Landed true)
    else (st, Landed false)
  | Landed _ => (st, w)
  end.

(** [ProgressTracker.save] after its [await]: the [catch] prints a failed
    write. *)
Definition saveEnd (st : State) (ok : bool) : State :=
  if ok then st else logLine st LSaveError.

(** [ProgressTracker.markFileProcessed] up to the [await] of the save, when
    it saves. *)
Definition markFileProcessedStart (env : Env) (st : State) (filename : string)
    : State * option Write :=
  if negb (isFileProcessed (progress st) filename) then
    let st1 := pushFile st filename in
    if (List.length (processedFiles (progress st1)) mod 100 =? 0)%nat
    then let '(st2, w) := saveStart env st1 in (st2, Some w)
    else (st1, None)
  else (st, None).

(** [ProgressTracker.markFileProcessed] after the save. *)
Definition markFileProcessedEnd (st : State) (ok : bool) : State :=
  let st1 := saveEnd st ok in
  logLine st1 (LProgressSaved (List.length (processedFiles (progress st1)))).

(** Where the handler of a worker's message stands.  [NotStarted]: no
    message has come.  [Running results]: it is in its loop and [results]
    are still to be gone through.  [Saving w results]: it is suspended in
    [markFileProcessed] at the [await] of the save.  [Finished]: it has
    called [resolve]. *)
Inductive HandlerPc :=
| NotStarted
| Running (results : list Result)
| Saving (w : Write) (results : list Result)
| Finished.

(** A worker as the main thread sees it: the round that created it, its
    batch, the events it has still to deliver, the handler of its message
    and its promise. *)
Record Worker := mkWorker {
  w_round : nat;
  w_startIdx : nat;
  w_fileBatch : list string;
  w_events : list WorkerEvent;
  w_handler : HandlerPc;
  w_promise : Settled }.

Definition setWorker (w : Worker) (evs : list WorkerEvent) (h : HandlerPc) (p : Settled)
    : Worker :=
  mkWorker (w_round w) (w_startIdx w) (w_fileBatch w) evs h p.

(** The next event of a worker reaches its handler
    [worker.on('message' | 'error' | 'exit')]; the handler of a result
    array starts its loop at the next step. *)
Definition deliver (st : State) (w : Worker) : State * Worker :=
  match w_events w with
  | [] => (st, w)
  | ev :: rest =>
    let n := List.length (w_fileBatch w) in
    match ev with
    | EvMessage (MError message _) =>
      (addErrors (logLine st (LWorkerError message)) n,
       setWorker w rest Finished (settle (w_promise w) Resolved))
    | EvMessage (MResults results) =>
      (st, setWorker w rest (Running results) (w_promise w))
    | EvError err =>
      (addErrors (logLine st (LWorkerCrash err)) n,
       setWorker w rest (w_handler w) (settle (w_promise w) Rejected))
    | EvExit code =>
      if (code =? 0)%Z then (st, setWorker w rest (w_handler w) (w_promise w))
      else (logLine st (LWorkerExit code),
            setWorker w rest (w_handler w) (settle (w_promise w) Rejected))
    end
  end.

(** The handler of a message goes on to its next [await]: one iteration of
    [for (const result of results)], or what follows the save, or
    [resolve()] after the last result. *)
Definition resume (env : Env) (st : State) (w : Worker) : State * Worker :=
  match w_handler w with
  | Running [] => (st, setWorker w (w_events w) Finished (settle (w_promise w) Resolved))
  | Running (r :: rest) =>
    if success r then
      let '(st1, saving) :=
        markFileProcessedStart env (countSuccess st (default "undefined" (bin r))) (file r) in
      (st1, setWorker w (w_events w)
              (match saving with Some wr => Saving wr rest | None => Running rest end)
              (w_promise w))
    else
      (addErrors (logLine st (LItemError (file r) (default "undefined" (error r)))) 1,
       setWorker w (w_events w) (Running rest) (w_promise w))
  | Saving (Landed ok) rest =>
    (markFileProcessedEnd st ok, setWorker w (w_events w) (Running rest) (w_promise w))
  | _ => (st, w)
  end.

(** The write a handler awaits is finished. *)
Definition landWorker (env : Env) (st : State) (w : Worker) : State * Worker :=
  match w_handler w with
  | Saving wr rest =>
    let '(st1, wr1) := land env st wr in
    (st1, setWorker w (w_events w) (Saving wr1 rest) (w_promise w))
  | _ => (st, w)
  end.

(** Where [partitionExtensionFiles] stands.  [AwaitingRound i]: at
    [await Promise.all(workerPromises)] of the round that starts at [i].
    [SavingRound i w]: at the [await] of the save that ends that round.
    [SavingFinal w]: at the [await] of the save after the loop.
    [Returned]: past it. *)
Inductive MainPc :=
| AwaitingRound (i : nat)
| SavingRound (i : nat) (w : Write)
| SavingFinal (w : Write)
| Returned.

Record Config := mkConfig {
  mem : State;
  mainPc : MainPc;
  workers : list Worker }.

(** The workers the round that starts at [i] creates. *)
Definition spawn (env : Env) (filesToProcess : list string) (i : nat) : list Worker :=
  List.map (fun b => mkWorker i (fst b) (snd b) (workerEvents env (fst b) (snd b))
                       NotStarted Pending)
           (roundBatches env filesToProcess i).

(** The test [i < filesToProcess.length] of the loop: the round is started
    and awaited, or the loop is left and the final save begins. *)
Definition enterRound (env : Env) (filesToProcess : list string) (i : nat)
    (st : State) (ws : list Worker) : Config :=
  if (i <? List.length filesToProcess)%nat
  then mkConfig st (AwaitingRound i) (ws ++ spawn env filesToProcess i)
  else let '(st1, w) := saveStart env st in mkConfig st1 (SavingFinal w) ws.

Definition promisesOf (i : nat) (ws : list Worker) : list Settled :=
  List.map w_promise (List.filter (fun w => (w_round w =? i)%nat) ws).

(** [Promise.all] rejects as soon as one promise is rejected. *)
Definition anyRejected (outcomes : list Settled) : bool :=
  List.existsb (fun s => match s with Rejected => true | _ => false end) outcomes.

(** [partitionExtensionFiles] goes on to its next [await]: from
    [Promise.all] to the [catch] and the next round when it rejected, to
    the save of the round when it resolved; from a save to what follows
    it. *)
Definition mainStep (env : Env) (filesToProcess : list string) (c : Config) : Config :=
  match mainPc c with
  | AwaitingRound i =>
    let outcomes := promisesOf i (workers c) in
    if anyRejected outcomes
    then enterRound env filesToProcess (i + BATCH_SIZE * MAX_WORKERS env)
           (logLine (mem c) LBatchError) (workers c)
    else if allResolved outcomes
    then let '(st1, w) := saveStart env (mem c) in mkConfig st1 (SavingRound i w) (workers c)
    else c
  | SavingRound i (Landed ok) =>
    enterRound env filesToProcess (i + BATCH_SIZE * MAX_WORKERS env)
      (saveEnd (mem c) ok) (workers c)
  | SavingFinal (Landed ok) => mkConfig (saveEnd (mem c) ok) Returned (workers c)
  | _ => c
  end.

(** The write [partitionExtensionFiles] awaits is finished. *)
Definition landMain (env : Env) (c : Config) : Config :=
  match mainPc c with
  | SavingRound i wr =>
    let '(st1, wr1) := land env (mem c) wr in mkConfig st1 (SavingRound i wr1) (workers c)
  | SavingFinal wr =>
    let '(st1, wr1) := land env (mem c) wr in mkConfig st1 (SavingFinal wr1) (workers c)
  | _ => c
  end.

(** What the event loop can run next: an event of worker [k] (by its place
    among the workers created so far), the handler of its message, the end
    of the write it awaits, the end of the write the main function awaits,
    or the main function. *)
Inductive Action :=
| Deliver (k : nat)
| Resume (k : nat)
| LandWorker (k : nat)
| LandMain
| MainStep.

Definition onWorker (f : State -> Worker -> State * Worker) (k : nat) (c : Config)
    : Config :=
  match workers c !! k with
  | Some w => let '(st1, w1) := f (mem c) w in mkConfig st1 (mainPc c) (<[k := w1]> (workers c))
  | None => c
  end.

(** One step; an action that cannot run leaves the configuration as it is. *)
Definition step (env : Env) (filesToProcess : list string) (a : Action) (c : Config)
    : Config :=
  match a with
  | Deliver k => onWorker deliver k c
  | Resume k => onWorker (resume env) k c
  | LandWorker k => onWorker (landWorker env) k c
  | LandMain => landMain env c
  | MainStep => mainStep env filesToProcess c
  end.

Definition run (env : Env) (filesToProcess : list string) (schedule : list Action)
    (c : Config) : Config :=
  List.fold_left (fun c a => step env filesToProcess a c) schedule c.

(** The loop of [partitionExtensionFiles] at its start, on the files to
    process (there is one at least). *)
Definition start (env : Env) (filesToProcess : list string) (st : State) : Config :=
  enterRound env filesToProcess 0 st [].

(** *** Notions used to state the properties of a run *)

(** The completions in memory that a list of names lacks. *)
Definition missing (names : list string) (st : State) : list string :=
  List.filter (fun f => negb (bool_decide (f ∈ names))) (processedFiles (progress st)).

(** The items of the round the main function is in. *)
Definition itemsInProgress (env : Env) (filesToProcess : list string) (c : Config)
    : list string :=
  match mainPc c with
  | AwaitingRound i | SavingRound i _ => roundItems env filesToProcess i
  | SavingFinal _ | Returned => []
  end.

(** A worker that has something left to do. *)
Definition active (h : HandlerPc) : bool :=
  match h with Running _ | Saving _ _ => true | _ => false end.

Definition idle (w : Worker) : bool :=
  match w_events w with [] => negb (active (w_handler w)) | _ => false end.

End EventLoop.

Module EventLoopProofs.
Import NodePath Fs Partition EventLoop.

(** The serial model of the save is this one with the write finished at
    once. *)
Lemma save_at_once (env : Env) (st : State) :
  save env st
  = saveEnd (fst (land env (fst (saveStart env st)) (snd (saveStart env st))))
      (env_write_ok env (writes st)).
Proof.
  unfold save, saveStart, land, saveEnd. cbn [fst snd].
  destruct (env_write_ok env (writes st)); reflexivity.
Qed.

Lemma markFileProcessed_at_once (env : Env) (st : State) (f : string) :
  markFileProcessed env st f
  = match markFileProcessedStart env st f with
    | (st1, None) => st1
    | (st1, Some w) =>
      markFileProcessedEnd (fst (land env st1 w)) (env_write_ok env (writes (pushFile st f)))
    end.
Proof.
  unfold markFileProcessed, markFileProcessedStart.
  destruct (negb _); [|reflexivity]. destruct (_ =? 0)%nat; [|reflexivity].
  rewrite save_at_once. unfold saveStart, land, markFileProcessedEnd. cbn [fst snd].
  destruct (env_write_ok env (writes (pushFile st f))); reflexivity.
Qed.

Lemma missing_spec (names : list string) (st : State) (f : string) :
  f ∈ missing names st <-> f ∈ processedFiles (progress st) /\ f ∉ names.
Proof.
  unfold missing. rewrite list_elem_of_In, List.filter_In, <- list_elem_of_In.
  rewrite negb_true_iff, bool_decide_eq_false. reflexivity.
Qed.

Lemma lostWork_missing (st : State) : lostWork st = missing (checkpointNames (disk st)) st.
Proof. reflexivity. Qed.

Lemma missing_nil (names : list string) (st : State) :
  missing names st = [] <-> processedFiles (progress st) ⊆ names.
Proof.
  split.
  - intros H f Hf. destruct (decide (f ∈ names)) as [Hn|Hn]; [exact Hn|].
    assert (Hm : f ∈ missing names st) by (apply missing_spec; now split).
    rewrite H in Hm. now apply elem_of_nil in Hm.
  - intros H. destruct (missing names st) as [|f l] eqn:E; [reflexivity|].
    assert (Hm : f ∈ missing names st) by (rewrite E; left).
    apply missing_spec in Hm. destruct Hm as [Hf Hn]. now apply H in Hf.
Qed.

(** *** What the steps do to the completed set and to the checkpoint *)

Lemma saveStart_effect (env : Env) (st : State) :
  processedFiles (progress (fst (saveStart env st))) = processedFiles (progress st)
  /\ disk (fst (saveStart env st)) = disk st
  /\ exists content,
       snd (saveStart env st) = InFlight content (writes st)
       /\ checkpointNames (FileJson content) = processedFiles (progress st).
Proof.
  unfold saveStart. cbn [fst snd progress processedFiles disk].
  split; [reflexivity|]. split; [reflexivity|].
  eexists. split; [reflexivity|]. now rewrite PartitionProofs.checkpointNames_toJson.
Qed.

Lemma land_effect (env : Env) (st : State) (content : Json.json) (n : nat) :
  env_write_ok env n = true ->
  progress (fst (land env st (InFlight content n))) = progress st
  /\ disk (fst (land env st (InFlight content n))) = FileJson content
  /\ snd (land env st (InFlight content n)) = Landed true.
Proof. intros H. unfold land. rewrite H. repeat split. Qed.

Lemma markFileProcessedStart_effect (env : Env) (st : State) (f : string) :
  let r := markFileProcessedStart env st f in
  (processedFiles (progress (fst r)) = processedFiles (progress st)
   \/ processedFiles (progress (fst r)) = processedFiles (progress st) ++ [f])
  /\ disk (fst r) = disk st
  /\ (forall w, snd r = Some w ->
        exists content n,
          w = InFlight content n
          /\ checkpointNames (FileJson content) = processedFiles (progress (fst r))).
Proof.
  unfold markFileProcessedStart.
  destruct (negb (isFileProcessed (progress st) f)).
  2:{ cbn [fst snd]. split; [now left|]. split; [reflexivity|]. intros w [=]. }
  destruct (_ =? 0)%nat.
  - destruct (saveStart_effect env (pushFile st f)) as (E1 & E2 & content & E3 & E4).
    destruct (saveStart env (pushFile st f)) as [st2 w2]. cbn [fst snd] in *.
    split; [right; exact E1|]. split; [exact E2|].
    intros w [= <-]. exists content, (writes (pushFile st f)).
    split; [exact E3|]. now rewrite E4, E1.
  - cbn [fst snd]. split; [now right|]. split; [reflexivity|]. intros w [=].
Qed.

(** *** Runs in which every worker reports and every write succeeds *)

Section RoundsThatResolve.
Variable env : Env.
Variable files : list string.
Hypothesis reports : everyWorkerReports env.
Hypothesis writes_ok : forall n, env_write_ok env n = true.

Definition quietEvent (ev : WorkerEvent) : Prop :=
  match ev with
  | EvMessage _ => True
  | EvError _ => False
  | EvExit code => code = 0%Z
  end.

Definition eventResults (ev : WorkerEvent) : list Result :=
  match ev with EvMessage (MResults results) => results | _ => [] end.

Definition handlerResults (h : HandlerPc) : list Result :=
  match h with Running results | Saving _ results => results | _ => [] end.

(** The results a worker has still to bring to the completed set are
    results of files of its round; its promise is resolved only when its
    handler has finished, and it never is rejected. *)
Definition shape (w : Worker) : Prop :=
  w_promise w <> Rejected
  /\ Forall quietEvent (w_events w)
  /\ Forall (fun ev => ev = EvExit 0) (List.tl (w_events w))
  /\ (w_handler w <> NotStarted -> Forall (fun ev => ev = EvExit 0) (w_events w))
  /\ (w_promise w = Resolved -> w_handler w = Finished)
  /\ Forall (fun r => file r ∈ roundItems env files (w_round w))
       (handlerResults (w_handler w) ++ List.flat_map eventResults (w_events w)).

Definition inFlightWithin (c : Config) (w : Worker) : Prop :=
  forall content n rest,
    w_handler w = Saving (InFlight content n) rest ->
    missing (checkpointNames (FileJson content)) (mem c) ⊆ itemsInProgress env files c.

Definition inv (c : Config) : Prop :=
  Forall shape (workers c)
  /\ Forall (fun w => w_promise w <> Resolved -> mainPc c = AwaitingRound (w_round w))
       (workers c)
  /\ lostWork (mem c) ⊆ itemsInProgress env files c
  /\ Forall (inFlightWithin c) (workers c)
  /\ match mainPc c with
     | SavingRound _ (InFlight content _) | SavingFinal (InFlight content _) =>
       missing (checkpointNames (FileJson content)) (mem c) = []
     | SavingRound _ (Landed _) | SavingFinal (Landed _) | Returned => lostWork (mem c) = []
     | AwaitingRound _ => True
     end.

Lemma spawn_shape (i : nat) : Forall shape (spawn env files i).
Proof.
  unfold spawn. apply Forall_forall. intros w Hw.
  apply list_elem_of_In, List.in_map_iff in Hw. destruct Hw as [[startIdx batch] [<- Hb]].
  assert (Hsub : batch ⊆ roundItems env files i).
  { rewrite <- PartitionProofs.roundBatches_concat. intros f Hf.
    apply list_elem_of_In, List.in_concat. exists batch. split; [|now apply list_elem_of_In].
    apply List.in_map_iff. now exists (startIdx, batch). }
  unfold shape. cbn [w_promise w_events w_handler w_round fst snd].
  split; [discriminate|]. unfold workerEvents. specialize (reports startIdx).
  destruct (env_fate env startIdx); try contradiction.
  - split; [repeat constructor|]. split; [repeat constructor|].
    split; [congruence|]. split; [discriminate|].
    cbn. rewrite List.app_nil_r. unfold workerProcess. apply Forall_forall.
    intros r Hr. apply list_elem_of_In, List.in_map_iff in Hr. destruct Hr as [f [<- Hf]].
    rewrite PartitionProofs.file_processFile. apply Hsub. now apply list_elem_of_In.
  - split; [repeat constructor|]. split; [repeat constructor|].
    split; [congruence|]. split; [discriminate|].
    cbn. constructor.
Qed.

Lemma spawn_round (i : nat) : Forall (fun w => w_round w = i /\ w_promise w = Pending
                                               /\ w_handler w = NotStarted)
                                     (spawn env files i).
Proof.
  unfold spawn. apply Forall_forall. intros w Hw.
  apply list_elem_of_In, List.in_map_iff in Hw. destruct Hw as [b [<- _]]. now cbn.
Qed.

(** What a step of a worker may do, for the invariant to be kept. *)
Definition gentle (st : State) (w : Worker) (r : State * Worker) : Prop :=
  shape (snd r)
  /\ w_round (snd r) = w_round w
  /\ (w_promise (snd r) <> Resolved -> w_promise w <> Resolved)
  /\ (disk (fst r) = disk st
      \/ exists content n rest,
           w_handler w = Saving (InFlight content n) rest
           /\ disk (fst r) = FileJson content)
  /\ (exists added,
        processedFiles (progress (fst r)) = processedFiles (progress st) ++ added
        /\ Forall (fun f => f ∈ roundItems env files (w_round w)) added
        /\ (added <> [] -> w_promise w <> Resolved))
  /\ (forall content n rest,
        w_handler (snd r) = Saving (InFlight content n) rest ->
        (exists rest', w_handler w = Saving (InFlight content n) rest')
        \/ checkpointNames (FileJson content) = processedFiles (progress (fst r))).

Lemma onWorker_inv (f : State -> Worker -> State * Worker) (k : nat) (c : Config) :
  (forall w, workers c !! k = Some w -> shape w -> gentle (mem c) w (f (mem c) w)) ->
  inv c -> inv (onWorker f k c).
Proof.
  intros Hf (Hshape & Hround & Hlost & Hfly & Hmain). unfold onWorker.
  destruct (workers c !! k) as [w|] eqn:Hk; [|repeat split; assumption].
  assert (Hw : w ∈ workers c) by (eapply list_elem_of_lookup_2; exact Hk).
  pose proof (proj1 (Forall_forall _ _) Hshape w Hw) as Hsw.
  pose proof (proj1 (Forall_forall _ _) Hround w Hw) as Hrw.
  pose proof (proj1 (Forall_forall _ _) Hfly w Hw) as Hfw.
  specialize (Hf w eq_refl Hsw).
  destruct (f (mem c) w) as [st1 w1]. unfold gentle in Hf. cbn [fst snd] in Hf.
  destruct Hf as (G1 & G2 & G3 & G4 & (added & G5 & G6 & G7) & G8).
  (* what is added belongs to the round in progress *)
  assert (Hadded : forall x, x ∈ added -> x ∈ itemsInProgress env files c).
  { intros x Hx. assert (Hne : added <> []) by (intros ->; now apply elem_of_nil in Hx).
    unfold itemsInProgress. rewrite (Hrw (G7 Hne)).
    exact (proj1 (Forall_forall _ _) G6 x Hx). }
  assert (Hmiss : forall names x,
             x ∈ missing names st1 ->
             x ∈ missing names (mem c) \/ x ∈ itemsInProgress env files c).
  { intros names x Hx. apply missing_spec in Hx. destruct Hx as [Hx Hn].
    rewrite G5 in Hx. apply elem_of_app in Hx. destruct Hx as [Hx|Hx].
    - left. apply missing_spec. now split.
    - right. now apply Hadded. }
  unfold inv. cbn [mem mainPc workers].
  change (itemsInProgress env files (mkConfig st1 (mainPc c) (<[k:=w1]> (workers c))))
    with (itemsInProgress env files c).
  split; [now apply Forall_insert|].
  split.
  { apply Forall_insert; [exact Hround|]. intros Hp. rewrite G2. apply Hrw. now apply G3. }
  split.
  { intros x Hx. rewrite lostWork_missing in Hx.
    destruct G4 as [Ed|(content & n & rest & Eh & Ed)]; rewrite Ed in Hx.
    - apply Hmiss in Hx. destruct Hx as [Hx|Hx]; [|exact Hx]. now apply Hlost.
    - apply Hmiss in Hx. destruct Hx as [Hx|Hx]; [|exact Hx].
      exact (Hfw content n rest Eh x Hx). }
  split.
  { apply Forall_insert.
    - apply Forall_forall. intros w' Hw' content n rest Eh x Hx.
      apply Hmiss in Hx. destruct Hx as [Hx|Hx]; [|exact Hx].
      exact (proj1 (Forall_forall _ _) Hfly w' Hw' content n rest Eh x Hx).
    - intros content n rest Eh x Hx. cbn [mem] in Hx.
      destruct (G8 content n rest Eh) as [[rest' Eo]|En].
      + apply Hmiss in Hx. destruct Hx as [Hx|Hx]; [|exact Hx].
        exact (Hfw content n rest' Eo x Hx).
      + apply missing_spec in Hx. destruct Hx as [Hx Hn]. rewrite En in Hn.
        now destruct Hn. }
  (* past the await of the round every worker is resolved: the step is idle *)
  destruct (mainPc c) as [i|i wr|wr|] eqn:Epc; [exact I| | |].
  all: assert (Hres : w_promise w = Resolved)
         by (destruct (w_promise w); [|reflexivity|];
             specialize (Hrw ltac:(discriminate)); discriminate).
  all: assert (Eadd : added = [])
         by (destruct added; [reflexivity|exfalso; apply G7; [discriminate|exact Hres]]).
  all: assert (Ed : disk st1 = disk (mem c))
         by (destruct G4 as [Ed|(content & n & rest & Eh & _)]; [exact Ed|];
             destruct Hsw as (_ & _ & _ & _ & Hfin & _); rewrite (Hfin Hres) in Eh;
             discriminate).
  all: rewrite Eadd, List.app_nil_r in G5.
  all: assert (Em : forall names, missing names st1 = missing names (mem c))
         by (intros names; unfold missing; now rewrite G5).
  - destruct wr; [rewrite Em; exact Hmain|rewrite lostWork_missing, Ed, Em; exact Hmain].
  - destruct wr; [rewrite Em; exact Hmain|rewrite lostWork_missing, Ed, Em; exact Hmain].
  - rewrite lostWork_missing, Ed, Em. exact Hmain.
Qed.

Lemma gentle_same (st : State) (w : Worker) : shape w -> gentle st w (st, w).
Proof.
  intros H. unfold gentle. cbn [fst snd].
  split; [exact H|]. split; [reflexivity|]. split; [auto|]. split; [now left|].
  split.
  - exists []. rewrite List.app_nil_r. split; [reflexivity|]. split; [constructor|congruence].
  - intros content n rest E. left. now exists rest.
Qed.

(** A step that leaves the completed set and the checkpoint alone. *)
Lemma gentle_worker_only (st st1 : State) (w w1 : Worker) :
  shape w1 -> w_round w1 = w_round w ->
  (w_promise w1 <> Resolved -> w_promise w <> Resolved) ->
  processedFiles (progress st1) = processedFiles (progress st) -> disk st1 = disk st ->
  (forall content n rest,
      w_handler w1 = Saving (InFlight content n) rest ->
      exists rest', w_handler w = Saving (InFlight content n) rest') ->
  gentle st w (st1, w1).
Proof.
  intros H1 H2 H3 H4 H5 H6. unfold gentle. cbn [fst snd].
  split; [exact H1|]. split; [exact H2|]. split; [exact H3|]. split; [now left|].
  split.
  - exists []. rewrite List.app_nil_r. split; [exact H4|]. split; [constructor|congruence].
  - intros content n rest E. left. now apply H6 in E.
Qed.

Lemma deliver_gentle (st : State) (w : Worker) : shape w -> gentle st w (deliver st w).
Proof.
  intros Hs. pose proof Hs as (S1 & S2 & S3 & S4 & S5 & S6).
  unfold deliver. destruct (w_events w) as [|ev rest] eqn:Ev; [now apply gentle_same|].
  cbn [List.tl] in S3. apply Forall_cons in S2 as [Q1 Q2].
  assert (Hrest : Forall (fun r => file r ∈ roundItems env files (w_round w))
                    (List.flat_map eventResults rest)).
  { cbn [List.flat_map] in S6. rewrite List.app_assoc in S6.
    apply Forall_app in S6. tauto. }
  destruct ev as [[results|message stack]|err|code]; cbn in Q1.
  - (* the result array *)
    apply gentle_worker_only; cbn [setWorker w_promise w_handler w_events w_round];
      try reflexivity; try tauto; try discriminate.
    unfold shape. cbn [w_promise w_handler w_events w_round handlerResults].
    split; [exact S1|]. split; [exact Q2|].
    split; [destruct rest; [constructor|now apply Forall_cons in S3 as [_ S3]]|].
    split; [intros _; exact S3|].
    split.
    + intros Hres. specialize (S5 Hres).
      assert (Hn : w_handler w <> NotStarted) by congruence.
      specialize (S4 Hn). apply Forall_cons in S4 as [S4 _]. discriminate.
    + cbn [List.flat_map eventResults] in S6.
      apply Forall_app in S6 as [_ S6]. exact S6.
  - (* the error object *)
    apply gentle_worker_only; cbn [setWorker w_promise w_handler w_events w_round];
      try reflexivity; try discriminate.
    + unfold shape. cbn [w_promise w_handler w_events w_round handlerResults List.app].
      split; [destruct (w_promise w); cbn; congruence|]. split; [exact Q2|].
      split; [destruct rest; [constructor|now apply Forall_cons in S3 as [_ S3]]|].
      split; [intros _; exact S3|]. split; [reflexivity|exact Hrest].
    + destruct (w_promise w); cbn; congruence.
  - destruct Q1.
  - subst code. cbn [Z.eqb].
    apply gentle_worker_only; cbn [setWorker w_promise w_handler w_events w_round];
      try reflexivity; try tauto.
    + unfold shape. cbn [w_promise w_handler w_events w_round].
      split; [exact S1|]. split; [exact Q2|].
      split; [destruct rest; [constructor|now apply Forall_cons in S3 as [_ S3]]|].
      split; [intros _; exact S3|]. split; [exact S5|].
      apply Forall_app. apply Forall_app in S6 as [S6 _]. split; [exact S6|exact Hrest].
    + intros content n rest' E. now exists rest'.
Qed.

Lemma shape_handler (w : Worker) (h : HandlerPc) (p : Settled) :
  shape w -> w_handler w <> NotStarted -> w_handler w <> Finished ->
  p <> Rejected -> (p = Resolved -> h = Finished) ->
  Forall (fun r => file r ∈ roundItems env files (w_round w)) (handlerResults h) ->
  shape (setWorker w (w_events w) h p).
Proof.
  intros (S1 & S2 & S3 & S4 & S5 & S6) Hn Hf Hp Hr Hh.
  unfold shape. cbn [setWorker w_promise w_handler w_events w_round].
  split; [exact Hp|]. split; [exact S2|]. split; [exact S3|].
  split; [intros _; now apply S4|]. split; [exact Hr|].
  apply Forall_app. split; [exact Hh|]. apply Forall_app in S6. tauto.
Qed.

Lemma resume_gentle (st : State) (w : Worker) :
  shape w -> gentle st w (resume env st w).
Proof.
  intros Hs. pose proof Hs as (S1 & S2 & S3 & S4 & S5 & S6).
  unfold resume. destruct (w_handler w) as [|results|wr results|] eqn:Eh;
    try (now apply gentle_same).
  - (* in the loop *)
    assert (Hp : w_promise w <> Resolved) by (intros E; apply S5 in E; discriminate).
    cbn [handlerResults] in S6. apply Forall_app in S6 as [S6 _].
    destruct results as [|r rest].
    + apply gentle_worker_only; cbn [setWorker w_promise w_handler w_events w_round];
        try reflexivity; try discriminate; [|tauto].
      apply shape_handler; try congruence; try (constructor).
      destruct (w_promise w); cbn; congruence.
    + apply Forall_cons in S6 as [Hr Hrest].
      destruct (success r).
      * pose proof (markFileProcessedStart_effect env
                      (countSuccess st (default "undefined" (bin r))) (file r)) as He.
        cbv zeta in He.
        destruct (markFileProcessedStart env _ (file r)) as [st1 saving].
        cbn [fst snd] in He. destruct He as (E1 & E2 & E3).
        change (processedFiles (progress (countSuccess st (default "undefined" (bin r)))))
          with (processedFiles (progress st)) in E1.
        change (disk (countSuccess st (default "undefined" (bin r)))) with (disk st) in E2.
        unfold gentle. cbn [fst snd setWorker w_promise w_handler w_events w_round].
        split.
        { apply shape_handler; try congruence.
          destruct saving; cbn [handlerResults]; exact Hrest. }
        split; [reflexivity|]. split; [tauto|]. split; [now left|].
        split.
        { destruct E1 as [E1|E1].
          - exists []. rewrite List.app_nil_r. split; [exact E1|].
            split; [constructor|congruence].
          - exists [file r]. split; [exact E1|]. split; [now repeat constructor|].
            intros _. exact Hp. }
        intros content n rest' E. right.
        destruct saving as [wr|]; [|discriminate].
        destruct (E3 wr eq_refl) as (content' & n' & -> & E4).
        injection E as <- _ _. exact E4.
      * apply gentle_worker_only; cbn [setWorker w_promise w_handler w_events w_round];
          try reflexivity; try discriminate; [|tauto].
        apply shape_handler; try congruence. exact Hrest.
  - (* suspended at the save *)
    assert (Hp : w_promise w <> Resolved) by (intros E; apply S5 in E; discriminate).
    cbn [handlerResults] in S6. apply Forall_app in S6 as [S6 _].
    destruct wr as [content n|ok]; [now apply gentle_same|].
    apply gentle_worker_only; cbn [setWorker w_promise w_handler w_events w_round];
      try reflexivity; try discriminate; [|tauto| |].
    + apply shape_handler; try congruence. exact S6.
    + unfold markFileProcessedEnd, saveEnd. now destruct ok.
    + unfold markFileProcessedEnd, saveEnd. now destruct ok.
Qed.

Lemma landWorker_gentle (st : State) (w : Worker) :
  shape w -> gentle st w (landWorker env st w).
Proof.
  intros Hs. pose proof Hs as (S1 & S2 & S3 & S4 & S5 & S6).
  unfold landWorker. destruct (w_handler w) as [|results|wr results|] eqn:Eh;
    try (now apply gentle_same).
  assert (Hp : w_promise w <> Resolved) by (intros E; apply S5 in E; discriminate).
  cbn [handlerResults] in S6. apply Forall_app in S6 as [S6 _].
  destruct wr as [content n|ok].
  - destruct (land_effect env st content n (writes_ok n)) as (E1 & E2 & E3).
    destruct (land env st (InFlight content n)) as [st1 wr1]. cbn [fst snd] in *. subst wr1.
    unfold gentle. cbn [fst snd setWorker w_promise w_handler w_events w_round].
    split; [apply shape_handler; try congruence; exact S6|].
    split; [reflexivity|]. split; [tauto|].
    split; [right; now exists content, n, results|].
    split.
    + exists []. rewrite List.app_nil_r, E1. split; [reflexivity|].
      split; [constructor|congruence].
    + intros content' n' rest E. discriminate.
  - cbn [land]. apply gentle_worker_only;
      cbn [setWorker w_promise w_handler w_events w_round];
      try reflexivity; try discriminate; [|tauto].
    apply shape_handler; try congruence. exact S6.
Qed.

Definition mainClause (pc : MainPc) (st : State) : Prop :=
  match pc with
  | SavingRound _ (InFlight content _) | SavingFinal (InFlight content _) =>
    missing (checkpointNames (FileJson content)) st = []
  | SavingRound _ (Landed _) | SavingFinal (Landed _) | Returned => lostWork st = []
  | AwaitingRound _ => True
  end.

(** When every worker created so far is resolved, no handler can touch the
    completed set or the checkpoint. *)
Lemma inv_resolved (st : State) (pc : MainPc) (ws : list Worker) :
  Forall shape ws -> Forall (fun w => w_promise w = Resolved) ws ->
  lostWork st ⊆ itemsInProgress env files (mkConfig st pc ws) ->
  mainClause pc st ->
  inv (mkConfig st pc ws).
Proof.
  intros Hs Hr Hl Hm. unfold inv. cbn [mem mainPc workers].
  split; [exact Hs|]. split; [|split; [exact Hl|split; [|exact Hm]]].
  - eapply Forall_impl; [exact Hr|]. intros w E Hn. now rewrite E in Hn.
  - apply Forall_forall. intros w Hw content n rest Eh.
    pose proof (proj1 (Forall_forall _ _) Hs w Hw) as (_ & _ & _ & _ & S5 & _).
    pose proof (proj1 (Forall_forall _ _) Hr w Hw) as E.
    rewrite (S5 E) in Eh. discriminate.
Qed.

Lemma inv_all_resolved (c : Config) :
  inv c -> (forall i, mainPc c <> AwaitingRound i) ->
  Forall (fun w => w_promise w = Resolved) (workers c).
Proof.
  intros (_ & Hround & _) Hpc. eapply Forall_impl; [exact Hround|].
  intros w H. destruct (w_promise w) eqn:E; [|reflexivity|];
    specialize (H ltac:(rewrite E; discriminate)); now apply Hpc in H.
Qed.

Lemma landMain_inv (c : Config) : inv c -> inv (landMain env c).
Proof.
  intros Hi. pose proof Hi as (Hshape & Hround & Hlost & Hfly & Hmain).
  unfold landMain. destruct (mainPc c) as [i|i wr|wr|] eqn:Epc; try exact Hi.
  - assert (Hres := inv_all_resolved c Hi ltac:(rewrite Epc; discriminate)).
    destruct wr as [content n|ok].
    + destruct (land_effect env (mem c) content n (writes_ok n)) as (E1 & E2 & E3).
      destruct (land env (mem c) (InFlight content n)) as [st1 wr1].
      cbn [fst snd] in *. subst wr1.
      assert (El : lostWork st1 = []).
      { rewrite lostWork_missing, E2. unfold missing. rewrite E1. exact Hmain. }
      apply inv_resolved; try assumption.
      rewrite El. intros x Hx. now apply elem_of_nil in Hx.
    + cbn [land]. apply inv_resolved; try assumption.
      rewrite Hmain. intros x Hx. now apply elem_of_nil in Hx.
  - assert (Hres := inv_all_resolved c Hi ltac:(rewrite Epc; discriminate)).
    destruct wr as [content n|ok].
    + destruct (land_effect env (mem c) content n (writes_ok n)) as (E1 & E2 & E3).
      destruct (land env (mem c) (InFlight content n)) as [st1 wr1].
      cbn [fst snd] in *. subst wr1.
      assert (El : lostWork st1 = []).
      { rewrite lostWork_missing, E2. unfold missing. rewrite E1. exact Hmain. }
      apply inv_resolved; try assumption.
      rewrite El. intros x Hx. now apply elem_of_nil in Hx.
    + cbn [land]. apply inv_resolved; try assumption.
      rewrite Hmain. intros x Hx. now apply elem_of_nil in Hx.
Qed.

Lemma enterRound_inv (i : nat) (st : State) (ws : list Worker) :
  Forall shape ws -> Forall (fun w => w_promise w = Resolved) ws ->
  lostWork st = [] ->
  inv (enterRound env files i st ws).
Proof.
  intros Hs Hr Hl. unfold enterRound. destruct (i <? List.length files)%nat.
  - unfold inv. cbn [mem mainPc workers].
    split; [apply Forall_app; split; [exact Hs|apply spawn_shape]|].
    split.
    { apply Forall_app. split.
      - eapply Forall_impl; [exact Hr|]. intros w E Hn. now rewrite E in Hn.
      - eapply Forall_impl; [apply spawn_round|]. intros w (E & _) _. now rewrite E. }
    split; [rewrite Hl; intros x Hx; now apply elem_of_nil in Hx|].
    split; [|exact I].
    apply Forall_app. split.
    + apply Forall_forall. intros w Hw content n rest Eh.
      pose proof (proj1 (Forall_forall _ _) Hs w Hw) as (_ & _ & _ & _ & S5 & _).
      pose proof (proj1 (Forall_forall _ _) Hr w Hw) as E.
      rewrite (S5 E) in Eh. discriminate.
    + eapply Forall_impl; [apply spawn_round|]. intros w (_ & _ & E) content n rest Eh.
      rewrite E in Eh. discriminate.
  - destruct (saveStart_effect env st) as (E1 & E2 & content & E3 & E4).
    destruct (saveStart env st) as [st1 w]. cbn [fst snd] in *. subst w.
    assert (El : lostWork st1 = []).
    { rewrite lostWork_missing, E2. unfold missing. rewrite E1. exact Hl. }
    apply inv_resolved; try assumption.
    + rewrite El. intros x Hx. now apply elem_of_nil in Hx.
    + cbn [mainClause]. apply missing_nil. now rewrite E4, E1.
Qed.

Lemma no_rejection (i : nat) (ws : list Worker) :
  Forall shape ws -> anyRejected (promisesOf i ws) = false.
Proof.
  intros Hs. unfold anyRejected, promisesOf.
  destruct (List.existsb _ _) eqn:E; [|reflexivity].
  apply List.existsb_exists in E. destruct E as [s [Hin Hs']].
  apply List.in_map_iff in Hin. destruct Hin as [w [<- Hw]].
  apply List.filter_In in Hw. destruct Hw as [Hw _].
  apply list_elem_of_In in Hw.
  pose proof (proj1 (Forall_forall _ _) Hs w Hw) as (S1 & _).
  destruct (w_promise w); try discriminate. now destruct S1.
Qed.

Lemma saveEnd_effect (st : State) (ok : bool) :
  processedFiles (progress (saveEnd st ok)) = processedFiles (progress st)
  /\ disk (saveEnd st ok) = disk st.
Proof. unfold saveEnd. now destruct ok. Qed.

Lemma lostWork_same (st st1 : State) :
  processedFiles (progress st1) = processedFiles (progress st) -> disk st1 = disk st ->
  lostWork st1 = lostWork st.
Proof. intros E1 E2. rewrite !lostWork_missing, E2. unfold missing. now rewrite E1. Qed.

Lemma mainStep_inv (c : Config) : inv c -> inv (mainStep env files c).
Proof.
  intros Hi. pose proof Hi as (Hshape & Hround & Hlost & Hfly & Hmain).
  unfold mainStep. destruct (mainPc c) as [i|i wr|wr|] eqn:Epc; try exact Hi.
  - rewrite (no_rejection i (workers c) Hshape).
    destruct (allResolved (promisesOf i (workers c))) eqn:Ea; [|exact Hi].
    assert (Hres : Forall (fun w => w_promise w = Resolved) (workers c)).
    { apply Forall_forall. intros w Hw.
      pose proof (proj1 (Forall_forall _ _) Hround w Hw) as Hrw. cbv beta in Hrw.
      destruct (w_promise w) eqn:Ep; [|reflexivity|]; exfalso.
      - specialize (Hrw ltac:(discriminate)). injection Hrw as Hrw.
        unfold allResolved in Ea.
        rewrite List.forallb_forall in Ea. specialize (Ea Pending).
        assert (Hin : In Pending (promisesOf i (workers c))).
        { unfold promisesOf. apply List.in_map_iff. exists w. split; [exact Ep|].
          apply List.filter_In. split; [now apply list_elem_of_In|].
          apply Nat.eqb_eq. now symmetry. }
        apply Ea in Hin. discriminate.
      - pose proof (proj1 (Forall_forall _ _) Hshape w Hw) as (S1 & _). now apply S1. }
    destruct (saveStart_effect env (mem c)) as (E1 & E2 & content & E3 & E4).
    destruct (saveStart env (mem c)) as [st1 w]. cbn [fst snd] in *. subst w.
    apply inv_resolved; try assumption.
    + rewrite (lostWork_same (mem c) st1 E1 E2).
      unfold itemsInProgress in *. cbn [mainPc]. now rewrite Epc in Hlost.
    + cbn [mainClause]. apply missing_nil. now rewrite E4, E1.
  - destruct wr as [content n|ok]; [exact Hi|].
    assert (Hres := inv_all_resolved c Hi ltac:(rewrite Epc; discriminate)).
    destruct (saveEnd_effect (mem c) ok) as [E1 E2].
    apply enterRound_inv; try assumption.
    now rewrite (lostWork_same (mem c) _ E1 E2).
  - destruct wr as [content n|ok]; [exact Hi|].
    assert (Hres := inv_all_resolved c Hi ltac:(rewrite Epc; discriminate)).
    destruct (saveEnd_effect (mem c) ok) as [E1 E2].
    apply inv_resolved; try assumption.
    + rewrite (lostWork_same (mem c) _ E1 E2), Hmain.
      intros x Hx. now apply elem_of_nil in Hx.
    + cbn [mainClause]. now rewrite (lostWork_same (mem c) _ E1 E2).
Qed.

Lemma step_inv (a : Action) (c : Config) : inv c -> inv (step env files a c).
Proof.
  intros Hi. destruct a as [k|k|k| |]; cbn [step].
  - apply onWorker_inv; [|exact Hi]. intros w _ Hs. now apply deliver_gentle.
  - apply onWorker_inv; [|exact Hi]. intros w _ Hs. now apply resume_gentle.
  - apply onWorker_inv; [|exact Hi]. intros w _ Hs. now apply landWorker_gentle.
  - now apply landMain_inv.
  - now apply mainStep_inv.
Qed.

Lemma run_inv (schedule : list Action) (c : Config) :
  inv c -> inv (run env files schedule c).
Proof.
  revert c. induction schedule as [|a schedule IH]; intros c Hi; [exact Hi|].
  cbn [run List.fold_left]. apply IH. now apply step_inv.
Qed.

Lemma start_inv (st : State) : lostWork st = [] -> inv (start env files st).
Proof. intros H. apply enterRound_inv; [constructor|constructor|exact H]. Qed.

End RoundsThatResolve.

(** *** Runs with workers that fail: the run goes on *)

Definition settles (ev : WorkerEvent) : bool :=
  match ev with EvExit code => negb (code =? 0)%Z | _ => true end.

(** A worker whose promise is pending has its handler at work or an event
    to come that settles the promise. *)
Definition lively (w : Worker) : Prop :=
  w_promise w = Pending ->
  active (w_handler w) = true \/ List.existsb settles (w_events w) = true.

Lemma spawn_lively (env : Env) (files : list string) (i : nat) :
  Forall lively (spawn env files i).
Proof.
  unfold spawn. apply Forall_forall. intros w Hw.
  apply list_elem_of_In, List.in_map_iff in Hw. destruct Hw as [[startIdx batch] [<- _]].
  intros _. right. cbn [w_events fst snd]. unfold workerEvents.
  destruct (env_fate env startIdx); reflexivity.
Qed.

Lemma deliver_lively (st : State) (w : Worker) : lively w -> lively (snd (deliver st w)).
Proof.
  unfold lively, deliver. intros H.
  destruct (w_events w) as [|ev rest] eqn:Ev; [cbn [snd]; rewrite Ev; exact H|].
  destruct ev as [[results|message stack]|err|code];
    cbn [snd setWorker w_promise w_handler w_events active].
  - intros _. now left.
  - destruct (w_promise w); discriminate.
  - destruct (w_promise w); discriminate.
  - destruct (code =? 0)%Z eqn:Ec; cbn [snd setWorker w_promise w_handler w_events].
    + intros Hp. specialize (H Hp). cbn [List.existsb settles] in H.
      rewrite Ec in H. exact H.
    + destruct (w_promise w); discriminate.
Qed.

Lemma resume_lively (env : Env) (st : State) (w : Worker) :
  lively w -> lively (snd (resume env st w)).
Proof.
  unfold lively, resume. intros H.
  destruct (w_handler w) as [|[|r rest]|[content n|ok] rest|] eqn:Eh;
    cbn [snd]; try (rewrite Eh; exact H).
  - cbn [setWorker w_promise]. destruct (w_promise w); discriminate.
  - destruct (success r).
    + destruct (markFileProcessedStart env _ (file r)) as [st1 [wr|]];
        cbn [snd setWorker w_promise w_handler active]; intros _; now left.
    + cbn [snd setWorker w_promise w_handler active]. intros _. now left.
  - cbn [setWorker w_promise w_handler active]. intros _. now left.
Qed.

Lemma landWorker_lively (env : Env) (st : State) (w : Worker) :
  lively w -> lively (snd (landWorker env st w)).
Proof.
  unfold lively, landWorker. intros H.
  destruct (w_handler w) as [|results|wr rest|] eqn:Eh; cbn [snd]; try (rewrite Eh; exact H).
  destruct (land env st wr) as [st1 wr1].
  cbn [snd setWorker w_promise w_handler active]. intros _. now left.
Qed.

Lemma onWorker_lively (f : State -> Worker -> State * Worker) (k : nat) (c : Config) :
  (forall st w, lively w -> lively (snd (f st w))) ->
  Forall lively (workers c) -> Forall lively (workers (onWorker f k c)).
Proof.
  intros Hf H. unfold onWorker. destruct (workers c !! k) as [w|] eqn:Hk; [|exact H].
  specialize (Hf (mem c) w). destruct (f (mem c) w) as [st1 w1]. cbn [workers snd] in *.
  apply Forall_insert; [exact H|]. apply Hf.
  exact (proj1 (Forall_forall _ _) H w (list_elem_of_lookup_2 _ _ _ Hk)).
Qed.

Lemma enterRound_lively (env : Env) (files : list string) (i : nat) (st : State)
    (ws : list Worker) :
  Forall lively ws -> Forall lively (workers (enterRound env files i st ws)).
Proof.
  intros H. unfold enterRound. destruct (i <? List.length files)%nat.
  - cbn [workers]. apply Forall_app. split; [exact H|apply spawn_lively].
  - destruct (saveStart env st). exact H.
Qed.

Lemma step_lively (env : Env) (files : list string) (a : Action) (c : Config) :
  Forall lively (workers c) -> Forall lively (workers (step env files a c)).
Proof.
  intros H. destruct a as [k|k|k| |]; cbn [step].
  - apply onWorker_lively; [apply deliver_lively|exact H].
  - apply onWorker_lively; [apply resume_lively|exact H].
  - apply onWorker_lively; [apply landWorker_lively|exact H].
  - unfold landMain. destruct (mainPc c) as [i|i wr|wr|]; try exact H;
      destruct (land env (mem c) wr); exact H.
  - unfold mainStep. destruct (mainPc c) as [i|i [content n|ok]|[content n|ok]|];
      try exact H.
    + destruct (anyRejected _); [now apply enterRound_lively|].
      destruct (allResolved _); [|exact H]. destruct (saveStart env (mem c)). exact H.
    + now apply enterRound_lively.
Qed.

Lemma run_lively (env : Env) (files : list string) (schedule : list Action) (c : Config) :
  Forall lively (workers c) -> Forall lively (workers (run env files schedule c)).
Proof.
  revert c. induction schedule as [|a schedule IH]; intros c H; [exact H|].
  cbn [run List.fold_left]. apply IH. now apply step_lively.
Qed.

Lemma start_lively (env : Env) (files : list string) (st : State) :
  Forall lively (workers (start env files st)).
Proof. apply enterRound_lively. constructor. Qed.

(** *** The work left in a run *)

Definition eventWork (ev : WorkerEvent) : nat :=
  match ev with EvMessage (MResults results) => 2 + 3 * List.length results | _ => 1 end.

Definition handlerWork (h : HandlerPc) : nat :=
  match h with
  | Running results => 1 + 3 * List.length results
  | Saving (InFlight _ _) results => 3 + 3 * List.length results
  | Saving (Landed _) results => 2 + 3 * List.length results
  | NotStarted | Finished => 0
  end.

Definition workerWork (w : Worker) : nat :=
  list_sum (List.map eventWork (w_events w)) + handlerWork (w_handler w).

(** A bound on the steps of one round. *)
Definition roundWork (env : Env) : nat := MAX_WORKERS env * (3 * BATCH_SIZE + 4) + 5.

Definition mainWork (env : Env) (files : list string) (pc : MainPc) : nat :=
  match pc with
  | AwaitingRound i => (List.length files - i) * roundWork env + 5
  | SavingRound i (InFlight _ _) => (List.length files - i) * roundWork env + 4
  | SavingRound i (Landed _) => (List.length files - i) * roundWork env + 3
  | SavingFinal (InFlight _ _) => 2
  | SavingFinal (Landed _) => 1
  | Returned => 0
  end.

Definition workLeft (env : Env) (files : list string) (c : Config) : nat :=
  mainWork env files (mainPc c) + list_sum (List.map workerWork (workers c)).

Lemma deliver_work (st : State) (w : Worker) :
  match w_events w with
  | [] => deliver st w = (st, w)
  | _ :: _ => workerWork (snd (deliver st w)) < workerWork w
  end.
Proof.
  unfold deliver, workerWork. destruct (w_events w) as [|ev rest]; [reflexivity|].
  destruct ev as [[results|message stack]|err|code];
    try destruct (code =? 0)%Z;
    cbn [snd setWorker w_events w_handler List.map list_sum List.fold_right eventWork handlerWork]; lia.
Qed.

Lemma resume_work (env : Env) (st : State) (w : Worker) :
  match w_handler w with
  | Running _ | Saving (Landed _) _ => workerWork (snd (resume env st w)) < workerWork w
  | _ => resume env st w = (st, w)
  end.
Proof.
  unfold resume, workerWork.
  destruct (w_handler w) as [|[|r rest]|[content n|ok] rest|]; try reflexivity.
  - cbn [snd setWorker w_events w_handler handlerWork List.length]. lia.
  - destruct (success r).
    + destruct (markFileProcessedStart_effect env
                  (countSuccess st (default "undefined" (bin r))) (file r)) as (_ & _ & Hw).
      destruct (markFileProcessedStart env _ (file r)) as [st1 [wr|]];
        cbn [fst snd setWorker w_events w_handler handlerWork List.length] in *; [|lia].
      destruct (Hw wr eq_refl) as (content & n & -> & _).
      cbn [handlerWork]. lia.
    + cbn [snd setWorker w_events w_handler handlerWork List.length]. lia.
  - cbn [snd setWorker w_events w_handler handlerWork]. lia.
Qed.

Lemma landWorker_work (env : Env) (st : State) (w : Worker) :
  match w_handler w with
  | Saving (InFlight _ _) _ => workerWork (snd (landWorker env st w)) < workerWork w
  | _ => landWorker env st w = (st, w)
  end.
Proof.
  unfold landWorker, workerWork.
  destruct (w_handler w) as [|results|[content n|ok] rest|] eqn:Eh; try reflexivity.
  - unfold land. destruct (env_write_ok env n);
      cbn [snd setWorker w_events w_handler handlerWork]; lia.
  - cbn [land]. destruct w. cbn in *. now subst.
Qed.

Lemma list_sum_insert {A : Type} (g : A -> nat) (l : list A) (k : nat) (x y : A) :
  l !! k = Some x ->
  list_sum (List.map g (<[k := y]> l)) + g x = list_sum (List.map g l) + g y.
Proof.
  revert k. induction l as [|a l IH]; intros k Hk; [discriminate|].
  destruct k as [|k].
  - cbn in Hk. injection Hk as ->.
    change (g y + list_sum (List.map g l) + g x = g x + list_sum (List.map g l) + g y).
    lia.
  - specialize (IH k Hk).
    change (g a + list_sum (List.map g (<[k := y]> l)) + g x
            = g a + list_sum (List.map g l) + g y).
    lia.
Qed.

(** A step of a worker with less work left leaves less work in the run;
    one that changes nothing leaves the configuration as it is. *)
Lemma onWorker_same (f : State -> Worker -> State * Worker) (k : nat) (c : Config) :
  (forall w, workers c !! k = Some w -> f (mem c) w = (mem c, w)) ->
  onWorker f k c = c.
Proof.
  intros H. unfold onWorker. destruct (workers c !! k) as [w|] eqn:Hk; [|reflexivity].
  rewrite (H w eq_refl), (list_insert_id _ _ _ Hk). now destruct c.
Qed.

Lemma onWorker_less (env : Env) (files : list string)
    (f : State -> Worker -> State * Worker) (k : nat) (c : Config) (w : Worker) :
  workers c !! k = Some w ->
  workerWork (snd (f (mem c) w)) < workerWork w ->
  workLeft env files (onWorker f k c) < workLeft env files c.
Proof.
  intros Hk H. unfold onWorker, workLeft. rewrite Hk.
  destruct (f (mem c) w) as [st1 w1]. cbn [snd mainPc workers] in *.
  pose proof (list_sum_insert workerWork (workers c) k w w1 Hk). lia.
Qed.

Lemma batch_length (env : Env) (files : list string) (i startIdx : nat)
    (batch : list string) :
  In (startIdx, batch) (roundBatches env files i) -> List.length batch <= BATCH_SIZE.
Proof.
  unfold roundBatches. intros H. apply List.in_map_iff in H.
  destruct H as [w [[= <- <-] _]].
  rewrite PartitionProofs.slice_batch, length_take. lia.
Qed.

Lemma roundBatches_length (env : Env) (files : list string) (i : nat) :
  List.length (roundBatches env files i) <= MAX_WORKERS env.
Proof.
  unfold roundBatches. rewrite length_map.
  etransitivity; [apply List.filter_length_le|]. now rewrite length_seq.
Qed.

Lemma list_sum_bound {A : Type} (g : A -> nat) (l : list A) (bound count : nat) :
  List.length l <= count -> (forall x, In x l -> g x <= bound) ->
  list_sum (List.map g l) <= count * bound.
Proof.
  revert count. induction l as [|a l IH]; intros count Hl Hg.
  - cbn. lia.
  - destruct count as [|count]; [cbn in Hl; lia|].
    specialize (IH count ltac:(cbn in Hl; lia) (fun x Hx => Hg x (or_intror Hx))).
    specialize (Hg a (or_introl eq_refl)).
    change (g a + list_sum (List.map g l) <= bound + count * bound). lia.
Qed.

Lemma spawn_work (env : Env) (files : list string) (i : nat) :
  list_sum (List.map workerWork (spawn env files i)) + 5 <= roundWork env.
Proof.
  unfold roundWork, spawn. rewrite List.map_map.
  pose proof (list_sum_bound
                (fun b => workerWork (mkWorker i (fst b) (snd b)
                                        (workerEvents env (fst b) (snd b)) NotStarted Pending))
                (roundBatches env files i) (3 * BATCH_SIZE + 4) (MAX_WORKERS env)
                (roundBatches_length env files i)) as H.
  cbv beta in H. apply Nat.add_le_mono_r. apply H.
  intros [startIdx batch] Hin. apply batch_length in Hin.
  unfold workerWork, workerEvents. cbn [fst snd w_events w_handler handlerWork].
  destruct (env_fate env startIdx);
    cbn [List.map list_sum List.fold_right eventWork workerProcess];
    rewrite ?length_map; lia.
Qed.

Lemma enterRound_work (env : Env) (files : list string) (i : nat) (st : State)
    (ws : list Worker) (before : nat) :
  (List.length files - i) * roundWork env + 3 <= before ->
  workLeft env files (enterRound env files (i + BATCH_SIZE * MAX_WORKERS env) st ws)
  < before + list_sum (List.map workerWork ws).
Proof.
  intros Hb. unfold enterRound, workLeft.
  assert (Hs : 1 <= BATCH_SIZE * MAX_WORKERS env).
  { pose proof (PartitionProofs.MAX_WORKERS_pos env). unfold BATCH_SIZE. lia. }
  revert Hs. generalize (BATCH_SIZE * MAX_WORKERS env) as stride. intros stride Hs.
  pose proof (spawn_work env files (i + stride)) as Hsp.
  destruct (i + stride <? List.length files)%nat eqn:E.
  - apply Nat.ltb_lt in E. cbn [mainPc workers mainWork].
    rewrite List.map_app, list_sum_app.
    assert (Hd : List.length files - i = (List.length files - (i + stride)) + stride)
      by lia.
    rewrite Hd in Hb. clear Hd E. revert Hsp Hb.
    generalize (list_sum (List.map workerWork (spawn env files (i + stride)))).
    generalize (list_sum (List.map workerWork ws)).
    generalize (List.length files - (i + stride)) as d.
    generalize (roundWork env) as R. intros R d a b Hsp Hb. nia.
  - destruct (saveStart env st) as [st1 w] eqn:Es.
    unfold saveStart in Es. injection Es as <- <-.
    cbn [mainPc workers mainWork]. revert Hb.
    generalize (list_sum (List.map workerWork ws)).
    generalize ((List.length files - i) * roundWork env). intros x a Hb. lia.
Qed.

Lemma mainStep_work (env : Env) (files : list string) (c : Config) :
  mainStep env files c = c
  \/ workLeft env files (mainStep env files c) < workLeft env files c.
Proof.
  unfold mainStep. destruct (mainPc c) as [i|i [content n|ok]|[content n|ok]|] eqn:Epc;
    try (now left).
  - destruct (anyRejected _).
    + right. unfold workLeft at 2. rewrite Epc. cbn [mainWork].
      apply enterRound_work. lia.
    + destruct (allResolved _); [|now left]. right.
      unfold saveStart, workLeft. rewrite Epc. cbn [mainPc workers mainWork]. lia.
  - right. unfold workLeft at 2. rewrite Epc. cbn [mainWork].
    apply enterRound_work. lia.
  - right. unfold workLeft. rewrite Epc. cbn [mainPc workers mainWork]. lia.
Qed.

Lemma landMain_work (env : Env) (files : list string) (c : Config) :
  landMain env c = c \/ workLeft env files (landMain env c) < workLeft env files c.
Proof.
  unfold landMain. destruct (mainPc c) as [i|i [content n|ok]|[content n|ok]|] eqn:Epc;
    try (now left).
  - right. unfold land, workLeft. rewrite Epc.
    destruct (env_write_ok env n); cbn [mainPc workers mainWork]; lia.
  - left. cbn [land]. destruct c. cbn in *. now subst.
  - right. unfold land, workLeft. rewrite Epc.
    destruct (env_write_ok env n); cbn [mainPc workers mainWork]; lia.
  - left. cbn [land]. destruct c. cbn in *. now subst.
Qed.

(** Every step that changes the configuration leaves less work. *)
Lemma step_work (env : Env) (files : list string) (a : Action) (c : Config) :
  step env files a c = c
  \/ workLeft env files (step env files a c) < workLeft env files c.
Proof.
  destruct a as [k|k|k| |]; cbn [step];
    [| | |apply landMain_work|apply mainStep_work];
    destruct (workers c !! k) as [w|] eqn:Hk;
    try (left; apply onWorker_same; intros w' Hw'; congruence).
  - pose proof (deliver_work (mem c) w) as H. destruct (w_events w).
    + left. apply onWorker_same. intros w' Hw'. congruence.
    + right. now apply onWorker_less with w.
  - pose proof (resume_work env (mem c) w) as H.
    destruct (w_handler w) as [|results|[content n|ok] rest|];
      try (left; apply onWorker_same; intros w' Hw'; congruence);
      right; now apply onWorker_less with w.
  - pose proof (landWorker_work env (mem c) w) as H.
    destruct (w_handler w) as [|results|[content n|ok] rest|];
      try (left; apply onWorker_same; intros w' Hw'; congruence);
      right; now apply onWorker_less with w.
Qed.

(** *** A run is never stuck before its end *)

Lemma busy_worker_moves (env : Env) (files : list string) (c : Config) (k : nat)
    (w : Worker) :
  workers c !! k = Some w -> idle w = false ->
  exists a, workLeft env files (step env files a c) < workLeft env files c.
Proof.
  intros Hk Hi.
  pose proof (deliver_work (mem c) w) as Hd.
  pose proof (resume_work env (mem c) w) as Hr.
  pose proof (landWorker_work env (mem c) w) as Hl.
  unfold idle in Hi.
  destruct (w_handler w) as [|results|[content n|ok] rest|].
  - destruct (w_events w); [discriminate|].
    exists (Deliver k). now apply onWorker_less with w.
  - exists (Resume k). now apply onWorker_less with w.
  - exists (LandWorker k). now apply onWorker_less with w.
  - exists (Resume k). now apply onWorker_less with w.
  - destruct (w_events w); [discriminate|].
    exists (Deliver k). now apply onWorker_less with w.
Qed.

Lemma find_busy (ws : list Worker) :
  List.forallb idle ws = false -> exists k w, ws !! k = Some w /\ idle w = false.
Proof.
  induction ws as [|w ws IH]; [discriminate|]. cbn [List.forallb].
  destruct (idle w) eqn:E; cbn [andb].
  - intros H. destruct (IH H) as (k & w' & Hk & Hw). now exists (S k), w'.
  - intros _. now exists 0, w.
Qed.

Lemma pending_in_round (i : nat) (ws : list Worker) :
  anyRejected (promisesOf i ws) = false -> allResolved (promisesOf i ws) = false ->
  exists k w, ws !! k = Some w /\ w_promise w = Pending.
Proof.
  unfold anyRejected, allResolved, promisesOf.
  induction ws as [|w ws IH]; [discriminate|]. cbn [List.filter].
  destruct (w_round w =? i)%nat.
  - cbn [List.map List.existsb List.forallb].
    destruct (w_promise w) eqn:Ep; cbn [orb andb].
    + intros _ _. now exists 0, w.
    + intros H1 H2. destruct (IH H1 H2) as (k & w' & Hk & Hw). now exists (S k), w'.
    + discriminate.
  - intros H1 H2. destruct (IH H1 H2) as (k & w' & Hk & Hw). now exists (S k), w'.
Qed.

Lemma lively_pending_busy (w : Worker) :
  lively w -> w_promise w = Pending -> idle w = false.
Proof.
  intros H Hp. unfold idle. destruct (H Hp) as [Ha|He].
  - rewrite Ha. now destruct (w_events w).
  - destruct (w_events w); [discriminate|reflexivity].
Qed.

(** As long as the main function has not returned, or a worker has
    something left to do, some step leaves less work. *)
Lemma can_move (env : Env) (files : list string) (c : Config) :
  Forall lively (workers c) ->
  mainPc c <> Returned \/ List.forallb idle (workers c) = false ->
  exists a, workLeft env files (step env files a c) < workLeft env files c.
Proof.
  intros Hl [Hpc|Hbusy].
  2:{ destruct (find_busy _ Hbusy) as (k & w & Hk & Hw).
      now apply busy_worker_moves with k w. }
  pose proof (mainStep_work env files c) as Hm.
  pose proof (landMain_work env files c) as Hd.
  unfold mainStep in Hm. unfold landMain in Hd.
  destruct (mainPc c) as [i|i [content n|ok]|[content n|ok]|] eqn:Epc.
  - destruct (anyRejected (promisesOf i (workers c))) eqn:Er.
    + exists MainStep. cbn [step]. unfold mainStep. rewrite Epc, Er.
      destruct Hm as [Hm|Hm]; [|exact Hm]. exfalso.
      apply (f_equal mainPc) in Hm. rewrite Epc in Hm. unfold enterRound in Hm.
      destruct (_ <? _)%nat; [|destruct (saveStart env _); discriminate].
      cbn [mainPc] in Hm. injection Hm as Hm.
      pose proof (PartitionProofs.MAX_WORKERS_pos env). unfold BATCH_SIZE in Hm. lia.
    + destruct (allResolved (promisesOf i (workers c))) eqn:Ea.
      * exists MainStep. cbn [step]. unfold mainStep. rewrite Epc, Er, Ea.
        destruct Hm as [Hm|Hm]; [|exact Hm]. exfalso.
        apply (f_equal mainPc) in Hm. rewrite Epc in Hm.
        destruct (saveStart env (mem c)). discriminate.
      * destruct (pending_in_round i (workers c) Er Ea) as (k & w & Hk & Hp).
        apply busy_worker_moves with k w; [exact Hk|].
        apply lively_pending_busy; [|exact Hp].
        exact (proj1 (Forall_forall _ _) Hl w (list_elem_of_lookup_2 _ _ _ Hk)).
  - exists LandMain. cbn [step]. unfold landMain. rewrite Epc.
    destruct Hd as [Hd|Hd]; [|exact Hd]. exfalso.
    apply (f_equal mainPc) in Hd. rewrite Epc in Hd.
    unfold land in Hd. destruct (env_write_ok env n); discriminate.
  - exists MainStep. cbn [step]. unfold mainStep. rewrite Epc.
    destruct Hm as [Hm|Hm]; [|exact Hm]. exfalso.
    apply (f_equal mainPc) in Hm. rewrite Epc in Hm. unfold enterRound in Hm.
    destruct (_ <? _)%nat; [|destruct (saveStart env _); discriminate]. discriminate.
  - exists LandMain. cbn [step]. unfold landMain. rewrite Epc.
    destruct Hd as [Hd|Hd]; [|exact Hd]. exfalso.
    apply (f_equal mainPc) in Hd. rewrite Epc in Hd.
    unfold land in Hd. destruct (env_write_ok env n); discriminate.
  - exists MainStep. cbn [step]. unfold mainStep. rewrite Epc.
    destruct Hm as [Hm|Hm]; [|exact Hm]. exfalso.
    apply (f_equal mainPc) in Hm. rewrite Epc in Hm. discriminate.
  - now destruct Hpc.
Qed.

(** The batches of the workers created so far, end to end, are the files
    up to the end of the round in progress. *)
Definition created (env : Env) (files : list string) (c : Config) : Prop :=
  List.concat (List.map w_fileBatch (workers c))
  = match mainPc c with
    | AwaitingRound i | SavingRound i _ => take (i + BATCH_SIZE * MAX_WORKERS env) files
    | SavingFinal _ | Returned => files
    end.

Lemma spawn_batches (env : Env) (files : list string) (i : nat) :
  List.concat (List.map w_fileBatch (spawn env files i)) = roundItems env files i.
Proof.
  unfold spawn. rewrite List.map_map. cbn [w_fileBatch].
  apply PartitionProofs.roundBatches_concat.
Qed.

Lemma enterRound_created (env : Env) (files : list string) (i : nat) (st : State)
    (ws : list Worker) :
  List.concat (List.map w_fileBatch ws) = take i files ->
  created env files (enterRound env files i st ws).
Proof.
  intros H. unfold created, enterRound.
  destruct (i <? List.length files)%nat eqn:E.
  - cbn [workers mainPc]. rewrite List.map_app, List.concat_app, H, spawn_batches.
    unfold roundItems, Partition.slice.
    replace (i + BATCH_SIZE * MAX_WORKERS env - i) with (BATCH_SIZE * MAX_WORKERS env) by lia.
    apply take_take_drop.
  - apply Nat.ltb_ge in E. destruct (saveStart env st). cbn [workers mainPc].
    rewrite H. now apply take_ge.
Qed.

Lemma onWorker_batches (f : State -> Worker -> State * Worker) (k : nat) (c : Config) :
  (forall st w, w_fileBatch (snd (f st w)) = w_fileBatch w) ->
  List.map w_fileBatch (workers (onWorker f k c)) = List.map w_fileBatch (workers c)
  /\ mainPc (onWorker f k c) = mainPc c.
Proof.
  intros Hf. unfold onWorker. destruct (workers c !! k) as [w|] eqn:Hk; [|now split].
  specialize (Hf (mem c) w). destruct (f (mem c) w) as [st1 w1]. cbn [workers mainPc snd] in *.
  split; [|reflexivity].
  change (w_fileBatch <$> <[k:=w1]> (workers c) = w_fileBatch <$> workers c).
  rewrite list_fmap_insert, Hf. apply list_insert_id. now rewrite list_lookup_fmap, Hk.
Qed.

Lemma step_created (env : Env) (files : list string) (a : Action) (c : Config) :
  created env files c -> created env files (step env files a c).
Proof.
  intros H. unfold created in *. destruct a as [k|k|k| |]; cbn [step].
  - destruct (onWorker_batches deliver k c) as [E1 E2]; [|now rewrite E1, E2].
    intros st w. unfold deliver. destruct (w_events w) as [|[[]| |code] rest]; try reflexivity.
    now destruct (code =? 0)%Z.
  - destruct (onWorker_batches (resume env) k c) as [E1 E2]; [|now rewrite E1, E2].
    intros st w. unfold resume.
    destruct (w_handler w) as [|[|r rest]|[content n|ok] rest|]; try reflexivity.
    destruct (success r); [|reflexivity].
    now destruct (markFileProcessedStart env _ (file r)).
  - destruct (onWorker_batches (landWorker env) k c) as [E1 E2]; [|now rewrite E1, E2].
    intros st w. unfold landWorker. destruct (w_handler w); try reflexivity.
    now destruct (land env st w0).
  - unfold landMain. destruct (mainPc c) as [i|i wr|wr|] eqn:Epc;
      try (rewrite Epc; exact H);
      destruct (land env (mem c) wr); exact H.
  - unfold mainStep. destruct (mainPc c) as [i|i [content n|ok]|[content n|ok]|] eqn:Epc;
      try (rewrite Epc; exact H).
    + destruct (anyRejected _); [now apply enterRound_created|].
      destruct (allResolved _); [|rewrite Epc; exact H].
      destruct (saveStart env (mem c)). exact H.
    + now apply enterRound_created.
    + exact H.
Qed.

Lemma run_created (env : Env) (files : list string) (schedule : list Action) (c : Config) :
  created env files c -> created env files (run env files schedule c).
Proof.
  revert c. induction schedule as [|a schedule IH]; intros c H; [exact H|].
  cbn [run List.fold_left]. apply IH. now apply step_created.
Qed.

Lemma start_created (env : Env) (files : list string) (st : State) :
  created env files (start env files st).
Proof. apply enterRound_created. reflexivity. Qed.

(** From every configuration the run can be brought to its end: the main
    function has returned and no worker has anything left to do. *)
Lemma run_can_end (env : Env) (files : list string) (bound : nat) :
  forall c, workLeft env files c < bound -> Forall lively (workers c) ->
    exists schedule,
      mainPc (run env files schedule c) = Returned
      /\ List.forallb idle (workers (run env files schedule c)) = true.
Proof.
  induction bound as [|bound IH]; intros c Hb Hl; [lia|].
  destruct (mainPc c) eqn:Epc.
  1-3: destruct (can_move env files c Hl) as [a Ha]; [left; rewrite Epc; discriminate|];
       destruct (IH (step env files a c) ltac:(lia) (step_lively env files a c Hl))
         as (schedule & H1 & H2);
       exists (a :: schedule); now split.
  destruct (List.forallb idle (workers c)) eqn:Ei.
  - exists []. now split.
  - destruct (can_move env files c Hl) as [a Ha]; [now right|].
    destruct (IH (step env files a c) ltac:(lia) (step_lively env files a c Hl))
      as (schedule & H1 & H2).
    exists (a :: schedule). now split.
Qed.

(** C8, amended.  On the event loop, under every schedule of the handlers,
    the writes and the main function, whatever the workers do.  The handler
    of an error event, and that of an error a worker reports by message,
    print the error and add the length of the batch to [errors]; the
    handler of an exit with a non-zero code prints the code and adds
    nothing; the first two and the last reject, resp. resolve, the promise
    of the worker unless it is settled, and none touches the progress
    object, the success counter or the checkpoint.  When a promise of the
    round awaited is rejected, the main function prints the error of the
    round and goes on at once, to the next round or to the final save,
    while other workers of the round may not have reported.  As long as the
    main function has not returned some step changes the configuration,
    every step that changes it leaves less work to do, and the run can be
    brought to its end from wherever it is: the main function returns
    after the final save, no worker has anything left to do, and the
    batches of the workers created are all the files to process. *)
Theorem worker_failure_is_logged_and_run_continues
    (env : Env) (files : list string) (st0 : State) (schedule : list Action) :
  let c := run env files schedule (start env files st0) in
  let stride := BATCH_SIZE * MAX_WORKERS env in
  (forall st w ev rest,
      w_events w = ev :: rest ->
      let st' := fst (deliver st w) in
      let w' := snd (deliver st w) in
      match ev with
      | EvError err =>
        errors st' = errors st + List.length (w_fileBatch w)
        /\ console st' = console st ++ [LWorkerCrash err]
        /\ w_promise w' = settle (w_promise w) Rejected
        /\ progress st' = progress st /\ processed st' = processed st
        /\ disk st' = disk st
      | EvMessage (MError message _) =>
        errors st' = errors st + List.length (w_fileBatch w)
        /\ console st' = console st ++ [LWorkerError message]
        /\ w_promise w' = settle (w_promise w) Resolved
        /\ progress st' = progress st /\ processed st' = processed st
        /\ disk st' = disk st
      | EvExit code =>
        code <> 0%Z ->
        errors st' = errors st
        /\ console st' = console st ++ [LWorkerExit code]
        /\ w_promise w' = settle (w_promise w) Rejected
        /\ progress st' = progress st /\ processed st' = processed st
        /\ disk st' = disk st
      | EvMessage (MResults _) => True
      end)
  /\ (forall i,
         mainPc c = AwaitingRound i ->
         anyRejected (promisesOf i (workers c)) = true ->
         let c' := step env files MainStep c in
         console (mem c') = console (mem c) ++ [LBatchError]
         /\ errors (mem c') = errors (mem c)
         /\ if (i + stride <? List.length files)%nat
            then mainPc c' = AwaitingRound (i + stride)
                 /\ workers c' = workers c ++ spawn env files (i + stride)
            else (exists content n, mainPc c' = SavingFinal (InFlight content n))
                 /\ workers c' = workers c)
  /\ (mainPc c <> Returned -> exists a, step env files a c <> c)
  /\ (forall a, step env files a c = c
                \/ workLeft env files (step env files a c) < workLeft env files c)
  /\ (exists rest,
         let c' := run env files rest c in
         mainPc c' = Returned
         /\ List.forallb idle (workers c') = true
         /\ List.concat (List.map w_fileBatch (workers c')) = files).
Proof.
  intros c stride.
  assert (Hl : Forall lively (workers c)) by apply run_lively, start_lively.
  assert (Hc : created env files c) by apply run_created, start_created.
  split.
  { intros st w ev rest Ev st' w'. unfold st', w', deliver. rewrite Ev.
    destruct ev as [[results|message stack]|err|code]; [exact I| | |].
    - cbn [fst snd setWorker w_promise]. repeat split.
    - cbn [fst snd setWorker w_promise]. repeat split.
    - intros Hcode. apply Z.eqb_neq in Hcode. rewrite Hcode.
      cbn [fst snd setWorker w_promise]. repeat split. }
  split.
  { intros i Epc Er c'. unfold c'. cbn [step]. unfold mainStep. rewrite Epc, Er.
    unfold enterRound. fold stride.
    destruct (i + stride <? List.length files)%nat; [repeat split|].
    unfold saveStart. cbn [mem mainPc workers]. repeat split. eauto. }
  split.
  { intros Hpc. destruct (can_move env files c Hl (or_introl Hpc)) as [a Ha].
    exists a. intros E. rewrite E in Ha. lia. }
  split; [intros a; apply step_work|].
  destruct (run_can_end env files (S (workLeft env files c)) c ltac:(lia) Hl)
    as (rest & H1 & H2).
  exists rest. cbv zeta. split; [exact H1|]. split; [exact H2|].
  pose proof (run_created env files rest c Hc) as H. unfold created in H.
  now rewrite H1 in H.
Qed.

(** A hundred and one files on three cores: the second worker of the only
    round, with one file, raises an error event before the first has
    reported.  The main function prints the error of the round and starts
    the final save while the hundred results of the first worker are still
    to come. *)
Lemma error_event_ends_the_round_at_once :
  let files := List.map (fun n => String (ascii_of_nat (97 + n / 16))
                                   (String (ascii_of_nat (97 + n mod 16)) ".json"))
                 (List.seq 0 101) in
  let env := mkEnv (mkFs [] [] (fun _ _ => None)) 3
               (fun startIdx => if (startIdx =? 100)%nat then Crashes "out of memory"
                                else Completes)
               (fun _ => true) (fun _ => 0%Z) in
  let c := run env files [Deliver 1; MainStep]
             (start env files (enter (mkProgress [] []) FileAbsent 0 [])) in
  errors (mem c) = 1
  /\ console (mem c) = [LWorkerCrash "out of memory"; LBatchError]
  /\ (exists content, mainPc c = SavingFinal (InFlight content 0))
  /\ List.map w_handler (workers c) = [NotStarted; NotStarted]
  /\ List.map w_promise (workers c) = [Pending; Rejected]
  /\ List.map (fun w => List.length (w_events w)) (workers c) = [2; 1]
  /\ exists rest,
       mainPc (run env files rest c) = Returned
       /\ List.forallb idle (workers (run env files rest c)) = true.
Proof.
  intros files env c.
  pose proof (worker_failure_is_logged_and_run_continues env files
                (enter (mkProgress [] []) FileAbsent 0 []) [Deliver 1; MainStep]) as H.
  cbv zeta in H. destruct H as (_ & _ & _ & _ & rest & H1 & H2 & _).
  split; [vm_compute; reflexivity|].
  split; [vm_compute; reflexivity|].
  split; [eexists; vm_compute; reflexivity|].
  split; [vm_compute; reflexivity|].
  split; [vm_compute; reflexivity|].
  split; [vm_compute; reflexivity|].
  exists rest. split; [exact H1|exact H2].
Defined.

(** C8 as stated fails for a worker that exits with a non-zero code without
    an error event: its batch of one file adds nothing to [errors], and the
    run ends with both counters at zero. *)
Lemma abnormal_exit_is_not_counted :
  let fs := mkFs [["extension-dir"; "abcd.json"]] [["extension-dir"]] (fun _ _ => None) in
  let env := withBins (mkEnv fs 2 (fun _ => Exits 1) (fun _ => true) (fun _ => 0%Z)) in
  let files := filesToProcessOf env (mkProgress [] []) in
  let c0 := start env files (enter (mkProgress [] []) FileAbsent 0 []) in
  let c := run env files [Deliver 0; MainStep; LandMain; MainStep] c0 in
  files = ["abcd.json"]
  /\ List.map w_fileBatch (workers c0) = [["abcd.json"]]
  /\ List.map w_events (workers c0) = [[EvExit 1]]
  /\ mainPc c = Returned
  /\ List.forallb idle (workers c) = true
  /\ errors (mem c) = 0 /\ processed (mem c) = 0
  /\ console (mem c) = [LWorkerExit 1; LBatchError]
  /\ processedFiles (progress (mem c)) = [].
Proof.
  intros fs env files c0 c.
  split; [vm_compute; reflexivity|].
  split; [vm_compute; reflexivity|].
  split; [vm_compute; reflexivity|].
  vm_compute. repeat split.
Qed.

End EventLoopProofs.

(** ** drive-upload.js on the event loop

    The uploads of a batch finish in any order; [Promise.all] is rejected
    as soon as one upload has thrown, while the others of the batch go on;
    [saveProgress] writes the file before it returns. *)
Module UploadLoop.
Import Fs Upload.

(** Where [uploadDirectoryWithTransferManager] stands: the batch whose
    uploads were started last, the calls of [updateProgressAtomic] that end
    its uploads, the batches not started, and whether the function has left
    its loop, at its end or through the [catch]. *)
Record Config := mkConfig {
  ust : State;
  batch : list string;
  calls : list Call;
  todo : list (list string);
  leftLoop : bool }.

(** [processAndUploadFile] has thrown: the failure is counted and the flag
    released.  It has returned: the completion is recorded and the flag
    released. *)
Definition hasThrown (c : Call) : bool :=
  match update c, pc c with CountFailure, Released => true | _, _ => false end.

Definition hasReturned (c : Call) : bool :=
  match update c, pc c with MarkCompleted _, Released => true | _, _ => false end.

(** The test of the loop: the next batch is started, or the loop is left. *)
Definition nextBatch (env : Env) (st : State) (last : list string) (cs : list Call)
    (batches : list (list string)) : Config :=
  match batches with
  | [] => mkConfig st last cs [] true
  | b :: rest => mkConfig st b (callsOf env b) rest false
  end.

(** The function goes on from [await Promise.all(uploadPromises)]: to the
    [catch] when an upload has thrown, to [saveProgress] and the next batch
    when every upload has returned. *)
Definition mainStep (env : Env) (c : Config) : Config :=
  if leftLoop c then c
  else if List.existsb hasThrown (calls c)
  then mkConfig (mkState (shared (ust c)) (disk (ust c)) (writes (ust c))
                   (console (ust c) ++ [LTransferFailed]))
         (batch c) (calls c) (todo c) true
  else if List.forallb hasReturned (calls c)
  then nextBatch env (saveProgress env (ust c)) (batch c) (calls c) (todo c)
  else c.

Inductive Action :=
| Turn (i : nat)
| Main.

(** One step: a turn of the call of upload [i] of the batch, which can
    come after the function has left its loop too, or the function
    itself. *)
Definition step (env : Env) (a : Action) (c : Config) : Config :=
  match a with
  | Turn i =>
    let s := turn i (shared (ust c), calls c) in
    mkConfig (mkState (fst s) (disk (ust c)) (writes (ust c)) (console (ust c)))
      (batch c) (snd s) (todo c) (leftLoop c)
  | Main => mainStep env c
  end.

Definition run (env : Env) (schedule : list Action) (c : Config) : Config :=
  List.fold_left (fun c a => step env a c) schedule c.

Definition start (env : Env) (st : State) (batches : list (list string)) : Config :=
  nextBatch env st [] [] batches.

(** The completions in memory that the checkpoint does not hold. *)
Definition lostWork (st : State) : list string :=
  List.filter (fun f => negb (bool_decide (f ∈ checkpointNames (disk st))))
    (completedFiles (shared st)).

End UploadLoop.

Module UploadLoopProofs.
Import Fs Upload UploadProofs UploadLoop.

Lemma lostWork_spec (st : State) (f : string) :
  f ∈ lostWork st <-> f ∈ completedFiles (shared st) /\ f ∉ checkpointNames (disk st).
Proof.
  unfold lostWork. rewrite list_elem_of_In, List.filter_In, <- list_elem_of_In.
  rewrite negb_true_iff, bool_decide_eq_false. reflexivity.
Qed.

Lemma turn_added (i : nat) (sh : Shared) (cs : list Call) (x : string) :
  x ∈ completedFiles (fst (turn i (sh, cs))) ->
  x ∈ completedFiles sh \/ MarkCompleted x ∈ List.map update cs.
Proof.
  unfold turn. destruct (cs !! i) as [[u p]|] eqn:Hi; [|now left].
  assert (Hu : u ∈ List.map update cs).
  { apply list_elem_of_In, List.in_map_iff. exists (mkCall u p).
    split; [reflexivity|]. apply list_elem_of_In. eapply list_elem_of_lookup_2; eauto. }
  destruct p; cbn [fst]; [|now left|now left].
  destruct (mutex sh); cbn [fst]; [now left|].
  destruct u as [f|]; cbn [applyUpdate completedFiles setMutex]; [|now left].
  destruct (bool_decide _); [now left|].
  intros Hx. apply elem_of_app in Hx. destruct Hx as [Hx|Hx]; [now left|].
  apply list_elem_of_singleton in Hx. subst x. now right.
Qed.

Lemma callsOf_updates (env : Env) (b : list string) (x : string) :
  MarkCompleted x ∈ List.map update (callsOf env b) -> x ∈ b.
Proof.
  unfold callsOf. rewrite List.map_map. intros H.
  apply list_elem_of_In, List.in_map_iff in H. destruct H as [f [Hf Hin]].
  cbn [update] in Hf. destruct (env_upload_ok env f); [|discriminate].
  injection Hf as <-. now apply list_elem_of_In.
Qed.

Section WritesSucceed.
Variable env : Env.
Hypothesis writes_ok : forall n, env_write_ok env n = true.

(** The calls are those of the batch started last, and what the checkpoint
    lacks was uploaded in that batch. *)
Definition inv (c : Config) : Prop :=
  List.map update (calls c) = List.map update (callsOf env (batch c))
  /\ lostWork (ust c) ⊆ batch c.

Lemma nextBatch_inv (st : State) (last : list string) (cs : list Call)
    (batches : list (list string)) :
  lostWork st = [] ->
  List.map update cs = List.map update (callsOf env last) ->
  inv (nextBatch env st last cs batches).
Proof.
  intros Hl Hc. unfold nextBatch, inv.
  destruct batches as [|b rest]; cbn [ust calls batch]; rewrite Hl;
    (split; [auto|intros x Hx; now apply elem_of_nil in Hx]).
Qed.

Lemma saveProgress_lostWork (st : State) : lostWork (saveProgress env st) = [].
Proof.
  unfold saveProgress. rewrite writes_ok.
  destruct (lostWork _) as [|f l] eqn:E; [reflexivity|].
  assert (Hf : f ∈ lostWork
                     (mkState (shared st)
                        (FileJson (Json.JObj
                           [("completedFiles",
                             Json.JArr (List.map Json.JStr (completedFiles (shared st))))]))
                        (S (writes st)) (console st))) by (rewrite E; left).
  apply lostWork_spec in Hf. cbn [shared disk] in Hf.
  rewrite checkpointNames_saved in Hf. now destruct Hf.
Qed.

Lemma uploadStep_inv (a : Action) (c : Config) : inv c -> inv (step env a c).
Proof.
  intros [Hu Hl]. destruct a as [i|]; cbn [step].
  - unfold inv. cbn [ust calls batch]. split; [now rewrite updates_turn|].
    intros x Hx. apply lostWork_spec in Hx. cbn [shared disk] in Hx.
    destruct Hx as [Hx Hn]. apply turn_added in Hx. destruct Hx as [Hx|Hx].
    + apply Hl. apply lostWork_spec. now split.
    + rewrite Hu in Hx. now apply callsOf_updates in Hx.
  - unfold mainStep. destruct (leftLoop c); [now split|].
    destruct (List.existsb hasThrown (calls c)); [now split|].
    destruct (List.forallb hasReturned (calls c)); [|now split].
    apply nextBatch_inv; [apply saveProgress_lostWork|exact Hu].
Qed.

Lemma uploadRun_inv (schedule : list Action) (c : Config) : inv c -> inv (run env schedule c).
Proof.
  revert c. induction schedule as [|a schedule IH]; intros c H; [exact H|].
  cbn [run List.fold_left]. apply IH. now apply uploadStep_inv.
Qed.

(** The batch in progress is one of the batches of the run, or none when
    there is none. *)
Lemma batch_of_run (schedule : list Action) (st : State) (batches : list (list string)) :
  batch (run env schedule (start env st batches)) ∈ [] :: batches.
Proof.
  assert (H : forall c all,
             batch c ∈ [] :: all -> (forall b, b ∈ todo c -> b ∈ all) ->
             batch (run env schedule c) ∈ [] :: all).
  { induction schedule as [|a schedule IH]; intros c all Hb Ht; [exact Hb|].
    cbn [run List.fold_left]. apply IH.
    - destruct a as [i|]; cbn [step batch]; [exact Hb|].
      unfold mainStep. destruct (leftLoop c); [exact Hb|].
      destruct (List.existsb hasThrown (calls c)); [exact Hb|].
      destruct (List.forallb hasReturned (calls c)); [|exact Hb].
      unfold nextBatch. destruct (todo c) as [|b rest] eqn:E; [exact Hb|].
      cbn [batch]. right. apply Ht. left.
    - destruct a as [i|]; cbn [step todo]; [exact Ht|].
      unfold mainStep. destruct (leftLoop c); [exact Ht|].
      destruct (List.existsb hasThrown (calls c)); [exact Ht|].
      destruct (List.forallb hasReturned (calls c)); [|exact Ht].
      unfold nextBatch. destruct (todo c) as [|b rest] eqn:E; cbn [todo].
      + intros b' Hb'. now apply elem_of_nil in Hb'.
      + intros b' Hb'. apply Ht. now right. }
  apply H.
  - unfold start, nextBatch. destruct batches as [|b rest]; cbn [batch]; [left|right; left].
  - unfold start, nextBatch. destruct batches as [|b rest]; cbn [todo].
    + intros b Hb. now apply elem_of_nil in Hb.
    + intros b' Hb'. now right.
Qed.

(** The serial run of the loop: what the checkpoint lacks at its end was
    uploaded in the last batch started. *)
Lemma uploadLoop_lostWork (batches : list (list string)) :
  forall (st : State) (started : list (list string)),
    lostWork st = [] ->
    lostWork (fst (fst (uploadLoop env batches st started)))
    ⊆ List.last (snd (fst (uploadLoop env batches st started))) [].
Proof.
  induction batches as [|b rest IH]; intros st started Hl.
  - cbn [uploadLoop fst snd]. rewrite Hl. intros x Hx. now apply elem_of_nil in Hx.
  - cbn [uploadLoop]. destruct (batchRejects env b).
    + cbn [fst snd]. rewrite List.last_last. intros x Hx.
      apply lostWork_spec in Hx. cbn [shared disk runBatch] in Hx. destruct Hx as [Hx Hn].
      assert (Hin : x ∈ completedFiles (shared st)
                    \/ MarkCompleted x ∈ List.map update (callsOf env b)).
      { revert Hx. generalize (inOrder (List.length b)) as schedule.
        generalize (callsOf env b) as cs. generalize (shared st) as sh.
        intros sh cs schedule. revert sh cs.
        induction schedule as [|i schedule IHs]; intros sh cs Hx; [now left|].
        change (runSchedule (i :: schedule) (sh, cs))
          with (runSchedule schedule (turn i (sh, cs))) in Hx.
        destruct (turn i (sh, cs)) as [sh1 cs1] eqn:Et.
        destruct (IHs sh1 cs1 Hx) as [H|H].
        - apply (turn_added i sh cs). now rewrite Et.
        - right. rewrite <- (updates_turn i sh cs). now rewrite Et. }
      destruct Hin as [Hin|Hin]; [|now apply callsOf_updates in Hin].
      assert (Hf : x ∈ lostWork st) by (apply lostWork_spec; now split).
      rewrite Hl in Hf. now apply elem_of_nil in Hf.
    + apply IH. apply saveProgress_lostWork.
Qed.

End WritesSucceed.

End UploadLoopProofs.

(** ** Work lost when a run is interrupted *)
Module Interruption.
Import Fs.

(** C3, amended.  On the event loop, wherever a run is interrupted, under
    every schedule, a write being taken to replace the file as a whole when
    it is finished.  In partition-extensions.js, when every worker of the
    run reports by message and every write of the checkpoint succeeds: the
    completions that the checkpoint lacks are items of the round the main
    function is in, of which there are at most [BATCH_SIZE * MAX_WORKERS],
    and none when the loop is left; the text the save of a round hands to
    [writeFile] holds the whole completed set, which no handler extends
    before the write is finished; and once it is finished the checkpoint
    lacks nothing.  In drive-upload.js, when every write succeeds, whether
    uploads fail or not: the completions that the checkpoint lacks were
    uploaded in the batch started last, which has at most
    [MAX_CONCURRENT_UPLOADS] files; the same holds at the end of the run in
    which the uploads of a batch finish in the order of the batch. *)
Theorem loss_bounded_to_round_in_progress
    (env : Partition.Env) (disk0 : CheckpointFile) (now : Z) (p : Partition.Progress)
    (log : list Partition.LogLine) (schedule : list EventLoop.Action)
    (uenv : Upload.Env) (allFiles : list string) (udisk0 : CheckpointFile)
    (completed : list string) (ulog : list Upload.LogLine)
    (uschedule : list UploadLoop.Action) :
  Partition.everyWorkerReports env ->
  (forall n, Partition.env_write_ok env n = true) ->
  Partition.usable (fst (Partition.load disk0 now)) = Partition.UArrayOfNames p ->
  (forall n, Upload.env_write_ok uenv n = true) ->
  Upload.loadCompleted udisk0 = (Upload.CNames completed, ulog) ->
  let files := Partition.filesToProcessOf env p in
  let c := EventLoop.run env files schedule
             (EventLoop.start env files (Partition.enter p disk0 0 log)) in
  let filesToUpload := Upload.filesToUploadOf allFiles completed in
  let ust0 := Upload.mkState
                (Upload.mkShared 0 0 (List.length filesToUpload) completed false)
                udisk0 0 ulog in
  let uc := UploadLoop.run uenv uschedule
              (UploadLoop.start uenv ust0 (Upload.batchesOf filesToUpload)) in
  let serial := Upload.uploadLoop uenv (Upload.batchesOf filesToUpload) ust0 [] in
  Partition.lostWork (EventLoop.mem c) ⊆ EventLoop.itemsInProgress env files c
  /\ List.length (EventLoop.itemsInProgress env files c)
     <= Partition.BATCH_SIZE * Partition.MAX_WORKERS env
  /\ (forall i content n,
         EventLoop.mainPc c = EventLoop.SavingRound i (EventLoop.InFlight content n) ->
         Partition.processedFiles (Partition.progress (EventLoop.mem c))
           ⊆ Partition.checkpointNames (FileJson content))
  /\ (forall i ok,
         EventLoop.mainPc c = EventLoop.SavingRound i (EventLoop.Landed ok) ->
         Partition.lostWork (EventLoop.mem c) = [])
  /\ (forall w, EventLoop.mainPc c = EventLoop.SavingFinal w \/ EventLoop.mainPc c = EventLoop.Returned ->
         Partition.lostWork (EventLoop.mem c) = [])
  /\ UploadLoop.lostWork (UploadLoop.ust uc) ⊆ UploadLoop.batch uc
  /\ List.length (UploadLoop.batch uc) <= Upload.MAX_CONCURRENT_UPLOADS
  /\ UploadLoop.lostWork (fst (fst serial)) ⊆ List.last (snd (fst serial)) [].
Proof.
  intros Hr Hw Hu Huw Hul files c filesToUpload ust0 uc serial.
  assert (H0 : Partition.lostWork (Partition.enter p disk0 0 log) = []).
  { apply PartitionProofs.lostWork_nil_iff.
    change (Partition.processedFiles p ⊆ Partition.checkpointNames disk0).
    now rewrite (PartitionProofs.usable_names disk0 now p Hu). }
  pose proof (EventLoopProofs.run_inv env files Hr Hw schedule _
                (EventLoopProofs.start_inv env files Hr (Partition.enter p disk0 0 log) H0))
    as (_ & _ & Hlost & _ & Hmain).
  fold c in Hlost, Hmain.
  assert (U0 : UploadLoop.lostWork ust0 = []).
  { destruct (UploadLoop.lostWork ust0) as [|f l] eqn:E; [reflexivity|].
    assert (Hf : f ∈ UploadLoop.lostWork ust0) by (rewrite E; left).
    apply UploadLoopProofs.lostWork_spec in Hf. destruct Hf as [Hf Hn].
    unfold Upload.checkpointNames in Hn. cbn [Upload.disk ust0] in Hn.
    rewrite Hul in Hn. now destruct Hn. }
  split; [exact Hlost|].
  split.
  { unfold EventLoop.itemsInProgress.
    destruct (EventLoop.mainPc c); try apply PartitionProofs.roundItems_length;
      cbn; lia. }
  split.
  { intros i content n E. rewrite E in Hmain. now apply EventLoopProofs.missing_nil. }
  split; [intros i ok E; now rewrite E in Hmain|].
  split.
  { intros w [E|E]; unfold EventLoop.itemsInProgress in Hlost; rewrite E in Hlost;
      destruct (Partition.lostWork (EventLoop.mem c)) as [|f l]; try reflexivity;
      exfalso; apply (elem_of_nil f), Hlost; left. }
  split.
  { apply (UploadLoopProofs.uploadRun_inv uenv Huw uschedule).
    apply UploadLoopProofs.nextBatch_inv; [exact U0|reflexivity]. }
  split.
  { pose proof (UploadLoopProofs.batch_of_run uenv uschedule ust0
                  (Upload.batchesOf filesToUpload)) as Hb.
    fold uc in Hb. apply elem_of_cons in Hb. destruct Hb as [->|Hb]; [cbn; lia|].
    unfold Upload.batchesOf in Hb. apply list_elem_of_In, List.in_map_iff in Hb.
    destruct Hb as [k [<- _]]. rewrite length_take. lia. }
  now apply UploadLoopProofs.uploadLoop_lostWork.
Qed.

(** The two files of the example, cut after the first result is handled;
    two uploads, the second finishing first, cut before the save. *)
Lemma loss_bounded_to_round_in_progress_witness :
  let files := Partition.filesToProcessOf Engine.exampleBinsEnv (Partition.defaultProgress 0) in
  let c := EventLoop.run Engine.exampleBinsEnv files [EventLoop.Deliver 0; EventLoop.Resume 0]
             (EventLoop.start Engine.exampleBinsEnv files
                (Partition.enter (Partition.defaultProgress 0) FileAbsent 0 [])) in
  let uenv := Upload.mkEnv (fun _ => true) (fun _ => true) in
  let uc := UploadLoop.run uenv
              [UploadLoop.Turn 1; UploadLoop.Turn 1; UploadLoop.Turn 0]
              (UploadLoop.start uenv
                 (Upload.mkState (Upload.mkShared 0 0 2 [] false) FileAbsent 0 [])
                 (Upload.batchesOf ["a.json"; "b.json"])) in
  Partition.lostWork (EventLoop.mem c) = ["abcd.json"]
  /\ Partition.lostWork (EventLoop.mem c) ⊆ EventLoop.itemsInProgress Engine.exampleBinsEnv files c
  /\ UploadLoop.lostWork (UploadLoop.ust uc) = ["b.json"; "a.json"]
  /\ UploadLoop.lostWork (UploadLoop.ust uc) ⊆ UploadLoop.batch uc.
Proof.
  intros files c uenv uc.
  pose proof (loss_bounded_to_round_in_progress Engine.exampleBinsEnv FileAbsent 0
                (Partition.defaultProgress 0) []
                [EventLoop.Deliver 0; EventLoop.Resume 0]
                uenv ["a.json"; "b.json"] FileAbsent [] []
                [UploadLoop.Turn 1; UploadLoop.Turn 1; UploadLoop.Turn 0]
                (fun i => I) (fun n => eq_refl) eq_refl (fun n => eq_refl) eq_refl) as H.
  cbv zeta in H. destruct H as (H1 & _ & _ & _ & _ & H6 & _).
  split; [vm_compute; reflexivity|]. split; [exact H1|].
  split; [vm_compute; reflexivity|]. exact H6.
Defined.

(** C3 as stated fails when a worker fails as a whole: the save of the
    round is skipped.  Two hundred and fifty files on three cores, hence
    two workers a round; the copy of the first file fails, the first worker
    reports and its hundred results are handled, then the second worker
    raises an error event and the main function goes on to the second
    round.  Interrupted there, the run has no checkpoint, every write would
    have succeeded, and the 99 completions of the first round are done
    again by the next run, though the round in progress is the second. *)
Lemma crashed_round_loses_earlier_work :
  let env := Partition.withBins Engine.crashEnv in
  let files := Partition.filesToProcessOf env (Partition.defaultProgress 0) in
  let schedule := EventLoop.Deliver 0 :: List.repeat (EventLoop.Resume 0) 101
                  ++ [EventLoop.Deliver 1; EventLoop.MainStep] in
  let c := EventLoop.run env files schedule
             (EventLoop.start env files
                (Partition.enter (Partition.defaultProgress 0) FileAbsent 0 [])) in
  List.length files = 250
  /\ (forall n, Partition.env_write_ok env n = true)
  /\ EventLoop.mainPc c = EventLoop.AwaitingRound 200
  /\ List.map EventLoop.w_promise (EventLoop.workers c)
     = [Partition.Resolved; Partition.Rejected; Partition.Pending]
  /\ Partition.disk (EventLoop.mem c) = FileAbsent
  /\ List.length (Partition.lostWork (EventLoop.mem c)) = 99
  /\ Engine.nameOf 1 ∈ Partition.lostWork (EventLoop.mem c)
  /\ Engine.nameOf 1 ∈ Partition.roundItems env files 0
  /\ Engine.nameOf 1 ∉ EventLoop.itemsInProgress env files c.
Proof.
  intros env files schedule c.
  split; [vm_compute; reflexivity|].
  split; [reflexivity|].
  split; [vm_compute; reflexivity|].
  split; [vm_compute; reflexivity|].
  split; [vm_compute; reflexivity|].
  split; [vm_compute; reflexivity|].
  split; [apply (bool_decide_unpack _); vm_compute; exact I|].
  split; [apply (bool_decide_unpack _); vm_compute; exact I|].
  apply (proj1 (bool_decide_eq_false _)). vm_compute. reflexivity.
Qed.

End Interruption.

(** ** Further properties of partition-extensions.js *)
Module PartitionMore.
Import NodePath Fs Partition PartitionProofs.

Lemma counters_save (env : Env) (st : State) :
  processed (save env st) = processed st /\ errors (save env st) = errors st.
Proof. unfold save. destruct (env_write_ok _ _); split; reflexivity. Qed.

Lemma counters_markFileProcessed (env : Env) (st : State) (f : string) :
  processed (markFileProcessed env st f) = processed st
  /\ errors (markFileProcessed env st f) = errors st.
Proof.
  unfold markFileProcessed. destruct (negb _); [|split; reflexivity].
  destruct (_ =? 0)%nat; [|split; reflexivity].
  unfold logLine. cbn [processed errors].
  destruct (counters_save env (pushFile st f)) as [H1 H2]. now rewrite H1, H2.
Qed.
(** *** The completed set at the end of a run *)

(** The files [processFile] copies, among [files]. *)
Definition copied (env : Env) (files : list string) : list string :=
  List.filter (fun f => success (processFile (env_fs env) f)) files.

Lemma processedFiles_run_copied (env : Env) (steps : list Step) :
  forall st : State,
    Forall (stepFrom (env_fs env)) steps ->
    NoDup (handledFiles steps) ->
    (forall f, f ∈ handledFiles steps -> f ∉ processedFiles (progress st)) ->
    processedFiles (progress (List.fold_left (exec env) steps st))
    = processedFiles (progress st) ++ copied env (handledFiles steps).
Proof.
  induction steps as [|s steps IH]; intros st Hs Hd Hn.
  - simpl. now rewrite List.app_nil_r.
  - inversion Hs as [|s' steps' H1 H2]; subst.
    cbn [List.fold_left]. rewrite IH; [|exact H2| |].
    + rewrite processedFiles_exec, <- List.app_assoc. f_equal.
      destruct s as [r| | | | | |]; try reflexivity.
      cbn [added handledFiles List.flat_map stepFiles List.app copied List.filter].
      simpl in H1. rewrite <- H1.
      unfold isFileProcessed. rewrite bool_decide_eq_false_2.
      * destruct (success r); reflexivity.
      * apply Hn. left.
    + destruct s; try exact Hd. now inversion Hd.
    + intros f Hf. rewrite processedFiles_exec. intros Hin.
      apply elem_of_app in Hin. destruct Hin as [Hin|Hin].
      * apply (Hn f); [|exact Hin].
        unfold handledFiles. cbn [List.flat_map]. apply elem_of_app. now right.
      * destruct s as [r| | | | | |]; simpl in Hin; try (now apply elem_of_nil in Hin).
        destruct (_ && _); [|now apply elem_of_nil in Hin].
        apply list_elem_of_singleton in Hin. subst f.
        cbn [handledFiles List.flat_map stepFiles List.app] in Hd.
        inversion Hd as [|x l Hx Hl]; subst. apply Hx. exact Hf.
Qed.

(** The results of a list of steps that are successes. *)
Definition successSteps (steps : list Step) : list string :=
  List.flat_map (fun s => match s with
                          | StResult r => if success r then [file r] else []
                          | _ => []
                          end) steps.

Lemma processed_exec (env : Env) (st : State) (s : Step) :
  processed (exec env st s) = processed st + List.length (successSteps [s]).
Proof.
  destruct s as [r| n m | n e | code | | |]; cbn [exec successSteps List.flat_map List.app].
  - unfold handleResult. destruct (success r).
    + rewrite (proj1 (counters_markFileProcessed env _ (file r))).
      unfold countSuccess. cbn [processed]. simpl. lia.
    + unfold addErrors, logLine. cbn [processed]. simpl. lia.
  - unfold addErrors, logLine. cbn [processed]. simpl. lia.
  - unfold addErrors, logLine. cbn [processed]. simpl. lia.
  - destruct (code =? 0)%Z; unfold logLine; cbn [processed]; simpl; lia.
  - rewrite (proj1 (counters_save env st)). simpl. lia.
  - unfold logLine. cbn [processed]. simpl. lia.
  - rewrite (proj1 (counters_save env st)). simpl. lia.
Qed.

Lemma successSteps_cons (s : Step) (steps : list Step) :
  successSteps (s :: steps) = successSteps [s] ++ successSteps steps.
Proof. unfold successSteps. cbn [List.flat_map]. now rewrite List.app_nil_r. Qed.

Lemma processed_run (env : Env) (steps : list Step) :
  forall st,
    processed (List.fold_left (exec env) steps st)
    = processed st + List.length (successSteps steps).
Proof.
  induction steps as [|s steps IH]; intros st; [simpl; lia|].
  cbn [List.fold_left]. rewrite IH, processed_exec, (successSteps_cons s steps).
  rewrite length_app. lia.
Qed.

Lemma successSteps_copied (env : Env) (steps : list Step) :
  Forall (stepFrom (env_fs env)) steps ->
  successSteps steps = copied env (handledFiles steps).
Proof.
  induction 1 as [|s steps Hs _ IH]; [reflexivity|].
  rewrite (successSteps_cons s steps).
  change (handledFiles (s :: steps)) with (stepFiles s ++ handledFiles steps).
  unfold copied in *. rewrite List.filter_app, IH. f_equal.
  destruct s as [r| | | | | |]; try reflexivity.
  simpl in Hs. unfold successSteps. cbn [List.flat_map stepFiles List.filter List.app].
  rewrite <- Hs. destruct (success r); reflexivity.
Qed.

Lemma filesToProcessOf_fresh (env : Env) (p : Progress) (f : string) :
  f ∈ filesToProcessOf env p -> f ∈ jsonFilesOf env /\ f ∉ processedFiles p.
Proof.
  intros H. apply list_elem_of_In, List.filter_In in H. destruct H as [H1 H2].
  split; [now apply list_elem_of_In|].
  unfold isFileProcessed in H2. apply negb_true_iff, bool_decide_eq_false in H2. exact H2.
Qed.

Lemma run_all_complete (env : Env) (p : Progress) (d : CheckpointFile) (c : list LogLine) :
  existsSync (env_fs env) sourceDir = true ->
  (forall startIdx, env_fate env startIdx = Completes) ->
  NoDup (jsonFilesOf env) ->
  let st := partitionExtensionFiles env (enter p d 0 c) in
  processedFiles (progress st) = processedFiles p ++ copied env (filesToProcessOf env p)
  /\ processed st = List.length (copied env (filesToProcessOf env p)).
Proof.
  intros He Hc Hd st. unfold st, partitionExtensionFiles, partitionExtensionFilesUpTo.
  rewrite He. cbn [negb]. change (progress (enter p d 0 c)) with p.
  destruct (List.length (filesToProcessOf env p) =? 0)%nat eqn:E.
  - apply Nat.eqb_eq, length_zero_iff_nil in E. rewrite E.
    cbn [enter progress processed copied List.filter]. now rewrite List.app_nil_r.
  - pose proof (runSteps_from env (filesToProcessOf env p)) as Hf.
    pose proof (runSteps_handled_all env (filesToProcessOf env p) Hc) as Hh.
    split.
    + rewrite processedFiles_run_copied; rewrite ?Hh; try exact Hf.
      * reflexivity.
      * unfold filesToProcessOf. apply NoDup_ListNoDup, List.NoDup_filter.
        now apply NoDup_ListNoDup.
      * intros f Hin. now apply filesToProcessOf_fresh in Hin.
    + rewrite processed_run, (successSteps_copied env _ Hf), Hh. reflexivity.
Qed.

(** X3. When the source directory exists, every worker completes and the
    names of the directory are distinct, [partitionExtensionFiles] ends
    with a completed set made of the one it started from and of the files
    to process whose copy was made, each once, in some order, and
    [processed] counts them. *)
Theorem run_marks_exactly_the_copied_files
    (env : Env) (p : Progress) (d : CheckpointFile) (c : list LogLine) :
  existsSync (env_fs env) sourceDir = true ->
  (forall startIdx, env_fate env startIdx = Completes) ->
  NoDup (jsonFilesOf env) ->
  let st := partitionExtensionFiles env (enter p d 0 c) in
  processedFiles (progress st) ≡ₚ processedFiles p ++ copied env (filesToProcessOf env p)
  /\ processed st = List.length (copied env (filesToProcessOf env p)).
Proof.
  intros He Hc Hd st.
  destruct (run_all_complete env p d c He Hc Hd) as [H1 H2].
  split; [unfold st; now rewrite H1|exact H2].
Qed.

Lemma exampleBinsEnv_jsonFiles :
  jsonFilesOf Engine.exampleBinsEnv = ["abcd.json"; "zz.json"].
Proof. vm_compute. reflexivity. Qed.

Lemma exampleBinsEnv_NoDup : NoDup (jsonFilesOf Engine.exampleBinsEnv).
Proof.
  rewrite exampleBinsEnv_jsonFiles. apply (bool_decide_unpack _). vm_compute. exact I.
Qed.

Lemma run_marks_exactly_the_copied_files_witness :
  existsSync (env_fs Engine.exampleBinsEnv) sourceDir = true
  /\ (forall startIdx, env_fate Engine.exampleBinsEnv startIdx = Completes)
  /\ NoDup (jsonFilesOf Engine.exampleBinsEnv)
  /\ processed (partitionExtensionFiles Engine.exampleBinsEnv
                  (enter (defaultProgress 0) FileAbsent 0 []))
     = List.length (copied Engine.exampleBinsEnv
                      (filesToProcessOf Engine.exampleBinsEnv (defaultProgress 0))).
Proof.
  assert (He : existsSync (env_fs Engine.exampleBinsEnv) sourceDir = true)
    by (vm_compute; reflexivity).
  split; [exact He|]. split; [reflexivity|]. split; [exact exampleBinsEnv_NoDup|].
  exact (proj2 (run_marks_exactly_the_copied_files Engine.exampleBinsEnv (defaultProgress 0)
                  FileAbsent [] He (fun _ => eq_refl) exampleBinsEnv_NoDup)).
Defined.
(** *** A second run on the same files *)

Lemma disk_save_ok (env : Env) (st : State) :
  env_write_ok env (writes st) = true ->
  disk (save env st) = FileJson (toJson (progress (save env st))).
Proof. intros H. unfold save. now rewrite H. Qed.

(** The checkpoint a run leaves can be loaded by the next run, with the
    completed set of the memory. *)
Lemma checkpoint_after_run (env : Env) (disk0 : CheckpointFile) (now now2 : Z)
    (p : Progress) (c : list LogLine) :
  (forall n, env_write_ok env n = true) ->
  usable (fst (load disk0 now)) = UArrayOfNames p ->
  let st := partitionExtensionFiles env (enter p disk0 0 c) in
  exists q, usable (fst (load (disk st) now2)) = UArrayOfNames q
            /\ processedFiles q = processedFiles (progress st).
Proof.
  intros Hw Hu st.
  assert (Hsame : exists q, usable (fst (load disk0 now2)) = UArrayOfNames q
                            /\ processedFiles q = processedFiles p).
  { destruct disk0 as [|e|e|v]; simpl in *.
    - injection Hu as <-. eexists; split; reflexivity.
    - injection Hu as <-. eexists; split; reflexivity.
    - injection Hu as <-. eexists; split; reflexivity.
    - exists p. split; [exact Hu|reflexivity]. }
  unfold st, partitionExtensionFiles, partitionExtensionFilesUpTo.
  destruct (negb _); [exact Hsame|].
  destruct (_ =? 0)%nat; [exact Hsame|].
  unfold runSteps. rewrite List.fold_left_app. cbn [List.fold_left exec].
  rewrite disk_save_ok by apply Hw.
  apply resume_from_saved.
Qed.

Lemma filesToProcessOf_ext (env : Env) (p q : Progress) :
  processedFiles q = processedFiles p -> filesToProcessOf env q = filesToProcessOf env p.
Proof. intros H. unfold filesToProcessOf, isFileProcessed. now rewrite H. Qed.

Lemma copied_nil (env : Env) (files : list string) :
  (forall f, f ∈ files -> success (processFile (env_fs env) f) = false) ->
  copied env files = [].
Proof.
  intros H. induction files as [|f files IH]; [reflexivity|].
  unfold copied in *. cbn [List.filter]. rewrite (H f) by left.
  apply IH. intros g Hg. apply H. now right.
Qed.

Lemma second_run (env : Env) (disk0 : CheckpointFile) (now now2 : Z)
    (p : Progress) (c c2 : list LogLine) :
  existsSync (env_fs env) sourceDir = true ->
  (forall startIdx, env_fate env startIdx = Completes) ->
  (forall n, env_write_ok env n = true) ->
  NoDup (jsonFilesOf env) ->
  usable (fst (load disk0 now)) = UArrayOfNames p ->
  let st1 := partitionExtensionFiles env (enter p disk0 0 c) in
  exists q,
    usable (fst (load (disk st1) now2)) = UArrayOfNames q
    /\ let st2 := partitionExtensionFiles env (enter q (disk st1) 0 c2) in
       processedFiles (progress st2) = processedFiles (progress st1)
       /\ processed st2 = 0.
Proof.
  intros He Hc Hw Hd Hu st1.
  destruct (checkpoint_after_run env disk0 now now2 p c Hw Hu) as [q [Hq1 Hq2]].
  fold st1 in Hq1, Hq2. exists q. split; [exact Hq1|].
  destruct (run_all_complete env p disk0 c He Hc Hd) as [H1 _]. fold st1 in H1.
  destruct (run_all_complete env q (disk st1) c2 He Hc Hd) as [H2 H3].
  assert (Hnil : copied env (filesToProcessOf env q) = []).
  { apply copied_nil. intros f Hf.
    apply filesToProcessOf_fresh in Hf. destruct Hf as [Hj Hn].
    rewrite Hq2, H1 in Hn.
    destruct (success (processFile (env_fs env) f)) eqn:Es; [|reflexivity].
    exfalso. apply Hn. apply elem_of_app.
    destruct (decide (f ∈ processedFiles p)) as [Hp|Hp]; [now left|right].
    unfold copied. apply list_elem_of_In, List.filter_In. split; [|exact Es].
    unfold filesToProcessOf. apply List.filter_In. split; [now apply list_elem_of_In|].
    unfold isFileProcessed. now rewrite bool_decide_eq_false_2. }
  cbv zeta. rewrite H2, H3, Hnil, List.app_nil_r. split; [exact Hq2|reflexivity].
Qed.

(** X4. After a run of [partitionExtensionFiles] in which every worker
    completes and every write succeeds, a second run on the same directory
    loads the checkpoint of the first, marks no file and counts no success:
    the files it finds to process are those whose copy failed, and it fails
    again. *)
Theorem second_partition_run_adds_nothing
    (env : Env) (disk0 : CheckpointFile) (now now2 : Z) (p : Progress) (c c2 : list LogLine) :
  existsSync (env_fs env) sourceDir = true ->
  (forall startIdx, env_fate env startIdx = Completes) ->
  (forall n, env_write_ok env n = true) ->
  NoDup (jsonFilesOf env) ->
  usable (fst (load disk0 now)) = UArrayOfNames p ->
  let st1 := partitionExtensionFiles env (enter p disk0 0 c) in
  exists q,
    usable (fst (load (disk st1) now2)) = UArrayOfNames q
    /\ let st2 := partitionExtensionFiles env (enter q (disk st1) 0 c2) in
       processedFiles (progress st2) = processedFiles (progress st1)
       /\ processed st2 = 0.
Proof. exact (second_run env disk0 now now2 p c c2). Qed.

Lemma second_partition_run_adds_nothing_witness :
  existsSync (env_fs Engine.exampleBinsEnv) sourceDir = true
  /\ NoDup (jsonFilesOf Engine.exampleBinsEnv)
  /\ exists q,
       usable (fst (load (disk (partitionExtensionFiles Engine.exampleBinsEnv
                                  (enter (defaultProgress 0) FileAbsent 0 []))) 1))
       = UArrayOfNames q
       /\ processed (partitionExtensionFiles Engine.exampleBinsEnv
                       (enter q (disk (partitionExtensionFiles Engine.exampleBinsEnv
                                         (enter (defaultProgress 0) FileAbsent 0 []))) 0 []))
          = 0.
Proof.
  assert (He : existsSync (env_fs Engine.exampleBinsEnv) sourceDir = true)
    by (vm_compute; reflexivity).
  split; [exact He|]. split; [exact exampleBinsEnv_NoDup|].
  destruct (second_partition_run_adds_nothing Engine.exampleBinsEnv FileAbsent 0 1
              (defaultProgress 0) [] [] He (fun _ => eq_refl) (fun _ => eq_refl)
              exampleBinsEnv_NoDup eq_refl) as [q [Hq1 [_ Hq3]]].
  exists q. split; [exact Hq1|exact Hq3].
Defined.
(** *** The bin sizes *)

(** The sum of the sizes recorded in [binSizes]. *)
Definition binTotal (m : gmap string nat) : nat :=
  map_fold (fun _ v acc => v + acc) 0 m.

Lemma binTotal_bump (m : gmap string nat) (b : string) :
  binTotal (<[b := S (default 0 (m !! b))]> m) = S (binTotal m).
Proof.
  unfold binTotal. destruct (m !! b) as [v|] eqn:E; cbn [default].
  - rewrite <- insert_delete_eq.
    rewrite map_fold_insert_L; [|intros; lia|apply lookup_delete_eq].
    rewrite (map_fold_delete_L _ _ b v m); [cbv beta; unfold id; lia|intros; lia|exact E].
  - rewrite map_fold_insert_L; [cbv beta; unfold id; lia|intros; lia|exact E].
Qed.

Lemma binSizes_save (env : Env) (st : State) : binSizes (save env st) = binSizes st.
Proof. unfold save. destruct (env_write_ok _ _); reflexivity. Qed.

Lemma binSizes_markFileProcessed (env : Env) (st : State) (f : string) :
  binSizes (markFileProcessed env st f) = binSizes st.
Proof.
  unfold markFileProcessed. destruct (negb _); [|reflexivity].
  destruct (_ =? 0)%nat; [|reflexivity].
  unfold logLine. cbn [binSizes]. now rewrite binSizes_save.
Qed.

Lemma binTotal_exec (env : Env) (st : State) (s : Step) :
  binTotal (binSizes st) = processed st ->
  binTotal (binSizes (exec env st s)) = processed (exec env st s).
Proof.
  intros H. destruct s as [r| n m | n e | code | | |]; cbn [exec].
  - unfold handleResult. destruct (success r).
    + rewrite binSizes_markFileProcessed,
        (proj1 (counters_markFileProcessed env _ (file r))).
      unfold countSuccess. cbn [binSizes processed]. now rewrite binTotal_bump, H.
    + exact H.
  - exact H.
  - exact H.
  - destruct (code =? 0)%Z; exact H.
  - now rewrite binSizes_save, (proj1 (counters_save env st)).
  - exact H.
  - now rewrite binSizes_save, (proj1 (counters_save env st)).
Qed.

Lemma binTotal_run (env : Env) (steps : list Step) :
  forall st, binTotal (binSizes st) = processed st ->
             binTotal (binSizes (List.fold_left (exec env) steps st))
             = processed (List.fold_left (exec env) steps st).
Proof.
  induction steps as [|s steps IH]; intros st H; [exact H|].
  cbn [List.fold_left]. apply IH. now apply binTotal_exec.
Qed.

(** X8. At every point of a run of [partitionExtensionFiles] the sizes
    recorded in [binSizes] add up to the counter [processed]: the bin
    distribution printed at the end accounts for every file counted as
    processed, once. *)
Theorem bin_sizes_add_up_to_processed
    (k : option nat) (env : Env) (p : Progress) (d : CheckpointFile) (c : list LogLine) :
  binTotal (binSizes (partitionExtensionFilesUpTo k env (enter p d 0 c)))
  = processed (partitionExtensionFilesUpTo k env (enter p d 0 c)).
Proof.
  assert (H0 : binTotal (binSizes (enter p d 0 c)) = processed (enter p d 0 c)).
  { unfold binTotal, enter. cbn [binSizes processed]. apply map_fold_empty. }
  unfold partitionExtensionFilesUpTo.
  destruct (negb _); [exact H0|].
  destruct (_ =? 0)%nat; [exact H0|].
  now apply binTotal_run.
Qed.
(** *** What a run handles *)

Lemma handled_are_candidates (env : Env) (p : Progress) (f : string) :
  f ∈ handledFiles (runSteps env (filesToProcessOf env p)) ->
  f ∈ readdir (env_fs env) sourceDir /\ isJsonFile f = true /\ f ∉ processedFiles p.
Proof.
  intros H.
  apply (sublist_subseteq _ _ (runSteps_handled_sublist env _)) in H.
  destruct (filesToProcessOf_fresh env p f H) as [Hj Hn].
  apply list_elem_of_In, List.filter_In in Hj. destruct Hj as [Hj1 Hj2].
  split; [now apply list_elem_of_In|]. split; assumption.
Qed.

(** X9. A run only handles results of entries of the source directory that
    pass the JSON filter and that the checkpoint it started from does not
    hold; when the names of the directory are distinct it handles no file
    twice, however the workers end. *)
Theorem run_handles_only_fresh_json_files (env : Env) (p : Progress) :
  Forall (fun f => f ∈ readdir (env_fs env) sourceDir
                   /\ isJsonFile f = true
                   /\ f ∉ processedFiles p)
         (handledFiles (runSteps env (filesToProcessOf env p)))
  /\ (NoDup (readdir (env_fs env) sourceDir) ->
      NoDup (handledFiles (runSteps env (filesToProcessOf env p)))).
Proof.
  split.
  - apply Forall_forall. intros f Hf. now apply handled_are_candidates.
  - intros Hd.
    assert (Hf : NoDup (filesToProcessOf env p)).
    { unfold filesToProcessOf, jsonFilesOf.
      apply NoDup_ListNoDup, List.NoDup_filter, List.NoDup_filter. now apply NoDup_ListNoDup. }
    pose proof (runSteps_handled_sublist env (filesToProcessOf env p)) as Hs.
    eauto using sublist_NoDup.
Qed.

Lemma run_handles_only_fresh_json_files_witness :
  NoDup (readdir (env_fs Engine.exampleBinsEnv) sourceDir)
  /\ NoDup (handledFiles
              (runSteps Engine.exampleBinsEnv
                 (filesToProcessOf Engine.exampleBinsEnv (defaultProgress 0)))).
Proof.
  assert (Hd : NoDup (readdir (env_fs Engine.exampleBinsEnv) sourceDir)).
  { replace (readdir (env_fs Engine.exampleBinsEnv) sourceDir)
      with ["abcd.json"; "zz.json"] by (vm_compute; reflexivity).
    apply (bool_decide_unpack _). vm_compute. exact I. }
  split; [exact Hd|].
  exact (proj2 (run_handles_only_fresh_json_files Engine.exampleBinsEnv (defaultProgress 0))
           Hd).
Defined.
(** *** The extension id of a file named [<id>.json] *)

Section BasenameLoop.

Variable suffix : string.

Lemma suffix_loop_cons (i : Z) (code : ascii) (rest : list (Z * ascii)) (st : BaseState) :
  basename_suffix_loop suffix ((i, code) :: rest) st
  = if Ascii.eqb code CHAR_FORWARD_SLASH then
      if negb (b_matchedSlash st)
      then mkBase (i + 1) (b_end st) (b_matchedSlash st) (extIdx st) (firstNonSlashEnd st)
      else basename_suffix_loop suffix rest st
    else
      let st1 :=
        if (firstNonSlashEnd st =? -1)%Z
        then mkBase (b_start st) (b_end st) false (extIdx st) (i + 1)
        else st in
      let st2 :=
        if (0 <=? extIdx st1)%Z then
          if bool_decide (Some code = charCodeAt suffix (extIdx st1)) then
            if (extIdx st1 - 1 =? -1)%Z
            then mkBase (b_start st1) i (b_matchedSlash st1) (-1) (firstNonSlashEnd st1)
            else mkBase (b_start st1) (b_end st1) (b_matchedSlash st1)
                        (extIdx st1 - 1) (firstNonSlashEnd st1)
          else mkBase (b_start st1) (firstNonSlashEnd st1) (b_matchedSlash st1)
                      (-1) (firstNonSlashEnd st1)
        else st1 in
      basename_suffix_loop suffix rest st2.
Proof. reflexivity. Qed.

Lemma step_first (i : Z) (code : ascii) (rest : list (Z * ascii)) (s e k : Z) (ms : bool) :
  Ascii.eqb code CHAR_FORWARD_SLASH = false ->
  charCodeAt suffix k = Some code -> (0 < k)%Z ->
  basename_suffix_loop suffix ((i, code) :: rest) (mkBase s e ms k (-1))
  = basename_suffix_loop suffix rest (mkBase s e false (k - 1) (i + 1)).
Proof.
  intros Hc Hk Hpos. rewrite suffix_loop_cons, Hc.
  cbn [firstNonSlashEnd extIdx b_start b_end b_matchedSlash].
  rewrite Z.eqb_refl. cbv zeta. cbn [firstNonSlashEnd extIdx b_start b_end b_matchedSlash].
  replace (0 <=? k)%Z with true by (symmetry; apply Z.leb_le; lia).
  rewrite Hk, bool_decide_eq_true_2 by reflexivity.
  replace (k - 1 =? -1)%Z with false by (symmetry; apply Z.eqb_neq; lia).
  reflexivity.
Qed.

Lemma step_mid (i : Z) (code : ascii) (rest : list (Z * ascii)) (s e k fe : Z) (ms : bool) :
  Ascii.eqb code CHAR_FORWARD_SLASH = false ->
  charCodeAt suffix k = Some code -> (0 < k)%Z -> (fe <> -1)%Z ->
  basename_suffix_loop suffix ((i, code) :: rest) (mkBase s e ms k fe)
  = basename_suffix_loop suffix rest (mkBase s e ms (k - 1) fe).
Proof.
  intros Hc Hk Hpos Hfe. rewrite suffix_loop_cons, Hc.
  cbn [firstNonSlashEnd extIdx b_start b_end b_matchedSlash].
  replace (fe =? -1)%Z with false by (symmetry; apply Z.eqb_neq; lia).
  cbv zeta. cbn [firstNonSlashEnd extIdx b_start b_end b_matchedSlash].
  replace (0 <=? k)%Z with true by (symmetry; apply Z.leb_le; lia).
  rewrite Hk, bool_decide_eq_true_2 by reflexivity.
  replace (k - 1 =? -1)%Z with false by (symmetry; apply Z.eqb_neq; lia).
  reflexivity.
Qed.

Lemma step_last (i : Z) (code : ascii) (rest : list (Z * ascii)) (s e fe : Z) (ms : bool) :
  Ascii.eqb code CHAR_FORWARD_SLASH = false ->
  charCodeAt suffix 0 = Some code -> (fe <> -1)%Z ->
  basename_suffix_loop suffix ((i, code) :: rest) (mkBase s e ms 0 fe)
  = basename_suffix_loop suffix rest (mkBase s i ms (-1) fe).
Proof.
  intros Hc Hk Hfe. rewrite suffix_loop_cons, Hc.
  cbn [firstNonSlashEnd extIdx b_start b_end b_matchedSlash].
  replace (fe =? -1)%Z with false by (symmetry; apply Z.eqb_neq; lia).
  cbv zeta. cbn [firstNonSlashEnd extIdx b_start b_end b_matchedSlash].
  change (0 <=? 0)%Z with true. cbv iota.
  rewrite Hk, bool_decide_eq_true_2 by reflexivity.
  reflexivity.
Qed.

Lemma steps_skip (l : list (Z * ascii)) (s e fe : Z) (ms : bool) :
  Forall (fun ic => Ascii.eqb (snd ic) CHAR_FORWARD_SLASH = false) l ->
  (fe <> -1)%Z ->
  basename_suffix_loop suffix l (mkBase s e ms (-1) fe) = mkBase s e ms (-1) fe.
Proof.
  intros Hl Hfe. induction Hl as [|[i code] l Hc _ IH]; [reflexivity|].
  cbn [snd] in Hc. rewrite suffix_loop_cons, Hc.
  cbn [firstNonSlashEnd extIdx b_start b_end b_matchedSlash].
  replace (fe =? -1)%Z with false by (symmetry; apply Z.eqb_neq; lia).
  cbv zeta. cbn [firstNonSlashEnd extIdx b_start b_end b_matchedSlash].
  change (0 <=? -1)%Z with false. cbv iota. exact IH.
Qed.

End BasenameLoop.
Definition charsOf (s : string) : list ascii := list_ascii_of_string s.

(** The name has no path separator: it is the name of a directory entry. *)
Definition noSlash (s : string) : Prop :=
  Forall (fun c => Ascii.eqb c CHAR_FORWARD_SLASH = false) (charsOf s).

Lemma chars_append (a b : string) : charsOf (a +:+ b) = charsOf a ++ charsOf b.
Proof.
  unfold charsOf. induction a as [|c a IH]; [reflexivity|].
  simpl. f_equal. exact IH.
Qed.

Lemma chars_length (s : string) : List.length (charsOf s) = String.length s.
Proof.
  unfold charsOf. induction s as [|c s IH]; [reflexivity|].
  simpl. f_equal. exact IH.
Qed.

Lemma length_append (a b : string) :
  String.length (a +:+ b) = String.length a + String.length b.
Proof. induction a as [|c a IH]; [reflexivity|]. simpl. f_equal. exact IH. Qed.

Lemma substring_append_left (a b : string) :
  String.substring 0 (String.length a) (a +:+ b) = a.
Proof.
  induction a as [|c a IH]; simpl.
  - destruct b; reflexivity.
  - f_equal. exact IH.
Qed.

Lemma substring_append_right (a b : string) :
  String.substring (String.length a) (String.length b) (a +:+ b) = b.
Proof.
  induction a as [|c a IH]; simpl; [|exact IH].
  induction b as [|c b IHb]; [reflexivity|]. simpl. f_equal. exact IHb.
Qed.

Lemma combine_seq_app (a b : list ascii) (s : nat) :
  List.combine (List.map Z.of_nat (List.seq s (List.length (a ++ b)))) (a ++ b)
  = List.combine (List.map Z.of_nat (List.seq s (List.length a))) a
    ++ List.combine (List.map Z.of_nat (List.seq (s + List.length a) (List.length b))) b.
Proof.
  revert s. induction a as [|c a IH]; intros s.
  - cbn. now rewrite Nat.add_0_r.
  - cbn [List.app List.length List.seq List.map List.combine]. rewrite IH.
    now replace (S s + List.length a) with (s + S (List.length a)) by lia.
Qed.

Lemma indexed_from_end_append (a b : string) :
  indexed_from_end (a +:+ b)
  = List.rev (List.combine
                (List.map Z.of_nat (List.seq (String.length a) (String.length b))) (charsOf b))
    ++ indexed_from_end a.
Proof.
  unfold indexed_from_end. fold (charsOf (a +:+ b)). fold (charsOf a).
  rewrite chars_append, combine_seq_app, List.rev_app_distr.
  now rewrite !chars_length.
Qed.

Lemma indexed_from_end_noSlash (s : string) :
  noSlash s ->
  Forall (fun ic => Ascii.eqb (snd ic) CHAR_FORWARD_SLASH = false) (indexed_from_end s).
Proof.
  intros H. unfold indexed_from_end. cbv zeta.
  change (list_ascii_of_string s) with (charsOf s).
  apply Forall_rev. unfold noSlash in H.
  generalize (List.map Z.of_nat (List.seq 0 (List.length (charsOf s)))) as idx.
  induction H as [|c cs Hc _ IH]; intros idx.
  - destruct idx; constructor.
  - destruct idx as [|i idx]; [constructor|].
    cbn [List.combine]. constructor; [exact Hc|apply IH].
Qed.

Lemma basename_json (id : string) :
  id <> "" -> noSlash id -> basename (id +:+ ".json") ".json" = id.
Proof.
  intros Hne Hns. unfold basename.
  assert (Hlen : 0 < String.length id) by (destruct id; [congruence|cbn; lia]).
  rewrite length_append. change (String.length ".json") with 5.
  replace ((0 <? Z.of_nat 5) && (Z.of_nat 5 <=? Z.of_nat (String.length id + 5)))%Z
    with true by (symmetry; apply andb_true_iff; split;
                  [reflexivity|apply Z.leb_le; lia]).
  replace (String.eqb ".json" (id +:+ ".json")) with false.
  2:{ symmetry. apply String.eqb_neq. intros E.
      apply (f_equal String.length) in E. rewrite length_append in E. cbn in E. lia. }
  rewrite indexed_from_end_append.
  change (String.length ".json") with 5. change (charsOf ".json")
    with ["."%char; "j"%char; "s"%char; "o"%char; "n"%char].
  set (n := String.length id) in *.
  cbn [List.seq List.map List.combine List.rev List.app].
  change (Z.of_nat 5 - 1)%Z with 4%Z.
  rewrite (step_first ".json" _ "n"%char) by (reflexivity || lia).
  change (4 - 1)%Z with 3%Z.
  rewrite (step_mid ".json" _ "o"%char) by (reflexivity || lia).
  change (3 - 1)%Z with 2%Z.
  rewrite (step_mid ".json" _ "s"%char) by (reflexivity || lia).
  change (2 - 1)%Z with 1%Z.
  rewrite (step_mid ".json" _ "j"%char) by (reflexivity || lia).
  change (1 - 1)%Z with 0%Z.
  rewrite (step_last ".json" _ "."%char) by (reflexivity || lia).
  rewrite steps_skip by (try (now apply indexed_from_end_noSlash); lia).
  cbn [b_start b_end firstNonSlashEnd].
  replace (0 =? Z.of_nat n)%Z with false by (symmetry; apply Z.eqb_neq; lia).
  replace (Z.of_nat n =? -1)%Z with false by (symmetry; apply Z.eqb_neq; lia).
  unfold NodePath.slice. rewrite Z.sub_0_r, Nat2Z.id. change (Z.to_nat 0) with 0.
  apply substring_append_left.
Qed.
(** Once the loop of [path.extname] has seen the end of the name and a dot,
    characters that are no separator leave the three positions alone and
    set [preDotState] to 1 or -1. *)
Lemma extname_loop_after_dot (cs : list (Z * ascii)) (st : ExtState) :
  Forall (fun ic => Ascii.eqb (snd ic) CHAR_FORWARD_SLASH = false) cs ->
  startDot st <> (-1)%Z -> ext_end st <> (-1)%Z ->
  let st' := extname_loop cs st in
  startDot st' = startDot st /\ startPart st' = startPart st
  /\ ext_end st' = ext_end st
  /\ (preDotState st' = preDotState st \/ preDotState st' = 1%Z
      \/ preDotState st' = (-1)%Z)
  /\ (cs <> [] -> preDotState st' = 1%Z \/ preDotState st' = (-1)%Z).
Proof.
  intros H. revert st. induction H as [|[i c] cs Hc _ IH]; intros st Hd He.
  - cbn. repeat split; auto. congruence.
  - cbn [snd] in Hc. cbn [extname_loop]. rewrite Hc.
    apply Z.eqb_neq in Hd as Hd', He as He'. rewrite He'. cbv zeta.
    rewrite Hd'. cbn [negb].
    destruct (Ascii.eqb c CHAR_DOT).
    + destruct (negb (preDotState st =? 1)%Z) eqn:E1.
      * specialize (IH (mkExt (startDot st) (startPart st) (ext_end st)
                              (ext_matchedSlash st) 1) Hd He).
        cbv zeta in IH. cbn [startDot startPart ext_end preDotState] in IH.
        destruct IH as (A & B & C & D & _). repeat split; auto.
        -- destruct D as [D|[D|D]]; auto.
        -- intros _. destruct D as [D|[D|D]]; auto.
      * apply negb_false_iff, Z.eqb_eq in E1.
        specialize (IH st Hd He). cbv zeta in IH.
        destruct IH as (A & B & C & D & _). repeat split; auto.
        intros _. destruct D as [D|[D|D]]; auto. left. congruence.
    + specialize (IH (mkExt (startDot st) (startPart st) (ext_end st)
                            (ext_matchedSlash st) (-1)) Hd He).
      cbv zeta in IH. cbn [startDot startPart ext_end preDotState] in IH.
      destruct IH as (A & B & C & D & _). repeat split; auto.
      * destruct D as [D|[D|D]]; auto.
      * intros _. destruct D as [D|[D|D]]; auto.
Qed.

Lemma ext_step_first (i : Z) (c : ascii) (rest : list (Z * ascii))
    (sp pd : Z) (ms : bool) :
  Ascii.eqb c CHAR_FORWARD_SLASH = false -> Ascii.eqb c CHAR_DOT = false ->
  extname_loop ((i, c) :: rest) (mkExt (-1) sp (-1) ms pd)
  = extname_loop rest (mkExt (-1) sp (i + 1) false pd).
Proof. intros H1 H2. cbn [extname_loop]. rewrite H1. cbn. rewrite H2. reflexivity. Qed.

Lemma ext_step_plain (i : Z) (c : ascii) (rest : list (Z * ascii))
    (sp e pd : Z) (ms : bool) :
  Ascii.eqb c CHAR_FORWARD_SLASH = false -> Ascii.eqb c CHAR_DOT = false ->
  e <> (-1)%Z ->
  extname_loop ((i, c) :: rest) (mkExt (-1) sp e ms pd)
  = extname_loop rest (mkExt (-1) sp e ms pd).
Proof.
  intros H1 H2 He. cbn [extname_loop]. rewrite H1.
  cbn [ext_end]. apply Z.eqb_neq in He. rewrite He. cbv zeta. rewrite H2.
  reflexivity.
Qed.

Lemma ext_step_dot (i : Z) (rest : list (Z * ascii)) (sp e pd : Z) (ms : bool) :
  e <> (-1)%Z ->
  extname_loop ((i, CHAR_DOT) :: rest) (mkExt (-1) sp e ms pd)
  = extname_loop rest (mkExt i sp e ms pd).
Proof.
  intros He. cbn [extname_loop].
  change (Ascii.eqb CHAR_DOT CHAR_FORWARD_SLASH) with false. cbv iota.
  cbn [ext_end]. apply Z.eqb_neq in He. rewrite He. cbv zeta.
  change (Ascii.eqb CHAR_DOT CHAR_DOT) with true. reflexivity.
Qed.

Lemma extname_json (id : string) :
  id <> "" -> noSlash id -> extname (id +:+ ".json") = ".json".
Proof.
  intros Hne Hns. unfold extname.
  assert (Hlen : 0 < String.length id) by (destruct id; [congruence|cbn; lia]).
  rewrite indexed_from_end_append.
  change (String.length ".json") with 5. change (charsOf ".json")
    with [CHAR_DOT; "j"%char; "s"%char; "o"%char; "n"%char].
  set (n := String.length id) in *.
  cbn [List.seq List.map List.combine List.rev List.app].
  rewrite ext_step_first by reflexivity.
  rewrite !ext_step_plain by (reflexivity || lia).
  rewrite ext_step_dot by lia.
  set (e := (Z.of_nat (S (S (S (S n)))) + 1)%Z).
  set (st0 := mkExt (Z.of_nat n) 0 e false 0).
  assert (Hid : indexed_from_end id <> []).
  { unfold indexed_from_end. cbv zeta. destruct id as [|c r]; [congruence|].
    cbn [list_ascii_of_string List.length List.seq List.map List.combine List.rev].
    intros E. apply (f_equal (@List.length _)) in E.
    rewrite List.length_app in E. cbn in E. lia. }
  destruct (extname_loop_after_dot (indexed_from_end id) st0
              (indexed_from_end_noSlash id Hns)) as (A & B & C & _ & D).
  { unfold st0. cbn [startDot]. lia. } { unfold st0, e. cbn [ext_end]. lia. }
  specialize (D Hid). rewrite A, B, C.
  change (startDot st0) with (Z.of_nat n). change (ext_end st0) with e.
  change (startPart st0) with 0%Z.
  replace (Z.of_nat n =? -1)%Z with false by (symmetry; apply Z.eqb_neq; lia).
  replace (e =? -1)%Z with false by (symmetry; apply Z.eqb_neq; unfold e; lia).
  replace (Z.of_nat n =? e - 1)%Z with false
    by (symmetry; apply Z.eqb_neq; unfold e; lia).
  replace (preDotState (extname_loop (indexed_from_end id) st0) =? 0)%Z with false
    by (symmetry; apply Z.eqb_neq; lia).
  rewrite andb_false_r. cbn [orb andb].
  unfold NodePath.slice.
  replace (Z.to_nat (e - Z.of_nat n)) with 5 by (unfold e; lia).
  rewrite Nat2Z.id. exact (substring_append_right id ".json").
Qed.
(** X14. A directory entry named [<id>.json], with [id] not empty, is kept by
    the filter of the run, the worker takes [id] as its extension id, and
    its bin is the first two characters of [id]. *)
Theorem json_named_file_is_selected_and_keyed_by_its_stem (id : string) :
  id <> "" -> noSlash id ->
  isJsonFile (id +:+ ".json") = true
  /\ extensionId (id +:+ ".json") = id
  /\ binOf (id +:+ ".json") = String.substring 0 2 id.
Proof.
  intros Hne Hns. unfold isJsonFile, binOf, extensionId.
  rewrite extname_json, basename_json by assumption.
  repeat split.
Qed.

Lemma json_named_file_is_selected_and_keyed_by_its_stem_witness :
  isJsonFile "abcdef.json" = true
  /\ extensionId "abcdef.json" = "abcdef"
  /\ binOf "abcdef.json" = "ab".
Proof.
  exact (json_named_file_is_selected_and_keyed_by_its_stem "abcdef"
           ltac:(discriminate) ltac:(repeat constructor)).
Defined.

End PartitionMore.

(** ** The counters of a run on the event loop *)
Module Counters.
Import NodePath Fs Partition EventLoop EventLoopProofs.

Definition eventOwed (n : nat) (ev : WorkerEvent) : nat :=
  match ev with
  | EvMessage (MResults results) => List.length results
  | EvMessage (MError _ _) => n
  | EvError _ => n
  | EvExit _ => 0
  end.

Definition handlerOwed (h : HandlerPc) : nat :=
  match h with Running results | Saving _ results => List.length results | _ => 0 end.

(** The files of a worker that the handlers have still to count, as a
    success or as an error. *)
Definition owed (w : Worker) : nat :=
  list_sum (List.map (eventOwed (List.length (w_fileBatch w))) (w_events w))
  + handlerOwed (w_handler w).

(** The files of a worker that a run counts in the end: all, or none when
    the worker only exits with a non-zero code. *)
Definition due (env : Env) (w : Worker) : nat :=
  match env_fate env (w_startIdx w) with
  | Exits _ => 0
  | _ => List.length (w_fileBatch w)
  end.

(** No worker exits with a non-zero code without an error event. *)
Definition noSilentExit (env : Env) : Prop :=
  forall startIdx, match env_fate env startIdx with Exits _ => False | _ => True end.

Definition isMessage (ev : WorkerEvent) : bool :=
  match ev with EvMessage _ => true | _ => false end.

(** A worker posts one message at most, and its handler starts with it. *)
Definition tidy (w : Worker) : Prop :=
  List.length (List.filter isMessage (w_events w))
  + (if (0 <? handlerOwed (w_handler w))%nat then 1 else 0) <= 1.

Definition counted (st : State) : nat := processed st + errors st.

(** What a step of a worker keeps. *)
Definition fair (st : State) (w : Worker) (r : State * Worker) : Prop :=
  tidy (snd r)
  /\ w_startIdx (snd r) = w_startIdx w /\ w_fileBatch (snd r) = w_fileBatch w
  /\ counted (fst r) + owed (snd r) = counted st + owed w.

Lemma fair_same (st : State) (w : Worker) : tidy w -> fair st w (st, w).
Proof. intros H. unfold fair. cbn [fst snd]. tauto. Qed.

Lemma deliver_fair (st : State) (w : Worker) : tidy w -> fair st w (deliver st w).
Proof.
  intros Ht. pose proof (fair_same st w Ht) as Hsame. unfold deliver.
  destruct (w_events w) as [|ev rest] eqn:Ev; [exact Hsame|]. clear Hsame.
  unfold fair, tidy, owed, counted in *. rewrite Ev in *.
  destruct ev as [[results|message stack]|err|code]; try destruct (code =? 0)%Z;
    cbn [fst snd setWorker w_events w_handler w_startIdx w_fileBatch List.map list_sum
           List.fold_right eventOwed handlerOwed List.filter isMessage List.length
           processed errors addErrors logLine] in *.
  - destruct (0 <? handlerOwed (w_handler w))%nat eqn:E.
    + lia.
    + apply Nat.ltb_ge in E. destruct (0 <? List.length results)%nat; repeat split; lia.
  - destruct (0 <? handlerOwed (w_handler w))%nat eqn:E.
    + lia.
    + apply Nat.ltb_ge in E. cbn. repeat split; lia.
  - repeat split; lia.
  - repeat split; lia.
  - repeat split; lia.
Qed.

Lemma counted_markFileProcessedStart (env : Env) (st : State) (f : string) :
  counted (fst (markFileProcessedStart env st f)) = counted st.
Proof.
  unfold markFileProcessedStart, counted.
  destruct (negb _); [|reflexivity]. now destruct (_ =? 0)%nat.
Qed.

Lemma resume_fair (env : Env) (st : State) (w : Worker) :
  tidy w -> fair st w (resume env st w).
Proof.
  intros Ht. pose proof (fair_same st w Ht) as Hsame. unfold resume.
  destruct (w_handler w) as [|[|r rest]|[content n|ok] rest|] eqn:Eh;
    try exact Hsame; clear Hsame; unfold fair, tidy, owed in *; rewrite Eh in *.
  - cbn [fst snd setWorker w_events w_handler w_startIdx w_fileBatch handlerOwed
           List.length Nat.ltb Nat.leb] in *. repeat split; lia.
  - destruct (success r).
    + pose proof (counted_markFileProcessedStart env
                    (countSuccess st (default "undefined" (bin r))) (file r)) as Hc.
      destruct (markFileProcessedStart env _ (file r)) as [st1 saving].
      cbn [fst snd] in *.
      assert (Hc' : counted st1 = counted st + 1)
        by (rewrite Hc; unfold counted; cbn [processed errors countSuccess]; lia).
      destruct saving as [wr|];
        cbn [setWorker w_events w_handler w_startIdx w_fileBatch handlerOwed
               List.length Nat.ltb Nat.leb] in *.
      all: (split; [destruct (List.length rest); lia|repeat split; lia]).
    + unfold counted.
      cbn [fst snd setWorker w_events w_handler w_startIdx w_fileBatch handlerOwed
             List.length processed errors addErrors logLine Nat.ltb Nat.leb] in *.
      split; [destruct (List.length rest); lia|repeat split; lia].
  - unfold counted, markFileProcessedEnd, saveEnd.
    cbn [fst snd setWorker w_events w_handler w_startIdx w_fileBatch handlerOwed] in *.
    destruct ok; cbn [processed errors logLine]; repeat split; lia.
Qed.

Lemma landWorker_fair (env : Env) (st : State) (w : Worker) :
  tidy w -> fair st w (landWorker env st w).
Proof.
  intros Ht. pose proof (fair_same st w Ht) as Hsame. unfold landWorker.
  destruct (w_handler w) as [|results|wr rest|] eqn:Eh;
    try exact Hsame; clear Hsame; unfold fair, tidy, owed, counted in *; rewrite Eh in *.
  unfold land. destruct wr as [content n|ok]; [destruct (env_write_ok env n)|];
    cbn [fst snd setWorker w_events w_handler w_startIdx w_fileBatch handlerOwed
           processed errors] in *; repeat split; lia.
Qed.

(** What the handlers have counted and what they still owe is what is due
    for the workers created so far. *)
Definition balanced (env : Env) (c : Config) : Prop :=
  Forall tidy (workers c)
  /\ counted (mem c) + list_sum (List.map owed (workers c))
     = list_sum (List.map (due env) (workers c)).

Lemma onWorker_balanced (env : Env) (f : State -> Worker -> State * Worker) (k : nat)
    (c : Config) :
  (forall st w, tidy w -> fair st w (f st w)) ->
  balanced env c -> balanced env (onWorker f k c).
Proof.
  intros Hf [Ht Hb]. unfold onWorker. destruct (workers c !! k) as [w|] eqn:Hk; [|now split].
  pose proof (proj1 (Forall_forall _ _) Ht w (list_elem_of_lookup_2 _ _ _ Hk)) as Hw.
  specialize (Hf (mem c) w Hw). destruct (f (mem c) w) as [st1 w1].
  unfold fair in Hf. cbn [fst snd] in Hf. destruct Hf as (F1 & F2 & F3 & F4).
  unfold balanced. cbn [mem workers]. split; [now apply Forall_insert|].
  pose proof (list_sum_insert owed (workers c) k w w1 Hk) as H1.
  pose proof (list_sum_insert (due env) (workers c) k w w1 Hk) as H2.
  assert (Hd : due env w1 = due env w) by (unfold due; now rewrite F2, F3).
  lia.
Qed.

Lemma spawn_balanced (env : Env) (files : list string) (i : nat) :
  Forall tidy (spawn env files i)
  /\ list_sum (List.map owed (spawn env files i))
     = list_sum (List.map (due env) (spawn env files i)).
Proof.
  unfold spawn. induction (roundBatches env files i) as [|[startIdx b] bs [IH1 IH2]].
  - split; [constructor|reflexivity].
  - cbn [List.map list_sum List.fold_right fst snd]. split.
    + constructor; [|exact IH1]. unfold tidy, workerEvents. cbn [w_events w_handler].
      destruct (env_fate env startIdx); cbn; lia.
    + change (fold_right Init.Nat.add 0) with list_sum. rewrite IH2. f_equal.
      unfold owed, due, workerEvents. cbn [w_events w_handler w_startIdx w_fileBatch].
      destruct (env_fate env startIdx); cbn; unfold workerProcess;
        rewrite ?length_map; lia.
Qed.

Lemma enterRound_balanced (env : Env) (files : list string) (i : nat) (st : State)
    (ws : list Worker) :
  balanced env (mkConfig st Returned ws) -> balanced env (enterRound env files i st ws).
Proof.
  unfold balanced, enterRound. cbn [mem workers]. intros [Ht Hb].
  destruct (i <? List.length files)%nat.
  - cbn [mem workers]. destruct (spawn_balanced env files i) as [S1 S2].
    split; [apply Forall_app; now split|].
    rewrite !List.map_app, !list_sum_app. lia.
  - cbn [saveStart mem workers]. now split.
Qed.

Lemma step_balanced (env : Env) (files : list string) (a : Action) (c : Config) :
  balanced env c -> balanced env (step env files a c).
Proof.
  intros H. destruct a as [k|k|k| |]; cbn [step].
  - apply onWorker_balanced; [apply deliver_fair|exact H].
  - apply onWorker_balanced; [apply resume_fair|exact H].
  - apply onWorker_balanced; [apply landWorker_fair|exact H].
  - unfold landMain. destruct (mainPc c) as [i|i wr|wr|]; try exact H;
      unfold land; destruct wr as [content n|ok]; try destruct (env_write_ok env n);
      exact H.
  - unfold mainStep. destruct (mainPc c) as [i|i [content n|ok]|[content n|ok]|];
      try exact H.
    + destruct (anyRejected _); [apply enterRound_balanced; exact H|].
      destruct (allResolved _); exact H.
    + apply enterRound_balanced. destruct ok; exact H.
    + destruct ok; exact H.
Qed.

Lemma run_balanced (env : Env) (files : list string) (schedule : list Action) (c : Config) :
  balanced env c -> balanced env (run env files schedule c).
Proof.
  revert c. induction schedule as [|a schedule IH]; intros c H; [exact H|].
  cbn [run List.fold_left]. apply IH. now apply step_balanced.
Qed.

Lemma idle_owed (ws : list Worker) :
  Forall tidy ws -> List.forallb idle ws = true -> list_sum (List.map owed ws) = 0.
Proof.
  induction 1 as [|w ws Hw _ IH]; [reflexivity|]. cbn [List.forallb].
  intros H. apply andb_true_iff in H as [Hi H].
  change (owed w + list_sum (List.map owed ws) = 0). rewrite (IH H).
  unfold idle in Hi. unfold owed, tidy in *.
  destruct (w_events w); [|discriminate]. cbn in *.
  destruct (w_handler w) as [|results|wr results|]; cbn in *; try discriminate; lia.
Qed.

Lemma due_le (env : Env) (ws : list Worker) :
  list_sum (List.map (due env) ws) <= List.length (List.concat (List.map w_fileBatch ws)).
Proof.
  induction ws as [|w ws IH]; [reflexivity|].
  cbn [List.map List.concat]. rewrite List.length_app.
  change (due env w + list_sum (List.map (due env) ws)
          <= List.length (w_fileBatch w) + List.length (List.concat (List.map w_fileBatch ws))).
  unfold due at 1. destruct (env_fate env (w_startIdx w)); lia.
Qed.

Lemma due_all (env : Env) (ws : list Worker) :
  noSilentExit env ->
  list_sum (List.map (due env) ws) = List.length (List.concat (List.map w_fileBatch ws)).
Proof.
  intros Hn. induction ws as [|w ws IH]; [reflexivity|].
  cbn [List.map List.concat]. rewrite List.length_app.
  change (due env w + list_sum (List.map (due env) ws)
          = List.length (w_fileBatch w) + List.length (List.concat (List.map w_fileBatch ws))).
  rewrite IH. f_equal. unfold due. specialize (Hn (w_startIdx w)).
  now destruct (env_fate env (w_startIdx w)).
Qed.

(** X2.  On the event loop, under every schedule: what the handlers have
    counted in [processed] and [errors] and what they have still to count
    is what is due for the workers created so far, so that the two
    counters never exceed the number of files to process; when no worker
    has anything left to do the counters hold what is due, and when
    moreover the main function has returned and no worker exits with a
    non-zero code without an error event, they add up to the number of
    files to process. *)
Theorem processed_and_errors_add_up
    (env : Env) (files : list string) (p : Progress) (d : CheckpointFile)
    (log : list LogLine) (schedule : list Action) :
  let c := run env files schedule (start env files (enter p d 0 log)) in
  processed (mem c) + errors (mem c) + list_sum (List.map owed (workers c))
  = list_sum (List.map (due env) (workers c))
  /\ processed (mem c) + errors (mem c) <= List.length files
  /\ (List.forallb idle (workers c) = true ->
      processed (mem c) + errors (mem c) = list_sum (List.map (due env) (workers c)))
  /\ (noSilentExit env -> mainPc c = Returned -> List.forallb idle (workers c) = true ->
      processed (mem c) + errors (mem c) = List.length files).
Proof.
  intros c.
  assert (Hb : balanced env c).
  { apply run_balanced, enterRound_balanced. split; [constructor|reflexivity]. }
  assert (Hc : created env files c) by apply run_created, start_created.
  destruct Hb as [Ht Hb]. unfold counted in Hb.
  assert (Hlen : List.length (List.concat (List.map w_fileBatch (workers c)))
                 <= List.length files).
  { unfold created in Hc. rewrite Hc.
    destruct (mainPc c); rewrite ?length_take; lia. }
  pose proof (due_le env (workers c)) as Hd.
  split; [exact Hb|]. split; [lia|]. split.
  - intros Hi. rewrite (idle_owed _ Ht Hi) in Hb. lia.
  - intros Hn Hpc Hi. rewrite (idle_owed _ Ht Hi) in Hb.
    rewrite (due_all env _ Hn) in Hb. unfold created in Hc. rewrite Hpc in Hc.
    rewrite Hc in Hb. lia.
Qed.

End Counters.

(** ** Further properties of drive-upload.js *)
Module UploadMore.
Import Fs Upload UploadProofs.

#[local] Instance update_eq_dec : EqDecision Update.
Proof. solve_decision. Defined.

(** *** The completed set under any schedule *)

Lemma start_updates (updates : list Update) : List.map update (start updates) = updates.
Proof. unfold start. rewrite List.map_map. apply List.map_id. Qed.

Lemma completed_then_listed (updates : list Update) (schedule : list nat) (sh0 : Shared)
    (x : string) :
  x ∈ completedFiles (fst (runSchedule schedule (sh0, start updates))) ->
  x ∈ completedFiles sh0 \/ MarkCompleted x ∈ updates.
Proof.
  intros Hx.
  set (env := mkEnv (fun f => bool_decide (MarkCompleted f ∈ updates)) (fun _ => true)).
  assert (Hok : Forall (okCall env) (start updates)).
  { apply Forall_forall. intros c Hc.
    assert (Hu : update c ∈ updates).
    { rewrite <- (start_updates updates). apply list_elem_of_In, List.in_map.
      now apply list_elem_of_In. }
    unfold okCall. destruct (update c) as [f|]; [|exact I].
    cbn [env_upload_ok env]. now apply bool_decide_eq_true. }
  destruct (run_only_ok_added env schedule sh0 (start updates) Hok x Hx) as [H|H].
  - now left.
  - right. cbn [env_upload_ok env] in H. now apply bool_decide_eq_true in H.
Qed.

Lemma listed_then_completed (sh0 sh : Shared) (calls : list Call) (x : string) :
  Consistent sh0 sh calls ->
  Forall (fun c => pc c = Released) calls ->
  x ∈ completedFiles sh0 \/ MarkCompleted x ∈ List.map update calls ->
  x ∈ completedFiles sh.
Proof.
  intros HC Hrel [H|H].
  - destruct (c_grows _ _ _ HC) as [k Hk]. rewrite Hk. apply elem_of_app. now left.
  - apply list_elem_of_In, List.in_map_iff in H. destruct H as [c [Hu Hc]].
    apply list_elem_of_In in Hc.
    pose proof (c_recorded _ _ _ HC) as Hr.
    rewrite Forall_forall in Hr, Hrel.
    specialize (Hr c Hc). specialize (Hrel c Hc).
    unfold recorded in Hr. now rewrite Hrel, Hu in Hr.
Qed.

(** X10. Whatever the order in which the calls of [updateProgressAtomic]
    of a batch take their turns, once all of them have released the flag
    the completed files are those of the start and those of the
    successful uploads, the same for every schedule. *)
Theorem completed_set_independent_of_schedule
    (sh0 : Shared) (updates : list Update) (schedule : list nat) (x : string) :
  mutex sh0 = false ->
  Forall (fun c => pc c = Released) (snd (runSchedule schedule (sh0, start updates))) ->
  (x ∈ completedFiles (fst (runSchedule schedule (sh0, start updates)))
   <-> x ∈ completedFiles sh0 \/ MarkCompleted x ∈ updates).
Proof.
  intros Hm Hrel. split.
  - apply completed_then_listed.
  - intros H.
    pose proof (consistent_run sh0 schedule sh0 (start updates)
                  (consistent_start sh0 updates Hm)) as HC.
    apply (listed_then_completed sh0 _ _ x HC Hrel).
    rewrite updates_run. cbn [snd]. now rewrite start_updates.
Qed.

Lemma completed_set_independent_of_schedule_witness :
  let sh0 := mkShared 0 0 2 ["old.json"] false in
  let updates := [MarkCompleted "a.json"; CountFailure] in
  mutex sh0 = false
  /\ Forall (fun c => pc c = Released)
       (snd (runSchedule [1; 0; 1; 0; 0] (sh0, start updates)))
  /\ ("a.json" ∈ completedFiles (fst (runSchedule [1; 0; 1; 0; 0] (sh0, start updates)))).
Proof.
  intros sh0 updates.
  assert (Hrel : Forall (fun c => pc c = Released)
                   (snd (runSchedule [1; 0; 1; 0; 0] (sh0, start updates))))
    by (vm_compute; repeat constructor).
  split; [reflexivity|]. split; [exact Hrel|].
  apply (completed_set_independent_of_schedule sh0 updates [1; 0; 1; 0; 0] "a.json"
           eq_refl Hrel).
  right. left.
Defined.
(** *** The batches *)

Lemma take_drop_nonempty (l : list string) (k : nat) :
  k * MAX_CONCURRENT_UPLOADS < List.length l ->
  0 < List.length (take MAX_CONCURRENT_UPLOADS (drop (k * MAX_CONCURRENT_UPLOADS) l)).
Proof.
  intros H. rewrite length_take, length_drop. unfold MAX_CONCURRENT_UPLOADS in *. lia.
Qed.

(** X11. The batches of [uploadDirectoryWithTransferManager] hold at most
    [MAX_CONCURRENT_UPLOADS] files each and none is empty; put end to end
    they are the files to upload, so every file is in one batch. *)
Theorem batches_are_full_slices (files : list string) :
  Forall (fun batch => 0 < List.length batch <= MAX_CONCURRENT_UPLOADS) (batchesOf files)
  /\ List.concat (batchesOf files) = files
  /\ List.length (batchesOf files)
     = (List.length files + MAX_CONCURRENT_UPLOADS - 1) / MAX_CONCURRENT_UPLOADS.
Proof.
  split; [|split; [apply batchesOf_concat|unfold batchesOf; now rewrite length_map, length_seq]].
  unfold batchesOf. apply Forall_forall. intros batch Hb.
  apply list_elem_of_In, List.in_map_iff in Hb. destruct Hb as [k [<- Hk]].
  apply List.in_seq in Hk. split.
  - apply take_drop_nonempty. unfold MAX_CONCURRENT_UPLOADS in *.
    pose proof (Nat.div_mod_eq (List.length files + 30 - 1) 30).
    pose proof (Nat.mod_upper_bound (List.length files + 30 - 1) 30 ltac:(lia)).
    nia.
  - rewrite length_take. lia.
Qed.

(** *** Runs of the loop *)

Lemma uploadLoop_cons_ok (env : Env) (batch : list string) (rest : list (list string))
    (st : State) (started : list (list string)) :
  batchRejects env batch = false ->
  uploadLoop env (batch :: rest) st started
  = uploadLoop env rest (saveProgress env (runBatch env st batch)) (started ++ [batch]).
Proof. intros H. cbn [uploadLoop]. now rewrite H. Qed.

Lemma uploadLoop_cons_rejected (env : Env) (batch : list string) (rest : list (list string))
    (st : State) (started : list (list string)) :
  batchRejects env batch = true ->
  uploadLoop env (batch :: rest) st started
  = (mkState (shared (runBatch env st batch)) (disk (runBatch env st batch))
       (writes (runBatch env st batch))
       (console (runBatch env st batch) ++ [LTransferFailed]),
     started ++ [batch], false).
Proof. intros H. cbn [uploadLoop]. now rewrite H. Qed.

Lemma uploadLoop_stops (env : Env) (batches : list (list string)) :
  forall (st : State) (started : list (list string)),
    let r := uploadLoop env batches st started in
    (snd r = true ->
     List.forallb (fun b => negb (batchRejects env b)) batches = true
     /\ snd (fst r) = started ++ batches)
    /\ (snd r = false ->
        exists before culprit after,
          batches = before ++ culprit :: after
          /\ List.forallb (fun b => negb (batchRejects env b)) before = true
          /\ batchRejects env culprit = true
          /\ snd (fst r) = started ++ before ++ [culprit]
          /\ writes (fst (fst r)) = writes st + List.length before).
Proof.
  induction batches as [|batch rest IH]; intros st started r.
  - subst r. cbn [uploadLoop fst snd List.forallb]. split.
    + intros _. split; [reflexivity|now rewrite List.app_nil_r].
    + discriminate.
  - destruct (batchRejects env batch) eqn:Eb.
    + subst r. rewrite (uploadLoop_cons_rejected env batch rest st started Eb).
      cbn [fst snd]. split; [discriminate|].
      intros _. exists [], batch, rest. cbn [List.app List.forallb List.length writes].
      repeat split; [exact Eb|]. unfold runBatch. cbn [writes]. lia.
    + subst r. rewrite (uploadLoop_cons_ok env batch rest st started Eb).
      destruct (IH (saveProgress env (runBatch env st batch)) (started ++ [batch]))
        as [H1 H2].
      split.
      * intros Hfin. destruct (H1 Hfin) as [Ha Hb].
        cbn [List.forallb]. rewrite Eb, Ha. split; [reflexivity|].
        rewrite Hb. now rewrite <- List.app_assoc.
      * intros Hfin. destruct (H2 Hfin) as (before & culprit & after & E1 & E2 & E3 & E4 & E5).
        exists (batch :: before), culprit, after.
        cbn [List.forallb List.length]. rewrite E4, E5, Eb, E2, E1.
        repeat split; [exact E3|now rewrite <- List.app_assoc|].
        unfold saveProgress, runBatch. destruct (env_write_ok _ _); cbn [writes]; lia.
Qed.

(** X12. The loop of [uploadDirectoryWithTransferManager] runs to its end
    exactly when no batch holds a file whose upload fails; otherwise it
    stops with the first batch that holds one: the batches before it were
    each followed by a call of [saveProgress], that batch is started and
    not saved, and no later batch is started. *)
Theorem upload_loop_stops_at_first_failing_batch
    (env : Env) (batches : list (list string)) (st : State) :
  let r := uploadLoop env batches st [] in
  (snd r = true ->
   List.forallb (fun b => negb (batchRejects env b)) batches = true
   /\ snd (fst r) = batches)
  /\ (snd r = false ->
      exists before culprit after,
        batches = before ++ culprit :: after
        /\ List.forallb (fun b => negb (batchRejects env b)) before = true
        /\ batchRejects env culprit = true
        /\ snd (fst r) = before ++ [culprit]
        /\ writes (fst (fst r)) = writes st + List.length before).
Proof. exact (uploadLoop_stops env batches st []). Qed.

Lemma upload_loop_stops_at_first_failing_batch_witness :
  let env := failing "b.json" in
  let st := mkState (mkShared 0 0 3 [] false) FileAbsent 0 [] in
  snd (uploadLoop env [["a.json"]; ["b.json"]; ["c.json"]] st []) = false
  /\ exists before culprit after,
       [["a.json"]; ["b.json"]; ["c.json"]] = before ++ culprit :: after
       /\ batchRejects env culprit = true
       /\ snd (fst (uploadLoop env [["a.json"]; ["b.json"]; ["c.json"]] st []))
          = before ++ [culprit].
Proof.
  intros env st.
  assert (Hf : snd (uploadLoop env [["a.json"]; ["b.json"]; ["c.json"]] st []) = false)
    by (vm_compute; reflexivity).
  split; [exact Hf|].
  destruct (proj2 (upload_loop_stops_at_first_failing_batch env
                     [["a.json"]; ["b.json"]; ["c.json"]] st) Hf)
    as (before & culprit & after & E1 & _ & E3 & E4 & _).
  exists before, culprit, after. repeat split; assumption.
Defined.
(** *** A run in which every upload succeeds *)

Lemma applyUpdate_mutex (u : Update) (sh : Shared) : mutex (applyUpdate u sh) = mutex sh.
Proof. destruct u; reflexivity. Qed.

Lemma acquire_release (u : Update) (sh : Shared) :
  mutex sh = false -> setMutex false (applyUpdate u (setMutex true sh)) = applyUpdate u sh.
Proof. intros H. destruct sh as [a b t cf m]. simpl in H. subst m. destruct u; reflexivity. Qed.

Lemma fold_applyUpdate_mutex (us : list Update) :
  forall sh, mutex (List.fold_left (fun sh u => applyUpdate u sh) us sh) = mutex sh.
Proof.
  induction us as [|u us IH]; intros sh; [reflexivity|].
  cbn [List.fold_left]. rewrite IH. apply applyUpdate_mutex.
Qed.

(** Served in order, the calls leave the object the updates give when
    applied one after the other. *)
Lemma inOrder_result (pending : list Update) :
  forall (done : list Call) (sh : Shared),
    mutex sh = false ->
    fst (runSchedule
           (List.flat_map (fun i => [i; i])
              (List.seq (List.length done) (List.length pending)))
           (sh, done ++ start pending))
    = List.fold_left (fun sh u => applyUpdate u sh) pending sh.
Proof.
  induction pending as [|u pending IH]; intros done sh Hm.
  - reflexivity.
  - change (List.flat_map (fun i => [i; i])
              (List.seq (List.length done) (List.length (u :: pending))))
      with ([List.length done; List.length done]
            ++ List.flat_map (fun i => [i; i])
                 (List.seq (S (List.length done)) (List.length pending))).
    unfold runSchedule. rewrite List.fold_left_app.
    change (List.fold_left (fun s i => turn i s) [length done; length done]
              (sh, done ++ start (u :: pending)))
      with (turn (length done) (turn (length done)
              (sh, done ++ mkCall u AtLoop :: start pending))).
    fold (runSchedule (List.flat_map (fun i => [i; i])
                         (List.seq (S (List.length done)) (List.length pending)))).
    rewrite (turn_acquire sh _ _ u) by (try apply list_lookup_middle; auto).
    rewrite (turn_release _ _ _ u)
      by (apply list_lookup_insert_eq; rewrite length_app; simpl; lia).
    rewrite list_insert_insert_eq.
    replace (<[length done := mkCall u Released]> (done ++ mkCall u AtLoop :: start pending))
      with ((done ++ [mkCall u Released]) ++ start pending).
    2:{ rewrite insert_app_r_alt by lia. rewrite Nat.sub_diag. simpl.
        now rewrite <- List.app_assoc. }
    replace (S (length done)) with (length (done ++ [mkCall u Released]))
      by (rewrite length_app; simpl; lia).
    rewrite (acquire_release u sh Hm).
    rewrite IH by (now rewrite applyUpdate_mutex).
    reflexivity.
Qed.

Definition updatesOf (env : Env) (batch : list string) : list Update :=
  List.map (fun f => if env_upload_ok env f then MarkCompleted f else CountFailure) batch.

Lemma callsOf_start (env : Env) (batch : list string) :
  callsOf env batch = start (updatesOf env batch).
Proof. unfold callsOf, start, updatesOf. now rewrite List.map_map. Qed.

Lemma runBatch_shared (env : Env) (st : State) (batch : list string) :
  mutex (shared st) = false ->
  shared (runBatch env st batch)
  = List.fold_left (fun sh u => applyUpdate u sh) (updatesOf env batch) (shared st).
Proof.
  intros Hm. unfold runBatch. cbn [shared]. rewrite callsOf_start.
  pose proof (inOrder_result (updatesOf env batch) [] (shared st) Hm) as H.
  cbn [List.length List.app] in H. unfold inOrder.
  replace (List.length batch) with (List.length (updatesOf env batch))
    by (unfold updatesOf; apply length_map).
  exact H.
Qed.

Lemma fold_all_ok (env : Env) (batch : list string) :
  forall sh,
    Forall (fun f => env_upload_ok env f = true) batch ->
    NoDup batch ->
    (forall f, f ∈ batch -> f ∉ completedFiles sh) ->
    let sh' := List.fold_left (fun sh u => applyUpdate u sh) (updatesOf env batch) sh in
    completedFiles sh' = completedFiles sh ++ batch
    /\ uploaded sh' = uploaded sh + List.length batch
    /\ failed sh' = failed sh /\ total sh' = total sh.
Proof.
  induction batch as [|f batch IH]; intros sh Hok Hd Hn.
  - cbn. rewrite List.app_nil_r. repeat split. lia.
  - inversion Hok as [|f' b' Hf Hrest]; subst. inversion Hd as [|f' b' Hnf Hd']; subst.
    cbn [updatesOf List.map List.fold_left]. rewrite Hf.
    fold (updatesOf env batch).
    destruct (IH (applyUpdate (MarkCompleted f) sh) Hrest Hd') as (H1 & H2 & H3 & H4).
    { intros g Hg. cbn [applyUpdate completedFiles].
      rewrite bool_decide_eq_false_2 by (apply Hn; left).
      intros Hin. apply elem_of_app in Hin. destruct Hin as [Hin|Hin].
      - apply (Hn g); [now right|exact Hin].
      - apply list_elem_of_singleton in Hin. subst g. contradiction. }
    cbv zeta. rewrite H1, H2, H3, H4. cbn [applyUpdate completedFiles uploaded failed total].
    rewrite bool_decide_eq_false_2 by (apply Hn; left).
    rewrite <- List.app_assoc. cbn [List.length]. repeat split. lia.
Qed.

Lemma batchRejects_all_ok (env : Env) (batch : list string) :
  Forall (fun f => env_upload_ok env f = true) batch -> batchRejects env batch = false.
Proof.
  intros H. unfold batchRejects. induction H as [|f batch Hf _ IH]; [reflexivity|].
  cbn [List.existsb]. now rewrite Hf, IH.
Qed.

Lemma loadCompleted_saved (names : list string) :
  fst (loadCompleted
         (FileJson (Json.JObj [("completedFiles", Json.JArr (List.map Json.JStr names))])))
  = CNames names.
Proof. simpl. now rewrite JsonFacts.strings_JStr. Qed.

Lemma uploadLoop_all_ok (env : Env) (batches : list (list string)) :
  forall (st : State) (started : list (list string)),
    (forall n, env_write_ok env n = true) ->
    mutex (shared st) = false ->
    Forall (fun f => env_upload_ok env f = true) (List.concat batches) ->
    NoDup (List.concat batches) ->
    (forall f, f ∈ List.concat batches -> f ∉ completedFiles (shared st)) ->
    (batches <> [] \/ fst (loadCompleted (disk st)) = CNames (completedFiles (shared st))) ->
    let r := uploadLoop env batches st started in
    snd r = true
    /\ snd (fst r) = started ++ batches
    /\ completedFiles (shared (fst (fst r)))
       = completedFiles (shared st) ++ List.concat batches
    /\ uploaded (shared (fst (fst r)))
       = uploaded (shared st) + List.length (List.concat batches)
    /\ failed (shared (fst (fst r))) = failed (shared st)
    /\ fst (loadCompleted (disk (fst (fst r))))
       = CNames (completedFiles (shared (fst (fst r)))).
Proof.
  induction batches as [|batch rest IH]; intros st started Hw Hm Hok Hd Hn Hc r.
  - subst r. cbn [uploadLoop fst snd List.concat List.length].
    rewrite !List.app_nil_r. destruct Hc as [Hc|Hc]; [congruence|].
    repeat split; [lia|exact Hc].
  - cbn [List.concat] in Hok, Hd, Hn.
    apply Forall_app in Hok. destruct Hok as [Hok1 Hok2].
    apply NoDup_app in Hd. destruct Hd as (Hd1 & Hd2 & Hd3).
    subst r. rewrite (uploadLoop_cons_ok env batch rest st started
                        (batchRejects_all_ok env batch Hok1)).
    pose proof (runBatch_shared env st batch Hm) as Hs.
    destruct (fold_all_ok env batch (shared st) Hok1 Hd1) as (F1 & F2 & F3 & F4).
    { intros f Hf. apply Hn. apply elem_of_app. now left. }
    cbv zeta in F1, F2, F3, F4. rewrite <- Hs in F1, F2, F3, F4.
    set (st1 := saveProgress env (runBatch env st batch)).
    assert (Hsh : shared st1 = shared (runBatch env st batch)).
    { unfold st1, saveProgress. destruct (env_write_ok _ _); reflexivity. }
    assert (Hdisk : fst (loadCompleted (disk st1)) = CNames (completedFiles (shared st1))).
    { unfold st1, saveProgress. rewrite Hw. cbn [disk shared].
      apply loadCompleted_saved. }
    destruct (IH st1 (started ++ [batch]) Hw) as (R1 & R2 & R3 & R4 & R5 & R6).
    + rewrite Hsh, Hs. now rewrite fold_applyUpdate_mutex.
    + exact Hok2.
    + exact Hd3.
    + intros f Hf. rewrite Hsh, F1. intros Hin. apply elem_of_app in Hin.
      destruct Hin as [Hin|Hin].
      * apply (Hn f); [apply elem_of_app; now right|exact Hin].
      * now apply (Hd2 f Hin).
    + now right.
    + cbn [List.concat]. rewrite R2, R3, R4, R5, Hsh, F1, F2, F3, length_app.
      rewrite <- !List.app_assoc. repeat split; [exact R1|lia|].
      rewrite R6, R3, Hsh, F1. now rewrite <- !List.app_assoc.
Qed.

Lemma batchesOf_nil : batchesOf [] = [].
Proof. reflexivity. Qed.

Lemma filter_none (P : string -> bool) (l : list string) :
  (forall x, In x l -> P x = false) -> List.filter P l = [].
Proof.
  intros H. induction l as [|x l IH]; [reflexivity|].
  cbn [List.filter]. rewrite (H x) by now left. apply IH. intros y Hy. apply H. now right.
Qed.

Lemma filesToUploadOf_done (allFiles completed : list string) :
  filesToUploadOf allFiles (completed ++ filesToUploadOf allFiles completed) = [].
Proof.
  unfold filesToUploadOf at 1. apply filter_none. intros f Hf.
  apply negb_false_iff, bool_decide_eq_true, elem_of_app.
  destruct (decide (f ∈ completed)) as [Hc|Hc]; [now left|right].
  unfold filesToUploadOf. apply list_elem_of_In, List.filter_In.
  split; [exact Hf|now rewrite bool_decide_eq_false_2].
Qed.

Lemma all_ok_run (env : Env) (allFiles : list string) (disk0 : CheckpointFile)
    (completed : list string) (c : list LogLine) :
  loadCompleted disk0 = (CNames completed, c) ->
  (forall n, env_write_ok env n = true) ->
  Forall (fun f => env_upload_ok env f = true) (filesToUploadOf allFiles completed) ->
  NoDup allFiles ->
  exists st,
    uploadDirectoryWithTransferManager env allFiles disk0
    = Some (st, batchesOf (filesToUploadOf allFiles completed), true)
    /\ completedFiles (shared st) = completed ++ filesToUploadOf allFiles completed
    /\ uploaded (shared st) = List.length (filesToUploadOf allFiles completed)
    /\ failed (shared st) = 0
    /\ fst (loadCompleted (disk st)) = CNames (completedFiles (shared st)).
Proof.
  intros Hl Hw Hok Hd. unfold uploadDirectoryWithTransferManager. rewrite Hl.
  set (files := filesToUploadOf allFiles completed) in *.
  set (st0 := mkState (mkShared 0 0 (List.length files) completed false) disk0 0 c).
  assert (Hnd : NoDup files).
  { unfold files, filesToUploadOf. apply NoDup_ListNoDup, List.NoDup_filter.
    now apply NoDup_ListNoDup. }
  destruct (uploadLoop_all_ok env (batchesOf files) st0 [] Hw eq_refl)
    as (R1 & R2 & R3 & R4 & R5 & R6).
  - now rewrite batchesOf_concat.
  - now rewrite batchesOf_concat.
  - intros f Hf. rewrite batchesOf_concat in Hf.
    unfold files, filesToUploadOf in Hf. apply list_elem_of_In, List.filter_In in Hf.
    destruct Hf as [_ Hf]. now apply negb_true_iff, bool_decide_eq_false in Hf.
  - right. unfold st0. cbn [disk shared completedFiles]. now rewrite Hl.
  - rewrite batchesOf_concat in R3, R4.
    destruct (uploadLoop env (batchesOf files) st0 []) as [[st started] fin].
    cbn [fst snd] in *. subst fin started. exists st.
    repeat split; assumption.
Qed.

(** X13. When the checkpoint loads as a list of names, every write
    succeeds, the paths under the directory are distinct and every file
    still to upload uploads without an error, the run starts every batch,
    runs to its end, adds the files to upload to the completed files, each
    once, in some order, counts them all as uploaded and none as failed,
    and leaves a checkpoint that loads as the completed files; a second run
    on the same files then starts no batch and uploads nothing. *)
Theorem run_without_failure_uploads_everything_once
    (env : Env) (allFiles : list string) (disk0 : CheckpointFile)
    (completed : list string) (c : list LogLine) :
  loadCompleted disk0 = (CNames completed, c) ->
  (forall n, env_write_ok env n = true) ->
  Forall (fun f => env_upload_ok env f = true) (filesToUploadOf allFiles completed) ->
  NoDup allFiles ->
  exists st,
    uploadDirectoryWithTransferManager env allFiles disk0
    = Some (st, batchesOf (filesToUploadOf allFiles completed), true)
    /\ completedFiles (shared st) ≡ₚ completed ++ filesToUploadOf allFiles completed
    /\ uploaded (shared st) = List.length (filesToUploadOf allFiles completed)
    /\ failed (shared st) = 0
    /\ exists st2,
         uploadDirectoryWithTransferManager env allFiles (disk st) = Some (st2, [], true)
         /\ uploaded (shared st2) = 0
         /\ completedFiles (shared st2) = completedFiles (shared st).
Proof.
  intros Hl Hw Hok Hd.
  destruct (all_ok_run env allFiles disk0 completed c Hl Hw Hok Hd)
    as (st & E & H1 & H2 & H3 & H4).
  exists st. split; [exact E|]. split; [now rewrite H1|].
  split; [exact H2|]. split; [exact H3|].
  unfold uploadDirectoryWithTransferManager.
  destruct (loadCompleted (disk st)) as [v c2] eqn:El. cbn [fst] in H4. subst v.
  rewrite H1, filesToUploadOf_done, batchesOf_nil. cbn [uploadLoop].
  eexists. split; [reflexivity|]. split; reflexivity.
Qed.

Lemma run_without_failure_uploads_everything_once_witness :
  let env := mkEnv (fun _ => true) (fun _ => true) in
  loadCompleted FileAbsent = (CNames [], [])
  /\ NoDup ["a.json"; "b.json"]
  /\ exists st,
       uploadDirectoryWithTransferManager env ["a.json"; "b.json"] FileAbsent
       = Some (st, batchesOf (filesToUploadOf ["a.json"; "b.json"] []), true)
       /\ uploaded (shared st) = 2.
Proof.
  intros env.
  assert (Hd : NoDup ["a.json"; "b.json"])
    by (apply (bool_decide_unpack _); vm_compute; exact I).
  split; [reflexivity|]. split; [exact Hd|].
  destruct (run_without_failure_uploads_everything_once env ["a.json"; "b.json"] FileAbsent
              [] [] eq_refl (fun _ => eq_refl)
              ltac:(repeat constructor) Hd) as (st & E & _ & H2 & _).
  exists st. split; [exact E|exact H2].
Defined.

End UploadMore.

(** ** drive-upload.js: the scan of the directory *)
Module Scan.
Import NodePath.

#[local] Set Warnings "-register-all".

(** What [fs.promises.readdir(directory, { withFileTypes: true })] gives for
    an entry: its name and whether it is a directory, here with the entries
    of that directory.  A name is a name of a directory entry: it has no
    separator. *)
Inductive Dirent :=
| File (name : string)
| Directory (name : string) (entries : list Dirent).

Definition entryName (entry : Dirent) : string :=
  match entry with File name => name | Directory name _ => name end.

(** The string of a normalised relative path. *)
Definition toString (p : path) : string :=
  match p with [] => "." | _ => String.concat "/" p end.

(** [s.endsWith(searchString)] *)
Definition endsWith (s searchString : string) : bool :=
  bool_decide (list_ascii_of_string searchString `suffix_of` list_ascii_of_string s).

(** One turn of the loop [for (const entry of entries)] of [scanDir], on the
    array [files] that the calls share. *)
Fixpoint scanEntry (directory : path) (files : list path) (entry : Dirent) : list path :=
  let fullPath := join directory (entryName entry) in
  match entry with
  | Directory _ entries => List.fold_left (scanEntry fullPath) entries files
  | File _ =>
    if endsWith (toString fullPath) ".json" then files ++ [fullPath] else files
  end.

(** [scanDir(directory)], where [entries] is what the directory holds. *)
Definition scanDir (directory : path) (entries : list Dirent) (files : list path)
    : list path :=
  List.fold_left (scanEntry directory) entries files.

(** [getFilesRecursively(dir)] *)
Definition getFilesRecursively (dir : path) (entries : list Dirent) : list path :=
  scanDir dir entries [].

(** The regular file [name] is found in [entries] along the directories
    [rel], which ends with [name]. *)
Inductive fileAt : list Dirent -> path -> string -> Prop :=
| fileAt_here entries name :
    File name ∈ entries -> fileAt entries [name] name
| fileAt_below entries d sub rel name :
    Directory d sub ∈ entries -> fileAt sub rel name ->
    fileAt entries (d :: rel) name.

(** A name that [path.join] appends as it is. *)
Definition plainName (name : string) : Prop :=
  name <> "" /\ name <> "." /\ name <> "..".

Inductive wellNamed : Dirent -> Prop :=
| wellNamed_file name : plainName name -> wellNamed (File name)
| wellNamed_dir name entries :
    plainName name -> Forall wellNamed entries -> wellNamed (Directory name entries).

(** The entries of one directory have different names, at every depth. *)
Inductive distinctNames : Dirent -> Prop :=
| distinctNames_file name : distinctNames (File name)
| distinctNames_dir name entries :
    NoDup (List.map entryName entries) -> Forall distinctNames entries ->
    distinctNames (Directory name entries).

End Scan.

Module ScanProofs.
Import NodePath Scan.

Section DirentInduction.
Variable P : Dirent -> Prop.
Hypothesis P_file : forall name, P (File name).
Hypothesis P_dir : forall name entries, Forall P entries -> P (Directory name entries).

Fixpoint Dirent_nested_ind (entry : Dirent) : P entry :=
  match entry with
  | File name => P_file name
  | Directory name entries =>
    P_dir name entries
      ((fix go (l : list Dirent) : Forall P l :=
          match l with
          | [] => @List.Forall_nil _ P
          | x :: r => @List.Forall_cons _ P x r (Dirent_nested_ind x) (go r)
          end) entries)
  end.
End DirentInduction.

Lemma normalize_plain (dir acc : path) :
  Forall plainName dir -> List.fold_left push_segment dir acc = acc ++ dir.
Proof.
  intros H. revert acc. induction H as [|s dir (H1 & H2 & H3) _ IH]; intros acc.
  - cbn. now rewrite List.app_nil_r.
  - cbn [List.fold_left]. rewrite IH. unfold push_segment.
    apply String.eqb_neq in H1, H2, H3. rewrite H1, H2, H3.
    now rewrite <- List.app_assoc.
Qed.

Lemma join_plainName (dir : path) (name : string) :
  Forall plainName dir -> plainName name -> join dir name = dir ++ [name].
Proof.
  intros Hd Hn. unfold join, normalize_segments.
  apply (normalize_plain (dir ++ [name]) []).
  apply Forall_app. split; [exact Hd|]. now constructor.
Qed.

Lemma concat_last (dir : path) (name : string) :
  exists X, list_ascii_of_string (String.concat "/" (dir ++ [name]))
            = X ++ list_ascii_of_string name
            /\ (X = [] \/ exists Y, X = Y ++ [CHAR_FORWARD_SLASH]).
Proof.
  induction dir as [|d dir (X & E & HX)].
  - exists []. split; [reflexivity|now left].
  - assert (Hc : String.concat "/" ((d :: dir) ++ [name])
                 = d +:+ "/" +:+ String.concat "/" (dir ++ [name])).
    { cbn [List.app String.concat]. destruct (dir ++ [name]) eqn:El; [|reflexivity].
      now destruct dir. }
    rewrite Hc.
    assert (Happ : forall a b, list_ascii_of_string (a +:+ b)
                               = list_ascii_of_string a ++ list_ascii_of_string b).
    { intros a b. induction a as [|c a IHa]; [reflexivity|]. simpl. f_equal. exact IHa. }
    rewrite !Happ, E.
    change (list_ascii_of_string "/") with [CHAR_FORWARD_SLASH].
    exists (list_ascii_of_string d ++ [CHAR_FORWARD_SLASH] ++ X). split.
    + now rewrite <- !List.app_assoc.
    + right. destruct HX as [->|[Y ->]].
      * exists (list_ascii_of_string d). now rewrite List.app_nil_r.
      * exists (list_ascii_of_string d ++ [CHAR_FORWARD_SLASH] ++ Y).
        now rewrite <- !List.app_assoc.
Qed.

Lemma suffix_after_separator (s Y N : list ascii) :
  CHAR_FORWARD_SLASH ∉ s ->
  s `suffix_of` (Y ++ [CHAR_FORWARD_SLASH]) ++ N <-> s `suffix_of` N.
Proof.
  intros Hs. split.
  - intros [k Hk]. apply app_eq_inv in Hk.
    destruct Hk as [(k0 & E1 & E2)|(k0 & E1 & E2)].
    + destruct (decide (k0 = [])) as [->|Hne].
      * subst s. reflexivity.
      * exfalso. apply Hs. subst s. apply elem_of_app. left.
        destruct (exists_last Hne) as (k1 & c & ->).
        rewrite List.app_assoc in E1. apply app_inj_tail in E1.
        destruct E1 as [_ <-]. apply elem_of_app. right. left.
    + exists k0. exact E2.
  - intros [k ->]. exists ((Y ++ [CHAR_FORWARD_SLASH]) ++ k).
    now rewrite <- !List.app_assoc.
Qed.

(** The test [fullPath.endsWith('.json')] looks at the name of the entry
    only. *)
Lemma endsWith_fullPath (dir : path) (name : string) :
  endsWith (toString (dir ++ [name])) ".json" = endsWith name ".json".
Proof.
  unfold endsWith, toString. apply bool_decide_ext.
  destruct (dir ++ [name]) eqn:El; [now destruct dir|]. rewrite <- El.
  destruct (concat_last dir name) as (X & -> & [->|[Y ->]]); [reflexivity|].
  apply suffix_after_separator. vm_compute. intros H.
  repeat (apply elem_of_cons in H; destruct H as [H|H]; [discriminate|]).
  now apply elem_of_nil in H.
Qed.

Lemma fileAt_cons (e : Dirent) (es : list Dirent) (rel : path) (name : string) :
  fileAt (e :: es) rel name <-> fileAt [e] rel name \/ fileAt es rel name.
Proof.
  split.
  - intros H. inversion H as [? ? Hin|? d sub rel' ? Hin Hsub]; subst.
    + apply elem_of_cons in Hin. destruct Hin as [<-|Hin].
      * left. constructor. left.
      * right. now constructor.
    + apply elem_of_cons in Hin. destruct Hin as [<-|Hin].
      * left. econstructor; [left|exact Hsub].
      * right. econstructor; eauto.
  - intros [H|H]; inversion H as [? ? Hin|? d sub rel' ? Hin Hsub]; subst.
    + apply list_elem_of_singleton in Hin. subst. constructor. left.
    + apply list_elem_of_singleton in Hin. subst. econstructor; [left|exact Hsub].
    + constructor. now right.
    + econstructor; [right; exact Hin|exact Hsub].
Qed.

Lemma fileAt_nil (rel : path) (name : string) : ~ fileAt [] rel name.
Proof. intros H. inversion H as [? ? Hin|? ? ? ? ? Hin _]; now apply elem_of_nil in Hin. Qed.

(** What one entry adds to the shared array. *)
Definition found (dir : path) (entries : list Dirent) (p : path) : Prop :=
  exists rel name,
    p = dir ++ rel /\ fileAt entries rel name /\ endsWith name ".json" = true.

Definition entrySpec (entry : Dirent) : Prop :=
  forall dir files p, Forall plainName dir ->
    p ∈ scanEntry dir files entry <-> p ∈ files \/ found dir [entry] p.

Lemma scanDir_spec (entries : list Dirent) :
  Forall entrySpec entries ->
  forall dir files p, Forall plainName dir ->
    p ∈ scanDir dir entries files <-> p ∈ files \/ found dir entries p.
Proof.
  unfold scanDir. induction 1 as [|e es He _ IH]; intros dir files p Hd.
  - cbn. split; [now left|]. intros [H|(rel & name & _ & H & _)]; [exact H|].
    now apply fileAt_nil in H.
  - cbn [List.fold_left]. rewrite (IH dir _ p Hd), (He dir files p Hd).
    unfold found. split.
    + intros [[H|(rel & name & E & H & Hj)]|(rel & name & E & H & Hj)].
      * now left.
      * right. exists rel, name. repeat split; auto. apply fileAt_cons. now left.
      * right. exists rel, name. repeat split; auto. apply fileAt_cons. now right.
    + intros [H|(rel & name & E & H & Hj)].
      * left. now left.
      * apply fileAt_cons in H. destruct H as [H|H].
        -- left. right. exists rel, name. auto.
        -- right. exists rel, name. auto.
Qed.

Lemma scanEntry_spec (entry : Dirent) : wellNamed entry -> entrySpec entry.
Proof.
  induction entry as [name|name entries IH] using Dirent_nested_ind;
    intros Hw dir files p Hd; inversion Hw as [? Hn|? ? Hn Hsub]; subst.
  - cbn [scanEntry entryName]. rewrite (join_plainName dir name Hd Hn).
    rewrite endsWith_fullPath. unfold found. split.
    + destruct (endsWith name ".json") eqn:Ej; [|now left].
      intros H. apply elem_of_app in H. destruct H as [H|H]; [now left|].
      apply list_elem_of_singleton in H. right. exists [name], name.
      repeat split; [exact H| |exact Ej]. constructor. left.
    + intros [H|(rel & n & E & H & Hj)].
      * destruct (endsWith name ".json"); [apply elem_of_app; now left|exact H].
      * inversion H as [? ? Hin|? ? ? ? ? Hin _]; subst;
          apply list_elem_of_singleton in Hin; [|discriminate].
        injection Hin as <-. rewrite Hj. apply elem_of_app. right. left.
  - cbn [scanEntry entryName]. rewrite (join_plainName dir name Hd Hn).
    assert (Hs : Forall entrySpec entries).
    { apply Forall_forall. intros e He. eapply Forall_forall in IH; [|exact He].
      apply IH. eapply Forall_forall in Hsub; [exact Hsub|exact He]. }
    assert (Hd' : Forall plainName (dir ++ [name])).
    { apply Forall_app. split; [exact Hd|now constructor]. }
    pose proof (scanDir_spec entries Hs (dir ++ [name]) files p Hd') as Hspec.
    unfold scanDir in Hspec. rewrite Hspec. unfold found. split.
    + intros [H|(rel & n & E & H & Hj)]; [now left|]. right.
      exists (name :: rel), n. repeat split; [|econstructor; [left|exact H]|exact Hj].
      now rewrite E, <- List.app_assoc.
    + intros [H|(rel & n & E & H & Hj)]; [now left|]. right.
      inversion H as [? ? Hin|? ? ? rel' ? Hin Hin']; subst;
        apply list_elem_of_singleton in Hin; [discriminate|].
      injection Hin as <- <-. exists rel', n. repeat split; auto.
      now rewrite <- List.app_assoc.
Qed.

(** X15. The scan returns exactly the regular files, at any depth below the
    directory, whose name ends with [.json]: the path of each is the
    directory followed by the names that lead to it.  A directory is never
    returned, whatever its name. *)
Theorem scan_returns_exactly_the_json_named_files
    (dir : path) (entries : list Dirent) (p : path) :
  Forall plainName dir -> Forall wellNamed entries ->
  (p ∈ getFilesRecursively dir entries
   <-> exists rel name,
         p = dir ++ rel /\ fileAt entries rel name /\ endsWith name ".json" = true).
Proof.
  intros Hd Hw. unfold getFilesRecursively.
  assert (Hs : Forall entrySpec entries).
  { eapply Forall_impl; [exact Hw|]. intros e. apply scanEntry_spec. }
  rewrite (scanDir_spec entries Hs dir [] p Hd). fold (found dir entries p).
  split; [|now right]. intros [H|H]; [now apply elem_of_nil in H|exact H].
Qed.

Definition exampleTree : list Dirent :=
  [File "a.json";
   Directory "old.json" [File "b.json"; File "c.JSON"];
   File "notes.txt"].

Lemma plainName_intro (name : string) :
  negb (String.eqb name "" || String.eqb name "." || String.eqb name "..") = true ->
  plainName name.
Proof.
  intros H. apply negb_true_iff in H. apply orb_false_iff in H as [H H3].
  apply orb_false_iff in H as [H1 H2].
  repeat split; now apply String.eqb_neq.
Qed.

Lemma scan_returns_exactly_the_json_named_files_witness :
  ["extension-dir"; "old.json"; "b.json"] ∈ getFilesRecursively ["extension-dir"] exampleTree
  <-> exists rel name,
        ["extension-dir"; "old.json"; "b.json"] = ["extension-dir"] ++ rel
        /\ fileAt exampleTree rel name /\ endsWith name ".json" = true.
Proof.
  apply (scan_returns_exactly_the_json_named_files ["extension-dir"] exampleTree).
  - repeat constructor; discriminate.
  - unfold exampleTree.
    repeat (first [apply List.Forall_nil | apply List.Forall_cons
                  | apply wellNamed_file | apply wellNamed_dir
                  | apply plainName_intro; reflexivity]).
Defined.

Lemma fold_scanEntry_acc (entries : list Dirent) (dir : path) :
  Forall (fun e => forall dir files, scanEntry dir files e = files ++ scanEntry dir [] e)
         entries ->
  forall files,
    List.fold_left (scanEntry dir) entries files
    = files ++ List.fold_left (scanEntry dir) entries [].
Proof.
  induction 1 as [|e es He _ IH]; intros files.
  - cbn. now rewrite List.app_nil_r.
  - cbn [List.fold_left]. rewrite IH, (IH (scanEntry dir [] e)), He.
    now rewrite List.app_assoc.
Qed.

(** The calls only push on the shared array. *)
Lemma scanEntry_acc (entry : Dirent) (dir : path) (files : list path) :
  scanEntry dir files entry = files ++ scanEntry dir [] entry.
Proof.
  revert dir files.
  induction entry as [name|name entries IH] using Dirent_nested_ind; intros dir files.
  - cbn [scanEntry]. now destruct (endsWith _ _); [|rewrite List.app_nil_r].
  - cbn [scanEntry]. now apply fold_scanEntry_acc.
Qed.

Lemma scanDir_cons (dir : path) (e : Dirent) (es : list Dirent) :
  scanDir dir (e :: es) [] = scanEntry dir [] e ++ scanDir dir es [].
Proof.
  unfold scanDir. cbn [List.fold_left]. apply fold_scanEntry_acc.
  apply Forall_forall. intros e' _ dir' files. apply scanEntry_acc.
Qed.

Lemma fileAt_head (entries : list Dirent) (rel : path) (name : string) :
  fileAt entries rel name ->
  exists e rest, e ∈ entries /\ rel = entryName e :: rest.
Proof.
  intros H. inversion H as [? ? Hin|? d sub rel' ? Hin _]; subst.
  - now exists (File name), [].
  - now exists (Directory d sub), rel'.
Qed.

Definition entryNoDup (entry : Dirent) : Prop :=
  forall dir, Forall plainName dir -> NoDup (scanEntry dir [] entry).

Lemma scanDir_NoDup (entries : list Dirent) :
  Forall entryNoDup entries -> Forall wellNamed entries ->
  NoDup (List.map entryName entries) ->
  forall dir, Forall plainName dir -> NoDup (scanDir dir entries []).
Proof.
  induction 1 as [|e es He _ IH]; intros Hw Hn dir Hd.
  - constructor.
  - rewrite scanDir_cons. apply Forall_cons in Hw as [Hwe Hwes].
    cbn [List.map] in Hn. apply NoDup_cons in Hn as [Hne Hnes].
    assert (Hs : Forall entrySpec es).
    { eapply Forall_impl; [exact Hwes|]. intros e'. apply scanEntry_spec. }
    apply NoDup_app. split; [now apply He|]. split; [|now apply IH].
    intros p H1 H2.
    apply (scanEntry_spec e Hwe dir [] p Hd) in H1.
    apply (scanDir_spec es Hs dir [] p Hd) in H2.
    destruct H1 as [H1|(rel1 & n1 & E1 & F1 & _)]; [now apply elem_of_nil in H1|].
    destruct H2 as [H2|(rel2 & n2 & E2 & F2 & _)]; [now apply elem_of_nil in H2|].
    apply fileAt_head in F1 as (e1 & r1 & Hin1 & ->).
    apply fileAt_head in F2 as (e2 & r2 & Hin2 & ->).
    apply list_elem_of_singleton in Hin1. subst e1.
    rewrite E1 in E2. apply app_inv_head in E2. injection E2 as E2 _.
    apply Hne. rewrite E2. apply list_elem_of_fmap. now exists e2.
Qed.

Lemma scanEntry_NoDup (entry : Dirent) :
  wellNamed entry -> distinctNames entry -> entryNoDup entry.
Proof.
  induction entry as [name|name entries IH] using Dirent_nested_ind;
    intros Hw Hdn dir Hd; inversion Hw as [? Hn|? ? Hn Hsub]; subst.
  - cbn [scanEntry]. destruct (endsWith _ _); [|constructor].
    apply NoDup_singleton.
  - inversion Hdn as [|? ? Hnames Hdsub]; subst.
    cbn [scanEntry entryName]. rewrite (join_plainName dir name Hd Hn).
    apply (scanDir_NoDup entries); auto.
    + apply Forall_forall. intros e He.
      eapply Forall_forall in IH; [|exact He]. apply IH.
      * eapply Forall_forall in Hsub; [exact Hsub|exact He].
      * eapply Forall_forall in Hdsub; [exact Hdsub|exact He].
    + apply Forall_app. split; [exact Hd|now constructor].
Qed.

(** X16. When the entries of every directory have different names, the scan
    returns no path twice. *)
Theorem scan_returns_no_path_twice (dir : path) (entries : list Dirent) :
  Forall plainName dir -> Forall wellNamed entries ->
  NoDup (List.map entryName entries) -> Forall distinctNames entries ->
  NoDup (getFilesRecursively dir entries).
Proof.
  intros Hd Hw Hn Hdn. apply scanDir_NoDup; auto.
  apply Forall_forall. intros e He. apply scanEntry_NoDup.
  - eapply Forall_forall in Hw; [exact Hw|exact He].
  - eapply Forall_forall in Hdn; [exact Hdn|exact He].
Qed.

Lemma scan_returns_no_path_twice_witness :
  NoDup (getFilesRecursively ["extension-dir"] exampleTree).
Proof.
  apply (scan_returns_no_path_twice ["extension-dir"] exampleTree).
  - repeat constructor; discriminate.
  - unfold exampleTree.
    repeat (first [apply List.Forall_nil | apply List.Forall_cons
                  | apply wellNamed_file | apply wellNamed_dir
                  | apply plainName_intro; reflexivity]).
  - apply NoDup_ListNoDup. vm_compute.
    repeat (constructor; [intros H; cbn in H; intuition discriminate|]). constructor.
  - unfold exampleTree.
    repeat (first [apply List.Forall_nil | apply List.Forall_cons
                  | apply distinctNames_file | apply distinctNames_dir ]).
    apply NoDup_ListNoDup. vm_compute.
    repeat (constructor; [intros H; cbn in H; intuition discriminate|]). constructor.
Defined.

End ScanProofs.
